(** * zuu fixed-capacity strings: a shallow embedding and its properties

    The development follows the sources of the repository:
    - [include/zuu/core/core.hpp]   : [basic_fstring] (module [core])
    - [constant_string_class.hpp]   : [zuu::string]   (module [constant_string])
    - [include/zuu/str/*.hpp]       : case, trim, count and the splits (module [str])
    - [include/zuu/fmt/core.hpp]    : integer formatting and parsing (module [fmt])

    Module [spec] holds the reference definitions the algorithms are
    compared with, module [invariant] the buffer invariant and the buffers
    reachable through the public operations.

    Conventions.  A code unit ([CharT]) is an integer ([Z]); the terminator
    [CharT{}] is [0].  The storage [data_[Cap + 1]] is a [list Z]; a write
    [data_[i] = c] is stdpp's [<[i:=c]>], which leaves the list unchanged when
    [i] is out of range (in C++ such a write is undefined behaviour; the
    invariant proved below shows the terminator write is always in range).
    [std::size_t] quantities are [nat]; the sentinel [npos] is [None].  A
    pointer argument that may be null is an [option]; the pointee is the list
    of units readable from the pointer, and reading past its end yields the
    terminator. *)

From Stdlib Require Import ZArith Lia String Ascii.
From stdpp Require Import base list.

(** Code units of a narrow string literal. *)
Definition lit (s : String.string) : list Z :=
  map (fun a => Z.of_nat (nat_of_ascii a)) (list_ascii_of_string s).

(** [std::min] on [std::size_t]. *)
Definition std_min (a b : nat) : nat := if b <? a then b else a.

(** [std::copy_n(src, n, dst + off)]. *)
Fixpoint copy_n (src : list Z) (n : nat) (dst : list Z) (off : nat) : list Z :=
  match n, src with
  | S n', c :: src' => copy_n src' n' (<[off := c]> dst) (S off)
  | _, _ => dst
  end.

(** [std::fill_n(dst + off, n, ch)]. *)
Fixpoint fill_n (dst : list Z) (off n : nat) (ch : Z) : list Z :=
  match n with
  | O => dst
  | S n' => fill_n (<[off := ch]> dst) (S off) n' ch
  end.

(** [p[i]] for a pointer [p] into the units [mem]. *)
Definition deref (mem : list Z) (i : nat) : Z := default 0%Z (mem !! i).

(** ** [basic_fstring<CharT, Cap>] (core.hpp) *)
Module core.

Record basic_fstring := mk_fstring { data_ : list Z; size_ : nat }.

(** [basic_fstring() = default]: [data_[Cap + 1]{}], [size_{}]. *)
Definition default_ctor (Cap : nat) : basic_fstring :=
  {| data_ := replicate (S Cap) 0%Z; size_ := 0 |}.

Definition set_null_terminator (s : basic_fstring) : basic_fstring :=
  {| data_ := <[size_ s := 0%Z]> (data_ s); size_ := size_ s |}.

(** [basic_fstring(const CharT (&str)[N])]; [str] is the whole array. *)
Definition from_literal (Cap : nat) (str : list Z) : basic_fstring :=
  let s0 := default_ctor Cap in
  let sz := std_min Cap (length str - 1) in
  set_null_terminator {| data_ := copy_n str sz (data_ s0) 0; size_ := sz |}.

(** [basic_fstring(const_pointer str, size_type len)]. *)
Definition from_ptr_len (Cap : nat) (str : option (list Z)) (len : nat)
  : basic_fstring :=
  let s0 := default_ctor Cap in
  match str with
  | Some src =>
      let sz := std_min Cap len in
      set_null_terminator {| data_ := copy_n src sz (data_ s0) 0; size_ := sz |}
  | None => s0
  end.

(** The loop of [basic_fstring(const_pointer str)]:
    [while (str[len] != CharT{} && len < Cap) { data_[len] = str[len]; ++len; }].
    At most [Cap] iterations run, which is the fuel. *)
Fixpoint cstr_loop (fuel : nat) (Cap : nat) (src : list Z) (d : list Z) (len : nat)
  : list Z * nat :=
  match fuel with
  | O => (d, len)
  | S fuel' =>
      if negb (deref src len =? 0)%Z && (len <? Cap)
      then cstr_loop fuel' Cap src (<[len := deref src len]> d) (S len)
      else (d, len)
  end.

Definition from_cstr (Cap : nat) (str : option (list Z)) : basic_fstring :=
  let s0 := default_ctor Cap in
  match str with
  | Some src =>
      let '(d, len) := cstr_loop Cap Cap src (data_ s0) 0 in
      set_null_terminator {| data_ := d; size_ := len |}
  | None => s0
  end.

(** [basic_fstring(size_type count, CharT ch)]. *)
Definition fill_ctor (Cap : nat) (count : nat) (ch : Z) : basic_fstring :=
  let s0 := default_ctor Cap in
  let sz := std_min Cap count in
  set_null_terminator {| data_ := fill_n (data_ s0) 0 sz ch; size_ := sz |}.

Definition empty (s : basic_fstring) : bool := (size_ s =? 0).
Definition size (s : basic_fstring) : nat := size_ s.
Definition available (Cap : nat) (s : basic_fstring) : nat := Cap - size_ s.
Definition full (Cap : nat) (s : basic_fstring) : bool := (size_ s =? Cap).

(** [operator[]]. *)
Definition index (s : basic_fstring) (pos : nat) : Z := deref (data_ s) pos.

(** [at(pos)]: [None] stands for the thrown [std::out_of_range]. *)
Definition at_ (s : basic_fstring) (pos : nat) : option Z :=
  if (size_ s <=? pos) then None else Some (index s pos).

Definition clear (s : basic_fstring) : basic_fstring :=
  {| data_ := <[0 := 0%Z]> (data_ s); size_ := 0 |}.

Definition push_back (Cap : nat) (s : basic_fstring) (ch : Z) : basic_fstring :=
  if negb (full Cap s)
  then set_null_terminator
         {| data_ := <[size_ s := ch]> (data_ s); size_ := S (size_ s) |}
  else s.

Definition pop_back (s : basic_fstring) : basic_fstring :=
  if (0 <? size_ s)
  then set_null_terminator {| data_ := data_ s; size_ := size_ s - 1 |}
  else s.

Definition resize (Cap : nat) (s : basic_fstring) (new_size : nat) (ch : Z)
  : basic_fstring :=
  let new_size := std_min new_size Cap in
  let d := if (size_ s <? new_size)
           then fill_n (data_ s) (size_ s) (new_size - size_ s) ch
           else data_ s in
  set_null_terminator {| data_ := d; size_ := new_size |}.

(** [append(const_pointer str, size_type len)]; the returned reference
    [*this] is the updated buffer. *)
Definition append (Cap : nat) (s : basic_fstring) (str : option (list Z)) (len : nat)
  : basic_fstring :=
  match str with
  | Some src =>
      if negb (full Cap s) then
        let len := std_min len (available Cap s) in
        set_null_terminator
          {| data_ := copy_n src len (data_ s) (size_ s); size_ := size_ s + len |}
      else s
  | None => s
  end.

(** [append(CharT ch)]. *)
Definition append_char (Cap : nat) (s : basic_fstring) (ch : Z) : basic_fstring :=
  push_back Cap s ch.

(** [append(size_type count, CharT ch)]. *)
Definition append_fill (Cap : nat) (s : basic_fstring) (count : nat) (ch : Z)
  : basic_fstring :=
  let count := std_min count (available Cap s) in
  set_null_terminator
    {| data_ := fill_n (data_ s) (size_ s) count ch; size_ := size_ s + count |}.

(** [substr<ResultCap>(pos, count)]; [count = None] is the default [npos]. *)
Definition substr (ResultCap : nat) (s : basic_fstring) (pos : nat) (count : option nat)
  : basic_fstring :=
  let result := default_ctor ResultCap in
  if (size_ s <=? pos) then result
  else
    let count := match count with
                 | Some c => std_min c (size_ s - pos)
                 | None => size_ s - pos
                 end in
    append ResultCap result (Some (drop pos (data_ s))) count.

(** [operator+(const basic_fstring<CharT, N>& rhs)], result capacity [Cap + N]. *)
Definition plus (Cap N : nat) (s rhs : basic_fstring) : basic_fstring :=
  let result := default_ctor (Cap + N) in
  let result := append (Cap + N) result (Some (data_ s)) (size_ s) in
  append (Cap + N) result (Some (data_ rhs)) (size_ rhs).

(** [operator+(const CharT (&rhs)[N])]: [N] is the extent of the array [rhs]. *)
Definition plus_literal (Cap : nat) (s : basic_fstring) (rhs : list Z) : basic_fstring :=
  let N := length rhs in
  let result := default_ctor (Cap + N) in
  let result := append (Cap + N) result (Some (data_ s)) (size_ s) in
  append (Cap + N) result (Some rhs) N.

(** [operator+=(const basic_fstring<CharT, N>& rhs)]. *)
Definition plus_assign (Cap : nat) (s rhs : basic_fstring) : basic_fstring :=
  append Cap s (Some (data_ rhs)) (size_ rhs).

(** [operator+=(const CharT (&rhs)[N])]. *)
Definition plus_assign_literal (Cap : nat) (s : basic_fstring) (rhs : list Z)
  : basic_fstring :=
  append Cap s (Some rhs) (length rhs).

(** [operator+=(CharT ch)]. *)
Definition plus_assign_char (Cap : nat) (s : basic_fstring) (ch : Z) : basic_fstring :=
  append_char Cap s ch.

(** [while (str[str_len] != CharT{}) ++str_len;] *)
Fixpoint strlen (str : list Z) : nat :=
  match str with
  | [] => 0
  | c :: rest => if (c =? 0)%Z then 0 else S (strlen rest)
  end.

(** The inner loop of [find(const_pointer str, pos)]: with [n] units of
    [str] left to compare from index [j], does [str] match [data_] at [i]? *)
Fixpoint match_at (d : list Z) (i : nat) (str : list Z) (j n : nat) : bool :=
  match n with
  | O => true
  | S n' => if (deref d (i + j) =? deref str j)%Z
            then match_at d i str (S j) n'
            else false
  end.

(** The outer loop [for (i = pos; i <= size_ - str_len; ++i)], with [n]
    start positions left to try. *)
Fixpoint find_scan (d : list Z) (str : list Z) (str_len : nat) (i n : nat)
  : option nat :=
  match n with
  | O => None
  | S n' => if match_at d i str 0 str_len then Some i
            else find_scan d str str_len (S i) n'
  end.


(** [find(const_pointer str, size_type pos)].  The guard
    [pos + str_len > size_] is taken on the mathematical sum: the
    definition describes the calls whose sum [pos + str_len] does not
    exceed [size_t_max], where the [std::size_t] sum does not wrap around. *)
Definition find (s : basic_fstring) (str : option (list Z)) (pos : nat) : option nat :=
  match str with
  | None => None
  | Some p =>
      let str_len := strlen p in
      if str_len =? 0 then Some pos
      else if size_ s <? pos + str_len then None
      else find_scan (data_ s) p str_len pos (S (size_ s - str_len) - pos)
  end.

(** [find(CharT ch, size_type pos)]. *)
Fixpoint find_char_scan (d : list Z) (ch : Z) (i n : nat) : option nat :=
  match n with
  | O => None
  | S n' => if (deref d i =? ch)%Z then Some i else find_char_scan d ch (S i) n'
  end.

Definition find_char (s : basic_fstring) (ch : Z) (pos : nat) : option nat :=
  find_char_scan (data_ s) ch pos (size_ s - pos).

(** [operator<<(std::basic_ostream&, const basic_fstring&)] is
    [os << str.data()]: the stream inserter for [const CharT*] writes the
    units before the first terminator.  The result is the list of units
    written to the stream. *)
Definition stream_insert (s : basic_fstring) : list Z :=
  take (strlen (data_ s)) (data_ s).

(** [to_string()] and the [basic_string_view] conversion: [{data_, size_}]. *)
Definition to_string (s : basic_fstring) : list Z := take (size_ s) (data_ s).

(** The loop of [rfind(CharT ch, size_type pos)]:
    [for (i = search_end + 1; i > 0; --i) if (data_[i - 1] == ch) return i - 1;]. *)
Fixpoint rfind_scan (d : list Z) (ch : Z) (i : nat) : option nat :=
  match i with
  | O => None
  | S i' => if (deref d i' =? ch)%Z then Some i' else rfind_scan d ch i'
  end.

(** [rfind(CharT ch, size_type pos = npos)]; [pos = None] is [npos]. *)
Definition rfind (s : basic_fstring) (ch : Z) (pos : option nat) : option nat :=
  if size_ s =? 0 then None
  else
    let search_end := match pos with
                      | None => size_ s - 1
                      | Some p => if size_ s <=? p then size_ s - 1 else p
                      end in
    rfind_scan (data_ s) ch (search_end + 1).

(** [contains(const_pointer str)]: [find(str) != npos]. *)
Definition contains (s : basic_fstring) (str : option (list Z)) : bool :=
  match find s str 0 with Some _ => true | None => false end.

(** The loop of [starts_with(const_pointer str)], with [str + i] the units
    still to compare:
    [while (str[i] != CharT{}) { if (i >= size_ || data_[i] != str[i])
       return false; ++i; } return true;]. *)
Fixpoint starts_with_loop (s : basic_fstring) (str : list Z) (i : nat) : bool :=
  match str with
  | [] => true
  | c :: rest =>
      if (c =? 0)%Z then true
      else if (size_ s <=? i) || negb (deref (data_ s) i =? c)%Z then false
      else starts_with_loop s rest (S i)
  end.

Definition starts_with (s : basic_fstring) (str : option (list Z)) : bool :=
  match str with
  | None => false
  | Some p => starts_with_loop s p 0
  end.

(** [ends_with(const_pointer str)]; its comparison loop
    [for (i = 0; i < str_len; ++i) if (data_[size_ - str_len + i] != str[i])
       return false;] is the loop [match_at] at offset [size_ - str_len]. *)
Definition ends_with (s : basic_fstring) (str : option (list Z)) : bool :=
  match str with
  | None => false
  | Some p =>
      let str_len := strlen p in
      if size_ s <? str_len then false
      else match_at (data_ s) (size_ s - str_len) p 0 str_len
  end.

End core.

(** ** [zuu::string<CharT, N>] (constant_string_class.hpp) *)
Module constant_string.

Record string := mk_string { data_ : list Z; len_ : nat }.

(** Modelled from the spec: [detail::memcpy_string(dst, src, n)] of
    constant_string_detail.hpp, which is not among the sources; it copies
    [n] units from [src] to [dst] (here [dst = d + off]). *)
Definition memcpy_string (d : list Z) (off : nat) (src : list Z) (n : nat) : list Z :=
  copy_n src n d off.

(** Modelled from the spec: [detail::memset_string(dst, ch, n)] of
    constant_string_detail.hpp; it stores [ch] into [n] units from [dst]. *)
Definition memset_string (d : list Z) (off : nat) (ch : Z) (n : nat) : list Z :=
  fill_n d off n ch.

(** Modelled from the spec: [detail::memmove_string(dst, src, n)] of
    constant_string_detail.hpp, used by the shift-the-tail steps of insert,
    erase and trim; source and destination lie in the same array and may
    overlap, so the [n] source units are read before any is written. *)
Definition memmove_string (d : list Z) (dst_off src_off n : nat) : list Z :=
  copy_n (take n (drop src_off d)) n d dst_off.

(** Modelled from the spec: [detail::strlen] (declared in
    constant_string_fwd.hpp, defined in the absent detail header): the
    number of units before the first terminator. *)
Definition strlen (str : list Z) : nat := core.strlen str.

Definition default_ctor (N : nat) : string :=
  {| data_ := replicate (S N) 0%Z; len_ := 0 |}.

Definition assign_impl (N : nat) (s : string) (str : list Z) (count : nat) : string :=
  let len := if count <? N then count else N in
  let d := memcpy_string (data_ s) 0 str len in
  {| data_ := <[len := 0%Z]> d; len_ := len |}.

(** [string(const CharT* str)]. *)
Definition from_cstr (N : nat) (str : option (list Z)) : string :=
  match str with
  | Some p => assign_impl N (default_ctor N) p (strlen p)
  | None => default_ctor N
  end.

(** [string(const CharT (&str)[M])]. *)
Definition from_literal (N : nat) (str : list Z) : string :=
  let M := length str in
  assign_impl N (default_ctor N) str (if 0 <? M then M - 1 else 0).

(** [string(size_type count, CharT ch)]. *)
Definition fill_ctor (N : nat) (count : nat) (ch : Z) : string :=
  let len := if count <? N then count else N in
  let d := memset_string (data_ (default_ctor N)) 0 ch len in
  {| data_ := <[len := 0%Z]> d; len_ := len |}.

(** [string(const string<CharT, M>& other)]. *)
Definition from_other (N : nat) (other : string) : string :=
  assign_impl N (default_ctor N) (data_ other) (len_ other).

Definition clear (s : string) : string :=
  {| data_ := <[0 := 0%Z]> (data_ s); len_ := 0 |}.

(** [operator=(const CharT* str)]. *)
Definition assign_cstr (N : nat) (s : string) (str : option (list Z)) : string :=
  match str with
  | Some p => assign_impl N s p (strlen p)
  | None => clear s
  end.

(** [operator=(const string<CharT, M>& other)]. *)
Definition assign_other (N : nat) (s other : string) : string :=
  assign_impl N s (data_ other) (len_ other).

Definition length (s : string) : nat := len_ s.

(** The contents [data()[0 .. length())]. *)
Definition contents (s : string) : list Z := take (len_ s) (data_ s).
Definition capacity (N : nat) (s : string) : nat := N.
Definition available (N : nat) (s : string) : nat := N - len_ s.

(** [bool push_back(CharT ch)]: the updated string and the returned flag. *)
Definition push_back (N : nat) (s : string) (ch : Z) : string * bool :=
  if N <=? len_ s then (s, false)
  else
    let d := <[len_ s := ch]> (data_ s) in
    ({| data_ := <[S (len_ s) := 0%Z]> d; len_ := S (len_ s) |}, true).

Definition pop_back (s : string) : string :=
  if 0 <? len_ s
  then {| data_ := <[len_ s - 1 := 0%Z]> (data_ s); len_ := len_ s - 1 |}
  else s.

(** [size_type append(const CharT* str, size_type count)]: the updated
    string and the returned count. *)
Definition append (N : nat) (s : string) (str : option (list Z)) (count : nat)
  : string * nat :=
  match str with
  | None => (s, 0)
  | Some src =>
      if (count =? 0) || (N <=? len_ s) then (s, 0)
      else
        let to_copy := std_min count (N - len_ s) in
        let d := memcpy_string (data_ s) (len_ s) src to_copy in
        let len := len_ s + to_copy in
        ({| data_ := <[len := 0%Z]> d; len_ := len |}, to_copy)
  end.

(** [size_type append(const string<CharT, M>& other)]. *)
Definition append_other (N : nat) (s other : string) : string * nat :=
  append N s (Some (data_ other)) (len_ other).

(** [size_type append(const CharT* str)]. *)
Definition append_cstr (N : nat) (s : string) (str : option (list Z)) : string * nat :=
  match str with
  | Some p => append N s (Some p) (strlen p)
  | None => (s, 0)
  end.

(** [size_type append(size_type count, CharT ch)]. *)
Definition append_fill (N : nat) (s : string) (count : nat) (ch : Z) : string * nat :=
  if (count =? 0) || (N <=? len_ s) then (s, 0)
  else
    let to_add := std_min count (N - len_ s) in
    let d := memset_string (data_ s) (len_ s) ch to_add in
    let len := len_ s + to_add in
    ({| data_ := <[len := 0%Z]> d; len_ := len |}, to_add).

(** The [const CharT* str] argument of [insert] and [replace]: a pointer to
    an array of its own, or a pointer [data_ + off] into the array of the
    string that is being modified. *)
Inductive pointer : Type :=
| ptr_array (units : list Z)
| ptr_self (off : nat).

(** The units found at [str] when the string's array holds [d]. *)
Definition pointee (d : list Z) (str : pointer) : list Z :=
  match str with
  | ptr_array units => units
  | ptr_self off => drop off d
  end.

(** [insert(pos, str, count)].  The tail is shifted first and [str] is read
    afterwards, by [memcpy_string]: a pointer into the string itself reads
    the array as the shift has left it.  [memcpy_string] reads its source
    before it writes; for a source that overlaps the gap it fills, the
    absent helper may copy in another order. *)
Definition insert (N : nat) (s : string) (pos : nat) (str : option pointer) (count : nat)
  : string :=
  match str with
  | None => s
  | Some src =>
      if (len_ s <? pos) || (count =? 0) || (N <=? len_ s) then s
      else
        let space := N - len_ s in
        let to_insert := std_min count space in
        let to_move := len_ s - pos in
        let d := if 0 <? to_move
                 then memmove_string (data_ s) (pos + to_insert) pos to_move
                 else data_ s in
        let d := memcpy_string d pos (pointee d src) to_insert in
        let len := std_min (len_ s + to_insert) N in
        {| data_ := <[len := 0%Z]> d; len_ := len |}
  end.

(** [erase(pos, count)]; [count = None] is the default [npos]. *)
Definition erase (s : string) (pos : nat) (count : option nat) : string :=
  if len_ s <=? pos then s
  else
    let to_erase := match count with
                    | Some c => std_min c (len_ s - pos)
                    | None => len_ s - pos
                    end in
    let new_len := len_ s - to_erase in
    let to_move := len_ s - (pos + to_erase) in
    let d := if 0 <? to_move
             then memmove_string (data_ s) pos (pos + to_erase) to_move
             else data_ s in
    {| data_ := <[new_len := 0%Z]> d; len_ := new_len |}.

(** [replace(pos, count, str, str_len)]: [erase] and then [insert], which
    reads [str] in the array as [erase] and its own shift have left it. *)
Definition replace (N : nat) (s : string) (pos : nat) (count : option nat)
  (str : option pointer) (str_len : nat) : string :=
  match str with
  | None => s
  | Some _ =>
      if len_ s <? pos then s
      else insert N (erase s pos count) pos str str_len
  end.

(** The loop of [reverse()], at index [i] with [n] iterations left. *)
Fixpoint reverse_loop (d : list Z) (len i n : nat) : list Z :=
  match n with
  | O => d
  | S n' =>
      let tmp := deref d i in
      let d := <[i := deref d (len - 1 - i)]> d in
      let d := <[len - 1 - i := tmp]> d in
      reverse_loop d len (S i) n'
  end.

Definition reverse (s : string) : string :=
  {| data_ := reverse_loop (data_ s) (len_ s) 0 (len_ s / 2); len_ := len_ s |}.

(** [while (start < len_ && is_space(data_[start])) ++start;] with [n]
    units left before [len_]. *)
Fixpoint trim_start (is_space : Z -> bool) (d : list Z) (start n : nat) : nat :=
  match n with
  | O => start
  | S n' => if is_space (deref d start)
            then trim_start is_space d (S start) n'
            else start
  end.

(** [while (end > start && is_space(data_[end - 1])) --end;] with [n]
    units left above [start]; [end = start + n]. *)
Fixpoint trim_end (is_space : Z -> bool) (d : list Z) (start n : nat) : nat :=
  match n with
  | O => start
  | S n' => if is_space (deref d (start + n'))
            then trim_end is_space d start n'
            else start + n
  end.

(** [trim()]; the predicate [detail::is_space] belongs to the absent detail
    header and is a parameter. *)
Definition trim (is_space : Z -> bool) (s : string) : string :=
  let start := trim_start is_space (data_ s) 0 (len_ s) in
  let end_ := trim_end is_space (data_ s) start (len_ s - start) in
  if (0 <? start) || (end_ <? len_ s) then
    let len := end_ - start in
    let d := if 0 <? start then memmove_string (data_ s) 0 start len else data_ s in
    {| data_ := <[len := 0%Z]> d; len_ := len |}
  else s.

(** [substr(pos, count)]: the result has the capacity [N] of the source. *)
Definition substr (N : nat) (s : string) (pos : nat) (count : option nat) : string :=
  let result := default_ctor N in
  if len_ s <=? pos then result
  else
    let actual_count := match count with
                        | Some c => std_min c (len_ s - pos)
                        | None => len_ s - pos
                        end in
    assign_impl N result (drop pos (data_ s)) actual_count.

(** [concat(a, b)] and [operator+], result capacity [N1 + N2]. *)
Definition concat (N1 N2 : nat) (a b : string) : string :=
  let result := default_ctor (N1 + N2) in
  let result := fst (append_other (N1 + N2) result a) in
  fst (append_other (N1 + N2) result b).

End constant_string.

(** ** Algorithms of [zuu::str] (case.hpp, trim.hpp, find.hpp, split.hpp) *)
Module str.
Import core.

(** The units [str[0], ..., str[size() - 1]] in the order in which the
    loops [for (i = 0; i < str.size(); ++i)] read them. *)
Definition units (s : basic_fstring) : list Z :=
  map (index s) (seq 0 (size_ s)).

(** *** case.hpp *)

Definition char_to_lower (ch : Z) : Z :=
  if (65 <=? ch)%Z && (ch <=? 90)%Z then (ch + (97 - 65))%Z else ch.

Definition char_to_upper (ch : Z) : Z :=
  if (97 <=? ch)%Z && (ch <=? 122)%Z then (ch - (97 - 65))%Z else ch.

Definition is_alpha (ch : Z) : bool :=
  ((97 <=? ch)%Z && (ch <=? 122)%Z) || ((65 <=? ch)%Z && (ch <=? 90)%Z).

(** [is_whitespace] of case.hpp: space, tab, LF, CR. *)
Definition is_whitespace (ch : Z) : bool :=
  (ch =? 32)%Z || (ch =? 9)%Z || (ch =? 10)%Z || (ch =? 13)%Z.

(** One iteration of the loop of [to_title_fn::apply]. *)
Definition to_title_step (Cap : nat) (st : basic_fstring * bool) (ch : Z)
  : basic_fstring * bool :=
  let '(result, capitalize_next) := st in
  if is_whitespace ch then (push_back Cap result ch, true)
  else if is_alpha ch then
    (push_back Cap result
       (if capitalize_next then char_to_upper ch else char_to_lower ch), false)
  else (push_back Cap result ch, false).

Definition to_title (Cap : nat) (str : basic_fstring) : basic_fstring :=
  fst (fold_left (to_title_step Cap) (units str) (default_ctor Cap, true)).

(** *** trim.hpp *)

(** [is_space] of trim.hpp: space, tab, LF, CR, form feed, vertical tab. *)
Definition is_space (ch : Z) : bool :=
  (ch =? 32)%Z || (ch =? 9)%Z || (ch =? 10)%Z || (ch =? 13)%Z
  || (ch =? 12)%Z || (ch =? 11)%Z.

(** [find_first_non_space(sv)], scanning from index [i] with [n] units left. *)
Fixpoint first_non_space_from (sv : list Z) (i n : nat) : nat :=
  match n with
  | O => i
  | S n' => if negb (is_space (deref sv i)) then i
            else first_non_space_from sv (S i) n'
  end.

Definition find_first_non_space (sv : list Z) : nat :=
  first_non_space_from sv 0 (length sv).

(** [find_last_non_space(sv)]: [for (i = sv.size(); i > 0; --i)]. *)
Fixpoint last_non_space_from (sv : list Z) (i : nat) : nat :=
  match i with
  | O => 0
  | S i' => if negb (is_space (deref sv i')) then i
            else last_non_space_from sv i'
  end.

Definition find_last_non_space (sv : list Z) : nat :=
  last_non_space_from sv (length sv).

(** [std::basic_string_view{str.data(), str.size()}]. *)
Definition view (s : basic_fstring) : list Z := take (size_ s) (data_ s).

(** [sv.substr(pos, n)] for [pos <= sv.size()]. *)
Definition sv_substr (sv : list Z) (pos : nat) (n : option nat) : list Z :=
  match n with
  | Some n => take n (drop pos sv)
  | None => drop pos sv
  end.

(** The fixed-capacity overloads of [trim_left], [trim_right] and [trim]. *)
Definition trim_left (Cap : nat) (str : basic_fstring) : basic_fstring :=
  let sv := view str in
  let start := find_first_non_space sv in
  let result := default_ctor Cap in
  if start <? length sv then
    let trimmed := sv_substr sv start None in
    append Cap result (Some trimmed) (length trimmed)
  else result.

Definition trim_right (Cap : nat) (str : basic_fstring) : basic_fstring :=
  let sv := view str in
  let end_ := find_last_non_space sv in
  let result := default_ctor Cap in
  if 0 <? end_ then
    let trimmed := sv_substr sv 0 (Some end_) in
    append Cap result (Some trimmed) (length trimmed)
  else result.

Definition trim (Cap : nat) (str : basic_fstring) : basic_fstring :=
  let sv := view str in
  let start := find_first_non_space sv in
  let end_ := find_last_non_space sv in
  let result := default_ctor Cap in
  if start <? end_ then
    let trimmed := sv_substr sv start (Some (end_ - start)) in
    append Cap result (Some trimmed) (length trimmed)
  else result.

(** *** find.hpp: [count_fn] *)

(** [count(str, ch)]. *)
Definition count_char (str : basic_fstring) (ch : Z) : nat :=
  fold_left (fun cnt c => if (c =? ch)%Z then S cnt else cnt) (units str) 0.

(** The loop of [count(str, substr)]:
    [while (pos < str.size()) { found = str.find(substr, pos);
       if (found == npos) break; ++cnt; pos = found + substr_len; }].
    Every iteration moves [pos] forward, so [str.size()] iterations are
    enough; that bound is the fuel. *)
Fixpoint count_loop (fuel : nat) (str : basic_fstring) (substr : list Z)
  (substr_len cnt pos : nat) : nat :=
  match fuel with
  | O => cnt
  | S fuel' =>
      if pos <? size str then
        match find str (Some substr) pos with
        | None => cnt
        | Some found =>
            count_loop fuel' str substr substr_len (S cnt) (found + substr_len)
        end
      else cnt
  end.

(** [count(str, const CharT* substr)]. *)
Definition count (str : basic_fstring) (substr : option (list Z)) : nat :=
  match substr with
  | None => 0
  | Some p =>
      let substr_len := strlen p in
      if substr_len =? 0 then 0
      else count_loop (size str) str p substr_len 0 0
  end.

(** *** split.hpp *)

(** [split_result<CharT, Cap, MaxParts>]: the array [parts[MaxParts]] and
    the member [count], here [count_] ([count] names the algorithm of
    find.hpp). *)
Record split_result := mk_split_result { parts : list basic_fstring; count_ : nat }.

(** [split_result<CharT, Cap, MaxParts> result;] *)
Definition split_result_default (Cap MaxParts : nat) : split_result :=
  {| parts := replicate MaxParts (default_ctor Cap); count_ := 0 |}.

(** [result.parts[result.count++] = part]. *)
Definition push_part (result : split_result) (part : basic_fstring) : split_result :=
  {| parts := <[count_ result := part]> (parts result); count_ := S (count_ result) |}.

(** [result.parts[idx]]. *)
Definition part_at (Cap : nat) (ps : list basic_fstring) (idx : nat) : basic_fstring :=
  default (default_ctor Cap) (ps !! idx).

(** One iteration of the loop of [split_char_fn::operator()]. *)
Definition split_step (Cap MaxParts : nat) (delimiter : Z)
  (st : split_result * basic_fstring) (ch : Z) : split_result * basic_fstring :=
  let '(result, current) := st in
  if (ch =? delimiter)%Z then
    if negb (empty current) && (count_ result <? MaxParts)
    then (push_part result current, clear current)
    else (result, current)
  else
    if negb (full Cap current)
    then (result, push_back Cap current ch)
    else (result, current).

(** After the loop: [if (!current.empty() && result.count < MaxParts)
    result.parts[result.count++] = current;] *)
Definition split_finish (MaxParts : nat) (st : split_result * basic_fstring)
  : split_result :=
  let '(result, current) := st in
  if negb (empty current) && (count_ result <? MaxParts)
  then push_part result current
  else result.

(** [split(str, delimiter)]. *)
Definition split (Cap MaxParts : nat) (str : basic_fstring) (delimiter : Z)
  : split_result :=
  split_finish MaxParts
    (fold_left (split_step Cap MaxParts delimiter) (units str)
               (split_result_default Cap MaxParts, default_ctor Cap)).

(** [for (j = current.size(); j > 0; --j) reversed.push_back(current[j - 1]);] *)
Fixpoint reversed_loop (Cap : nat) (current reversed : basic_fstring) (j : nat)
  : basic_fstring :=
  match j with
  | O => reversed
  | S j' => reversed_loop Cap current (push_back Cap reversed (index current j')) j'
  end.

Definition reversed_of (Cap : nat) (current : basic_fstring) : basic_fstring :=
  reversed_loop Cap current (default_ctor Cap) (size current).

(** The first loop of [rsplit_fn::operator()]:
    [for (i = str.size(); i > 0 && result.count < MaxParts; --i)]. *)
Fixpoint rsplit_loop (Cap MaxParts : nat) (str : basic_fstring) (delimiter : Z)
  (i : nat) (result : split_result) (current : basic_fstring)
  : split_result * basic_fstring :=
  match i with
  | O => (result, current)
  | S i' =>
      if count_ result <? MaxParts then
        let ch := index str i' in
        if (ch =? delimiter)%Z then
          if negb (empty current)
          then rsplit_loop Cap MaxParts str delimiter i'
                 (push_part result (reversed_of Cap current)) (clear current)
          else rsplit_loop Cap MaxParts str delimiter i' result current
        else rsplit_loop Cap MaxParts str delimiter i' result
               (push_back Cap current ch)
      else (result, current)
  end.

(** The last loop of [rsplit]: swap [parts[i]] and [parts[count - 1 - i]],
    at index [i] with [n] iterations left. *)
Fixpoint swap_loop (Cap : nat) (ps : list basic_fstring) (cnt i n : nat)
  : list basic_fstring :=
  match n with
  | O => ps
  | S n' =>
      let temp := part_at Cap ps i in
      let ps := <[i := part_at Cap ps (cnt - 1 - i)]> ps in
      let ps := <[cnt - 1 - i := temp]> ps in
      swap_loop Cap ps cnt (S i) n'
  end.

(** After the first loop: the last part, reversed back. *)
Definition rsplit_finish (Cap MaxParts : nat) (st : split_result * basic_fstring)
  : split_result :=
  let '(result, current) := st in
  if negb (empty current) && (count_ result <? MaxParts)
  then push_part result (reversed_of Cap current)
  else result.

(** [rsplit(str, delimiter)]. *)
Definition rsplit (Cap MaxParts : nat) (str : basic_fstring) (delimiter : Z)
  : split_result :=
  let result :=
    rsplit_finish Cap MaxParts
      (rsplit_loop Cap MaxParts str delimiter (size str)
                   (split_result_default Cap MaxParts) (default_ctor Cap)) in
  {| parts := swap_loop Cap (parts result) (count_ result) 0 (count_ result / 2);
     count_ := count_ result |}.

(** [if (!current.empty() && result.count < MaxParts)
      { result.parts[result.count++] = current; current.clear(); }],
    the step shared by the loops of [split_lines] and [split_whitespace]. *)
Definition flush (MaxParts : nat) (result : split_result) (current : basic_fstring)
  : split_result * basic_fstring :=
  if negb (empty current) && (count_ result <? MaxParts)
  then (push_part result current, clear current)
  else (result, current).

(** One iteration of the loop of [split_whitespace_fn::apply]; its local
    [is_space] lambda lists the same six units as [is_space] of trim.hpp. *)
Definition split_whitespace_step (Cap MaxParts : nat)
  (st : split_result * basic_fstring) (ch : Z) : split_result * basic_fstring :=
  let '(result, current) := st in
  if is_space ch then flush MaxParts result current
  else
    if negb (full Cap current)
    then (result, push_back Cap current ch)
    else (result, current).

(** [split_whitespace(str)]. *)
Definition split_whitespace (Cap MaxParts : nat) (str : basic_fstring) : split_result :=
  split_finish MaxParts
    (fold_left (split_whitespace_step Cap MaxParts) (units str)
               (split_result_default Cap MaxParts, default_ctor Cap)).

(** The loop of [split_lines_fn::apply], at index [i]; the body may skip
    the line feed of a CR LF pair with [++i].  The index grows in every
    iteration, so [str.size()] iterations are enough; that bound is the
    fuel. *)
Fixpoint split_lines_loop (fuel : nat) (Cap MaxParts : nat) (str : basic_fstring)
  (i : nat) (result : split_result) (current : basic_fstring)
  : split_result * basic_fstring :=
  match fuel with
  | O => (result, current)
  | S fuel' =>
      if i <? size str then
        let ch := index str i in
        if (ch =? 10)%Z then
          let '(result, current) := flush MaxParts result current in
          split_lines_loop fuel' Cap MaxParts str (S i) result current
        else if (ch =? 13)%Z then
          let i := if (S i <? size str) && (index str (S i) =? 10)%Z
                   then S i else i in
          let '(result, current) := flush MaxParts result current in
          split_lines_loop fuel' Cap MaxParts str (S i) result current
        else
          let current := if negb (full Cap current)
                         then push_back Cap current ch else current in
          split_lines_loop fuel' Cap MaxParts str (S i) result current
      else (result, current)
  end.

(** [split_lines(str)]. *)
Definition split_lines (Cap MaxParts : nat) (str : basic_fstring) : split_result :=
  split_finish MaxParts
    (split_lines_loop (size str) Cap MaxParts str 0
       (split_result_default Cap MaxParts) (default_ctor Cap)).

(** [for (i = pos; i < limit && !part.full(); ++i) part.push_back(str[i]);]
    with [n = limit - i] units left. *)
Fixpoint collect (Cap : nat) (str part : basic_fstring) (i n : nat) : basic_fstring :=
  match n with
  | O => part
  | S n' => if negb (full Cap part)
            then collect Cap str (push_back Cap part (index str i)) (S i) n'
            else part
  end.

(** [if (!part.empty()) result.parts[result.count++] = part;] *)
Definition push_nonempty (result : split_result) (part : basic_fstring) : split_result :=
  if negb (empty part) then push_part result part else result.

(** The loop of [split_str_fn::operator()]:
    [while (pos < str.size() && result.count < MaxParts)].  With a
    non-empty delimiter [pos] grows in every iteration, so [str.size()]
    iterations are enough; that bound is the fuel. *)
Fixpoint split_by_loop (fuel : nat) (Cap MaxParts : nat) (str delimiter : basic_fstring)
  (pos : nat) (result : split_result) : split_result :=
  match fuel with
  | O => result
  | S fuel' =>
      if (pos <? size str) && (count_ result <? MaxParts) then
        match find str (Some (data_ delimiter)) pos with
        | None =>
            push_nonempty result
              (collect Cap str (default_ctor Cap) pos (size str - pos))
        | Some found =>
            let result :=
              push_nonempty result
                (collect Cap str (default_ctor Cap) pos (found - pos)) in
            split_by_loop fuel' Cap MaxParts str delimiter
              (found + size delimiter) result
        end
      else result
  end.

(** [split_by(str, delimiter)]. *)
Definition split_by (Cap MaxParts : nat) (str delimiter : basic_fstring) : split_result :=
  let result := split_result_default Cap MaxParts in
  if empty delimiter then
    if count_ result <? MaxParts then push_part result str else result
  else split_by_loop (size str) Cap MaxParts str delimiter 0 result.

(** *** case.hpp: the other conversions *)

(** [to_lower(str)], [to_upper(str)]: [result.push_back(char_to_...(str[i]))]. *)
Definition to_lower (Cap : nat) (str : basic_fstring) : basic_fstring :=
  fold_left (fun result ch => push_back Cap result (char_to_lower ch))
            (units str) (default_ctor Cap).

Definition to_upper (Cap : nat) (str : basic_fstring) : basic_fstring :=
  fold_left (fun result ch => push_back Cap result (char_to_upper ch))
            (units str) (default_ctor Cap).

(** [toggle_case(str)]. *)
Definition toggle_char (ch : Z) : Z :=
  if (97 <=? ch)%Z && (ch <=? 122)%Z then char_to_upper ch
  else if (65 <=? ch)%Z && (ch <=? 90)%Z then char_to_lower ch
  else ch.

Definition toggle_case (Cap : nat) (str : basic_fstring) : basic_fstring :=
  fold_left (fun result ch => push_back Cap result (toggle_char ch))
            (units str) (default_ctor Cap).

(** The loop of [equals_ignore_case], at index [i] with [n] units left. *)
Fixpoint equals_ignore_case_loop (lhs rhs : basic_fstring) (i n : nat) : bool :=
  match n with
  | O => true
  | S n' =>
      if negb (char_to_lower (index lhs i) =? char_to_lower (index rhs i))%Z
      then false
      else equals_ignore_case_loop lhs rhs (S i) n'
  end.

Definition equals_ignore_case (lhs rhs : basic_fstring) : bool :=
  if negb (size lhs =? size rhs) then false
  else equals_ignore_case_loop lhs rhs 0 (size lhs).

(** *** find.hpp: character sets *)

(** The inner loop [for (j = 0; j < charset.size(); ++j)
    if (ch == charset[j]) ...], at index [j] with [n] units left. *)
Fixpoint charset_has (charset : basic_fstring) (ch : Z) (j n : nat) : bool :=
  match n with
  | O => false
  | S n' => if (ch =? index charset j)%Z then true
            else charset_has charset ch (S j) n'
  end.

(** [find_first_of(str, charset)], at index [i] with [n] units left. *)
Fixpoint find_first_of_scan (str charset : basic_fstring) (i n : nat) : option nat :=
  match n with
  | O => None
  | S n' => if charset_has charset (index str i) 0 (size charset) then Some i
            else find_first_of_scan str charset (S i) n'
  end.

Definition find_first_of (str charset : basic_fstring) : option nat :=
  find_first_of_scan str charset 0 (size str).

(** [find_last_of(str, charset)]: [for (i = str.size(); i > 0; --i)]. *)
Fixpoint find_last_of_scan (str charset : basic_fstring) (i : nat) : option nat :=
  match i with
  | O => None
  | S i' => if charset_has charset (index str i') 0 (size charset) then Some i'
            else find_last_of_scan str charset i'
  end.

Definition find_last_of (str charset : basic_fstring) : option nat :=
  find_last_of_scan str charset (size str).

(** [find_first_not_of(str, charset)]. *)
Fixpoint find_first_not_of_scan (str charset : basic_fstring) (i n : nat)
  : option nat :=
  match n with
  | O => None
  | S n' => if negb (charset_has charset (index str i) 0 (size charset))
            then Some i
            else find_first_not_of_scan str charset (S i) n'
  end.

Definition find_first_not_of (str charset : basic_fstring) : option nat :=
  find_first_not_of_scan str charset 0 (size str).

(** [contains_any(str, charset)]: [find_first_of(...) != npos]. *)
Definition contains_any (str charset : basic_fstring) : bool :=
  match find_first_of str charset with Some _ => true | None => false end.

(** *** split.hpp: join and partition *)

(** The loop of [join(result, delimiter)] for a [split_result] and a
    character delimiter, at index [i] with [n] parts left; [RCap] is the
    capacity [Cap * MaxParts + MaxParts] of [joined]. *)
Fixpoint join_loop (RCap Cap : nat) (ps : list basic_fstring) (delimiter : Z)
  (joined : basic_fstring) (i n : nat) : basic_fstring :=
  match n with
  | O => joined
  | S n' =>
      let joined := if (0 <? i) && negb (full RCap joined)
                    then push_back RCap joined delimiter else joined in
      let joined := if negb (full RCap joined)
                    then append RCap joined (Some (data_ (part_at Cap ps i)))
                           (size (part_at Cap ps i))
                    else joined in
      join_loop RCap Cap ps delimiter joined (S i) n'
  end.

Definition join (Cap MaxParts : nat) (result : split_result) (delimiter : Z)
  : basic_fstring :=
  let RCap := Cap * MaxParts + MaxParts in
  join_loop RCap Cap (parts result) delimiter (default_ctor RCap) 0 (count_ result).

(** The result of [partition(str, delimiter)]. *)
Record partition_result := mk_partition_result {
  first : basic_fstring; second : basic_fstring; found : bool }.

Definition partition (Cap : nat) (str : basic_fstring) (delimiter : Z)
  : partition_result :=
  match find_char str delimiter 0 with
  | Some pos =>
      {| found := true;
         first := substr Cap str 0 (Some pos);
         second := if pos + 1 <? size str
                   then substr Cap str (pos + 1) None
                   else default_ctor Cap |}
  | None =>
      {| found := false; first := str; second := default_ctor Cap |}
  end.

(** The parts a caller iterates over: [[begin(), end())], i.e. the first
    [count] entries, each seen through its contents. *)
Definition tokens_of (r : split_result) : list (list Z) :=
  map to_string (take (count_ r) (parts r)).

End str.

(** ** Integer formatting and parsing of [zuu::fmt] (fmt/core.hpp) *)
Module fmt.
Import core.

(** An integral type [T]: its width and signedness.  Values of type [T]
    are integers of [Z] in the range of [T]; a conversion to [T] reduces
    modulo [2 ^ bits] ([wrap]), and what an arithmetic operation gives is
    described by [arith]. *)
Record int_type := mk_int_type { bits : Z; is_signed : bool }.

Definition int8_t := mk_int_type 8 true.
Definition int16_t := mk_int_type 16 true.
Definition int32_t := mk_int_type 32 true.
Definition int64_t := mk_int_type 64 true.
Definition uint8_t := mk_int_type 8 false.
Definition uint16_t := mk_int_type 16 false.
Definition uint32_t := mk_int_type 32 false.
Definition uint64_t := mk_int_type 64 false.

Definition standard (T : int_type) : Prop :=
  bits T = 8%Z \/ bits T = 16%Z \/ bits T = 32%Z \/ bits T = 64%Z.

Definition min_value (T : int_type) : Z :=
  if is_signed T then (- 2 ^ (bits T - 1))%Z else 0%Z.

Definition max_value (T : int_type) : Z :=
  if is_signed T then (2 ^ (bits T - 1) - 1)%Z else (2 ^ bits T - 1)%Z.

Definition in_range (T : int_type) (n : Z) : Prop :=
  (min_value T <= n <= max_value T)%Z.

(** [static_cast<std::make_unsigned_t<T>>(x)]. *)
Definition to_unsigned (T : int_type) (x : Z) : Z := (x mod 2 ^ bits T)%Z.

(** Conversion of a value to [T], modulo [2 ^ bits]. *)
Definition wrap (T : int_type) (x : Z) : Z :=
  if is_signed T
  then ((x + 2 ^ (bits T - 1)) mod 2 ^ bits T - 2 ^ (bits T - 1))%Z
  else (x mod 2 ^ bits T)%Z.

(** [std::numeric_limits<T>::digits] and [digits10]; the latter is
    [floor (digits * log10 2)], computed with the usual rational
    approximation [643 / 2136] of [log10 2]. *)
Definition digits (T : int_type) : Z :=
  if is_signed T then (bits T - 1)%Z else bits T.

Definition digits10 (T : int_type) : Z := (digits T * 643 / 2136)%Z.

Definition max_digits (T : int_type) : nat := Z.to_nat (digits10 T + 3).

(** [while (uvalue > 0) { buffer[pos++] = CharT('0') + (uvalue % 10);
    uvalue /= 10; }].  The scratch array has [max_digits] slots, so the
    loop runs at most [max_digits] times; that bound is the fuel. *)
Fixpoint emit_digits (fuel : nat) (uvalue : Z) (buffer : list Z) (pos : nat)
  : list Z * nat :=
  match fuel with
  | O => (buffer, pos)
  | S fuel' =>
      if (0 <? uvalue)%Z
      then emit_digits fuel' (uvalue / 10)%Z
             (<[pos := (48 + uvalue mod 10)%Z]> buffer) (S pos)
      else (buffer, pos)
  end.

(** [while (pos > 0) result.push_back(buffer[--pos]);] *)
Fixpoint copy_out (Cap : nat) (result : basic_fstring) (buffer : list Z) (pos : nat)
  : basic_fstring :=
  match pos with
  | O => result
  | S pos' => copy_out Cap (push_back Cap result (deref buffer pos')) buffer pos'
  end.

(** [formatter<T>::format(value)] for an integral [T]; the result is a
    [basic_fstring<CharT, max_digits>]. *)
Definition format (T : int_type) (value : Z) : basic_fstring :=
  let Cap := max_digits T in
  let result := default_ctor Cap in
  if (value =? 0)%Z then push_back Cap result 48
  else
    let negative := is_signed T && (value <? 0)%Z in
    let uvalue :=
      if negative
      then to_unsigned T (to_unsigned T (- (value + 1)) + 1)
      else to_unsigned T value in
    let '(buffer, pos) := emit_digits Cap uvalue (replicate Cap 0%Z) 0 in
    let result := if negative then push_back Cap result 45 else result in
    copy_out Cap result buffer pos.

(** [to_fstring(value)]. *)
Definition to_fstring (T : int_type) (value : Z) : basic_fstring := format T value.

(** The [do { ... } while (uvalue > 0)] loop of the hexadecimal
    formatter; the scratch array bounds the iterations, which is the fuel. *)
Fixpoint emit_hex (fuel : nat) (uppercase : bool) (uvalue : Z) (buffer : list Z)
  (pos : nat) : list Z * nat :=
  match fuel with
  | O => (buffer, pos)
  | S fuel' =>
      let digit := (uvalue mod 16)%Z in
      let ch := if (digit <? 10)%Z then (48 + digit)%Z
                else ((if uppercase then 65 else 97) + (digit - 10))%Z in
      let buffer := <[pos := ch]> buffer in
      let uvalue := (uvalue / 16)%Z in
      if (0 <? uvalue)%Z then emit_hex fuel' uppercase uvalue buffer (S pos)
      else (buffer, S pos)
  end.

(** [formatter<hex_proxy<T>>::format(proxy)]; [sizeof(T)] is [bits / 8]. *)
Definition format_hex (T : int_type) (value : Z) (uppercase : bool) : basic_fstring :=
  let max_size := Z.to_nat (bits T / 8 * 2 + 3) in
  let result := append max_size (default_ctor max_size) (Some [48; 120]%Z) 2 in
  let uvalue := to_unsigned T value in
  let '(buffer, pos) := emit_hex max_size uppercase uvalue (replicate max_size 0%Z) 0 in
  copy_out max_size result buffer pos.

(** The [do { ... } while (uvalue > 0)] loop of the binary formatter. *)
Fixpoint emit_bin (fuel : nat) (uvalue : Z) (buffer : list Z) (pos : nat)
  : list Z * nat :=
  match fuel with
  | O => (buffer, pos)
  | S fuel' =>
      let buffer := <[pos := (48 + uvalue mod 2)%Z]> buffer in
      let uvalue := (uvalue / 2)%Z in
      if (0 <? uvalue)%Z then emit_bin fuel' uvalue buffer (S pos)
      else (buffer, S pos)
  end.

(** [formatter<bin_proxy<T>>::format(proxy)]. *)
Definition format_bin (T : int_type) (value : Z) : basic_fstring :=
  let max_size := Z.to_nat (bits T / 8 * 8 + 3) in
  let result := append max_size (default_ctor max_size) (Some [48; 98]%Z) 2 in
  let uvalue := to_unsigned T value in
  let '(buffer, pos) := emit_bin max_size uvalue (replicate max_size 0%Z) 0 in
  copy_out max_size result buffer pos.

(** [formatter<pad_left_proxy<T>>::format(proxy)]: the result has
    capacity 64. *)
Definition format_pad_left (T : int_type) (value : Z) (width : nat) (fill : Z)
  : basic_fstring :=
  let base_str := format T value in
  let result := default_ctor 64 in
  let result := if size base_str <? width
                then append_fill 64 result (width - size base_str) fill
                else result in
  append 64 result (Some (data_ base_str)) (size base_str).

(** The digit value of [ch], or [-1]. *)
Definition digit_of (ch : Z) : Z :=
  if (48 <=? ch)%Z && (ch <=? 57)%Z then (ch - 48)%Z
  else if (97 <=? ch)%Z && (ch <=? 122)%Z then (10 + (ch - 97))%Z
  else if (65 <=? ch)%Z && (ch <=? 90)%Z then (10 + (ch - 65))%Z
  else (-1)%Z.

(** The type in which [result * base + digit] and [-result] are evaluated,
    after the integral promotions and the usual arithmetic conversions and
    with [int] of 32 bits: a type narrower than [int] computes in [int];
    [int32_t], [int64_t] and the unsigned types of 32 and 64 bits compute in
    themselves. *)
Definition arith_signed (T : int_type) : bool :=
  is_signed T || (bits T <? 32)%Z.

Definition arith_bits (T : int_type) : Z := Z.max (bits T) 32.

(** The value [x] of an arithmetic operation as that type holds it.  Signed
    arithmetic that leaves the range is undefined behaviour: [None].
    Unsigned arithmetic is modular. *)
Definition arith (T : int_type) (x : Z) : option Z :=
  if arith_signed T then
    if (- 2 ^ (arith_bits T - 1) <=? x)%Z && (x <=? 2 ^ (arith_bits T - 1) - 1)%Z
    then Some x else None
  else Some (x mod 2 ^ arith_bits T)%Z.

(** The loop of [parse_int] over the units still to be read:
    [result = result * base + digit], the product and the sum evaluated in
    the arithmetic type and the sum converted back to [IntT]. *)
Fixpoint parse_loop (T : int_type) (base : Z) (rest : list Z) (result : Z)
  : option Z :=
  match rest with
  | [] => Some result
  | ch :: rest' =>
      let digit := digit_of ch in
      if (digit <? 0)%Z || (base <=? digit)%Z then Some result
      else
        match arith T (result * base) with
        | None => None
        | Some product =>
            match arith T (product + digit) with
            | None => None
            | Some sum => parse_loop T base rest' (wrap T sum)
            end
        end
  end.

(** [parse_int<IntT>(str, base)]; [None] when the evaluation runs into
    signed overflow. *)
Definition parse_int (T : int_type) (str : basic_fstring) (base : Z) : option Z :=
  if empty str then Some 0%Z
  else
    let '(negative, i) :=
      if is_signed T then
        if (index str 0 =? 45)%Z then (true, 1)
        else if (index str 0 =? 43)%Z then (false, 1)
        else (false, 0)
      else (false, 0) in
    match parse_loop T base (map (index str) (seq i (size str - i))) 0%Z with
    | None => None
    | Some result =>
        if negative
        then match arith T (- result) with
             | None => None
             | Some negated => Some (wrap T negated)
             end
        else Some result
    end.

End fmt.

(** ** Memory helpers of [zuu::detail] (fstring_utils.hpp) *)
Module detail.

(** The loop [for (i = 0; i < count; ++i) dst[i] = src[i];] on one array
    [d], with [dst] and [src] the offsets of the two pointers, at index
    [i] with [n] units left. *)
Fixpoint forward_loop (d : list Z) (dst src i n : nat) : list Z :=
  match n with
  | O => d
  | S n' => forward_loop (<[dst + i := deref d (src + i)]> d) dst src (S i) n'
  end.

(** The loop [for (i = count; i > 0; --i) dst[i - 1] = src[i - 1];]. *)
Fixpoint backward_loop (d : list Z) (dst src i : nat) : list Z :=
  match i with
  | O => d
  | S i' => backward_loop (<[dst + i' := deref d (src + i')]> d) dst src i'
  end.

(** [copy{}(dst, src, count)] for two non-null pointers into [d]. *)
Definition copy (d : list Z) (dst src count : nat) : list Z :=
  if count =? 0 then d else forward_loop d dst src 0 count.

(** [move{}(dst, src, count)] for two non-null pointers into [d]. *)
Definition move (d : list Z) (dst src count : nat) : list Z :=
  if count =? 0 then d
  else if dst <? src then forward_loop d dst src 0 count
  else if src <? dst then backward_loop d dst src count
  else d.

End detail.

(** ** Reference definitions, written after the specification *)
Module spec.

(** The fields of [l] between occurrences of the delimiter [d], empty
    fields included. *)
Fixpoint fields (d : Z) (l : list Z) : list (list Z) :=
  match l with
  | [] => [[]]
  | c :: rest =>
      if (c =? d)%Z then [] :: fields d rest
      else match fields d rest with
           | f :: fs => (c :: f) :: fs
           | [] => [[c]]
           end
  end.

Definition nonempty (f : list Z) : bool :=
  match f with [] => false | _ => true end.

(** The tokens of a split: the non-empty maximal delimiter-free runs. *)
Definition tokens (d : Z) (l : list Z) : list (list Z) :=
  filter (fun f => nonempty f = true) (fields d l).

(** Is [needle] a prefix of [l]? *)
Fixpoint is_prefix (needle l : list Z) : bool :=
  match needle, l with
  | [], _ => true
  | a :: needle', b :: l' => (a =? b)%Z && is_prefix needle' l'
  | _ :: _, [] => false
  end.

(** The number of non-overlapping occurrences of [needle] in [l], scanning
    from the left: a match is counted and skipped whole.  [skip] is the
    number of leading units that belong to the previous match. *)
Fixpoint occurrences_from (needle : list Z) (skip : nat) (l : list Z) : nat :=
  match l with
  | [] => 0
  | _ :: rest =>
      match skip with
      | S k => occurrences_from needle k rest
      | O => if is_prefix needle l
             then S (occurrences_from needle (length needle - 1) rest)
             else occurrences_from needle 0 rest
      end
  end.

Definition occurrences (needle l : list Z) : nat := occurrences_from needle 0 l.

(** The whitespace of the specification: space, tab, LF, CR, form feed,
    vertical tab. *)
Definition is_whitespace6 (ch : Z) : bool :=
  (ch =? 32)%Z || (ch =? 9)%Z || (ch =? 10)%Z || (ch =? 13)%Z
  || (ch =? 12)%Z || (ch =? 11)%Z.

(** Does a word start after the unit [prev] (at the string start when
    there is none)? *)
Definition starts_word (ws : Z -> bool) (prev : option Z) : bool :=
  match prev with None => true | Some p => ws p end.

(** Title case with respect to a whitespace predicate [ws]: [prev] is the
    unit before [l], if any. *)
Fixpoint title_from (ws : Z -> bool) (prev : option Z) (l : list Z) : list Z :=
  match l with
  | [] => []
  | ch :: rest =>
      (if str.is_alpha ch
       then if starts_word ws prev
            then str.char_to_upper ch else str.char_to_lower ch
       else ch) :: title_from ws (Some ch) rest
  end.

(** Fields joined back with the delimiter between them. *)
Fixpoint join (d : Z) (fs : list (list Z)) : list Z :=
  match fs with
  | [] => []
  | f :: fs' => match fs' with
                | [] => f
                | _ :: _ => f ++ d :: join d fs'
                end
  end.

Definition title (ws : Z -> bool) (l : list Z) : list Z := title_from ws None l.

(** The decimal digits of [u] as characters, least significant first;
    [fuel] bounds their number. *)
Fixpoint digits_lsb (fuel : nat) (u : Z) : list Z :=
  match fuel with
  | O => []
  | S fuel' =>
      if (0 <? u)%Z then (48 + u mod 10)%Z :: digits_lsb fuel' (u / 10)%Z else []
  end.

(** [l] without its leading units that satisfy [p]. *)
Fixpoint drop_while (p : Z -> bool) (l : list Z) : list Z :=
  match l with
  | [] => []
  | x :: rest => if p x then drop_while p rest else l
  end.

(** The number of leading units of [l] that satisfy [p]. *)
Fixpoint leading (p : Z -> bool) (l : list Z) : nat :=
  match l with
  | [] => 0
  | x :: rest => if p x then S (leading p rest) else 0
  end.

(** [l] without its leading and its trailing units that satisfy [p]. *)
Definition strip (p : Z -> bool) (l : list Z) : list Z :=
  reverse (drop_while p (reverse (drop_while p l))).

(** The characters '0' to '9'. *)
Definition is_digit_char (ch : Z) : Prop := (48 <= ch <= 57)%Z.

(** The sign of the decimal text of [v] in the integer type [T]. *)
Definition sign_of (T : fmt.int_type) (v : Z) : list Z :=
  if fmt.is_signed T && (v <? 0)%Z then [45%Z] else [].

(** The number written by the digit characters [l], most significant
    first, after the digits already read into [acc]. *)
Definition eval_digits (l : list Z) (acc : Z) : Z :=
  fold_left (fun a ch => (a * 10 + (ch - 48))%Z) l acc.

(** The digit values of [u] in radix [b], least significant first and at
    least one; [fuel] bounds their number. *)
Fixpoint radix_lsb (b : Z) (fuel : nat) (u : Z) : list Z :=
  match fuel with
  | O => []
  | S fuel' =>
      (u mod b)%Z ::
      (if (0 <? u / b)%Z then radix_lsb b fuel' (u / b)%Z else [])
  end.

(** The number written by the digit values [ds] in radix [b], most
    significant first, after the digits already read into [acc]. *)
Definition eval_radix (b : Z) (ds : list Z) (acc : Z) : Z :=
  fold_left (fun a d => (a * b + d)%Z) ds acc.

(** The character of a hexadecimal and of a binary digit value. *)
Definition hex_char (uppercase : bool) (digit : Z) : Z :=
  if (digit <? 10)%Z then (48 + digit)%Z
  else ((if uppercase then 65 else 97) + (digit - 10))%Z.

Definition bin_char (digit : Z) : Z := (48 + digit)%Z.

End spec.

(** ** The buffer invariant and the buffers the public operations produce *)
Module invariant.

(** [basic_fstring<CharT, Cap>]: the array has [Cap + 1] slots, the size
    does not exceed the capacity, and the slot at [size_] holds the
    terminator. *)
Definition wf (Cap : nat) (s : core.basic_fstring) : Prop :=
  length (core.data_ s) = S Cap /\
  core.size_ s <= Cap /\
  core.data_ s !! core.size_ s = Some 0%Z.

(** The same for [zuu::string<CharT, N>]. *)
Definition wf_string (N : nat) (s : constant_string.string) : Prop :=
  length (constant_string.data_ s) = S N /\
  constant_string.len_ s <= N /\
  constant_string.data_ s !! constant_string.len_ s = Some 0%Z.

(** The [n] units a pointer argument is read for exist: in its own array,
    or inside the [N + 1] slots of the string's array. *)
Definition readable (N : nat) (str : constant_string.pointer) (n : nat) : Prop :=
  match str with
  | constant_string.ptr_array units => n <= length units
  | constant_string.ptr_self off => off + n <= S N
  end.

(** A split result whose array holds well-formed buffers only. *)
Definition wf_parts (Cap : nat) (r : str.split_result) : Prop :=
  Forall (wf Cap) (str.parts r).

(** The array of a split result keeps its [MaxParts] slots and the count
    stays within it. *)
Definition within (MaxParts : nat) (r : str.split_result) : Prop :=
  length (str.parts r) = MaxParts /\ str.count_ r <= MaxParts.

(** Buffers of capacity [Cap] obtained from the constructors of
    [basic_fstring] by its public operations and by the algorithms of
    [zuu::str]. *)
Inductive reachable : nat -> core.basic_fstring -> Prop :=
| R_default Cap :
    reachable Cap (core.default_ctor Cap)
| R_from_literal Cap str :
    reachable Cap (core.from_literal Cap str)
| R_from_ptr_len Cap str len :
    reachable Cap (core.from_ptr_len Cap str len)
| R_from_cstr Cap str :
    reachable Cap (core.from_cstr Cap str)
| R_fill_ctor Cap count ch :
    reachable Cap (core.fill_ctor Cap count ch)
| R_clear Cap s :
    reachable Cap s -> reachable Cap (core.clear s)
| R_push_back Cap s ch :
    reachable Cap s -> reachable Cap (core.push_back Cap s ch)
| R_pop_back Cap s :
    reachable Cap s -> reachable Cap (core.pop_back s)
| R_resize Cap s new_size ch :
    reachable Cap s -> reachable Cap (core.resize Cap s new_size ch)
| R_append Cap s str len :
    reachable Cap s -> reachable Cap (core.append Cap s str len)
| R_append_char Cap s ch :
    reachable Cap s -> reachable Cap (core.append_char Cap s ch)
| R_append_fill Cap s count ch :
    reachable Cap s -> reachable Cap (core.append_fill Cap s count ch)
| R_substr Cap ResultCap s pos count :
    reachable Cap s -> reachable ResultCap (core.substr ResultCap s pos count)
| R_plus Cap N s rhs :
    reachable Cap s -> reachable N rhs ->
    reachable (Cap + N) (core.plus Cap N s rhs)
| R_plus_literal Cap s rhs :
    reachable Cap s ->
    reachable (Cap + length rhs) (core.plus_literal Cap s rhs)
| R_plus_assign Cap N s rhs :
    reachable Cap s -> reachable N rhs ->
    reachable Cap (core.plus_assign Cap s rhs)
| R_plus_assign_literal Cap s rhs :
    reachable Cap s -> reachable Cap (core.plus_assign_literal Cap s rhs)
| R_plus_assign_char Cap s ch :
    reachable Cap s -> reachable Cap (core.plus_assign_char Cap s ch)
| R_trim Cap s :
    reachable Cap s -> reachable Cap (str.trim Cap s)
| R_trim_left Cap s :
    reachable Cap s -> reachable Cap (str.trim_left Cap s)
| R_trim_right Cap s :
    reachable Cap s -> reachable Cap (str.trim_right Cap s)
| R_to_title Cap s :
    reachable Cap s -> reachable Cap (str.to_title Cap s)
| R_split_part Cap MaxParts s delimiter p :
    reachable Cap s ->
    In p (str.parts (str.split Cap MaxParts s delimiter)) ->
    reachable Cap p
| R_rsplit_part Cap MaxParts s delimiter p :
    reachable Cap s ->
    In p (str.parts (str.rsplit Cap MaxParts s delimiter)) ->
    reachable Cap p
| R_split_whitespace_part Cap MaxParts s p :
    reachable Cap s ->
    In p (str.parts (str.split_whitespace Cap MaxParts s)) ->
    reachable Cap p
| R_split_lines_part Cap MaxParts s p :
    reachable Cap s ->
    In p (str.parts (str.split_lines Cap MaxParts s)) ->
    reachable Cap p
| R_split_by_part Cap DelimCap MaxParts s delimiter p :
    reachable Cap s -> reachable DelimCap delimiter ->
    In p (str.parts (str.split_by Cap MaxParts s delimiter)) ->
    reachable Cap p.

(** Strings of capacity [N] obtained from the constructors of
    [zuu::string] by its public operations. *)
Inductive reachable_string : nat -> constant_string.string -> Prop :=
| S_default N :
    reachable_string N (constant_string.default_ctor N)
| S_from_cstr N str :
    reachable_string N (constant_string.from_cstr N str)
| S_from_literal N str :
    reachable_string N (constant_string.from_literal N str)
| S_fill_ctor N count ch :
    reachable_string N (constant_string.fill_ctor N count ch)
| S_from_other N M other :
    reachable_string M other ->
    reachable_string N (constant_string.from_other N other)
| S_assign_cstr N s str :
    reachable_string N s ->
    reachable_string N (constant_string.assign_cstr N s str)
| S_assign_other N M s other :
    reachable_string N s -> reachable_string M other ->
    reachable_string N (constant_string.assign_other N s other)
| S_clear N s :
    reachable_string N s -> reachable_string N (constant_string.clear s)
| S_push_back N s ch :
    reachable_string N s ->
    reachable_string N (fst (constant_string.push_back N s ch))
| S_pop_back N s :
    reachable_string N s -> reachable_string N (constant_string.pop_back s)
| S_append N s str count :
    reachable_string N s ->
    reachable_string N (fst (constant_string.append N s str count))
| S_append_other N M s other :
    reachable_string N s -> reachable_string M other ->
    reachable_string N (fst (constant_string.append_other N s other))
| S_append_cstr N s str :
    reachable_string N s ->
    reachable_string N (fst (constant_string.append_cstr N s str))
| S_append_fill N s count ch :
    reachable_string N s ->
    reachable_string N (fst (constant_string.append_fill N s count ch))
| S_insert N s pos str count :
    reachable_string N s ->
    reachable_string N (constant_string.insert N s pos str count)
| S_erase N s pos count :
    reachable_string N s -> reachable_string N (constant_string.erase s pos count)
| S_replace N s pos count str str_len :
    reachable_string N s ->
    reachable_string N (constant_string.replace N s pos count str str_len)
| S_reverse N s :
    reachable_string N s -> reachable_string N (constant_string.reverse s)
| S_trim N is_space s :
    reachable_string N s -> reachable_string N (constant_string.trim is_space s)
| S_substr N s pos count :
    reachable_string N s ->
    reachable_string N (constant_string.substr N s pos count)
| S_concat N1 N2 a b :
    reachable_string N1 a -> reachable_string N2 b ->
    reachable_string (N1 + N2) (constant_string.concat N1 N2 a b).

End invariant.

(** * Properties *)

(** ** Arrays: [copy_n], [fill_n], [deref] *)

Lemma std_min_min a b : std_min a b = Nat.min a b.
Proof. unfold std_min. destruct (Nat.ltb_spec b a); lia. Qed.

Lemma length_copy_n src n dst off :
  length (copy_n src n dst off) = length dst.
Proof.
  revert src dst off. induction n as [|n IH]; intros [|c src] dst off; simpl; auto.
  rewrite IH, length_insert. reflexivity.
Qed.

Lemma length_fill_n dst off n ch : length (fill_n dst off n ch) = length dst.
Proof.
  revert dst off. induction n as [|n IH]; intros dst off; simpl; auto.
  rewrite IH, length_insert. reflexivity.
Qed.

(** Within bounds [copy_n] overwrites exactly the [n] slots from [off]. *)
Lemma copy_n_spec src n dst off :
  n <= length src -> off + n <= length dst ->
  copy_n src n dst off = take off dst ++ take n src ++ drop (off + n) dst.
Proof.
  revert src dst off. induction n as [|n IH]; intros src dst off Hs Hd.
  - destruct src; simpl; rewrite Nat.add_0_r, take_drop; reflexivity.
  - destruct src as [|c src]; simpl in Hs; [lia|]. simpl.
    rewrite IH by (rewrite ?length_insert; lia).
    rewrite drop_insert_lt by lia.
    rewrite (take_S_r _ off c) by (apply list_lookup_insert_eq; lia).
    rewrite take_insert_ge by lia.
    rewrite <- app_assoc. simpl.
    replace (off + S n) with (S (off + n)) by lia. reflexivity.
Qed.

Lemma fill_n_spec dst off n ch :
  off + n <= length dst ->
  fill_n dst off n ch = take off dst ++ replicate n ch ++ drop (off + n) dst.
Proof.
  revert dst off. induction n as [|n IH]; intros dst off Hd; simpl.
  - rewrite Nat.add_0_r, take_drop; reflexivity.
  - rewrite IH by (rewrite ?length_insert; lia).
    rewrite drop_insert_lt by lia.
    rewrite (take_S_r _ off ch) by (apply list_lookup_insert_eq; lia).
    rewrite take_insert_ge by lia.
    rewrite <- app_assoc. simpl.
    replace (off + S n) with (S (off + n)) by lia. reflexivity.
Qed.

Lemma deref_lookup mem i x : mem !! i = Some x -> deref mem i = x.
Proof. unfold deref. intros ->. reflexivity. Qed.

Lemma lookup_deref mem i : i < length mem -> mem !! i = Some (deref mem i).
Proof.
  intros H. destruct (lookup_lt_is_Some_2 mem i H) as [x Hx].
  rewrite Hx. f_equal. symmetry. apply deref_lookup, Hx.
Qed.

(** Reading the units [0 .. n) one by one gives the first [n] units. *)
Lemma map_deref_seq mem i n :
  i + n <= length mem -> map (deref mem) (seq i n) = take n (drop i mem).
Proof.
  revert i. induction n as [|n IH]; intros i H; simpl.
  - reflexivity.
  - rewrite IH by lia.
    assert (Hi : i < length mem) by lia.
    rewrite (drop_S mem (deref mem i) i) by (apply lookup_deref, Hi).
    reflexivity.
Qed.

(** ** The invariant of [basic_fstring] *)
Section core_invariant.
Import core invariant.

Lemma wf_set_null_terminator Cap d sz :
  length d = S Cap -> sz <= Cap ->
  wf Cap (set_null_terminator {| data_ := d; size_ := sz |}).
Proof.
  intros Hd Hsz. unfold wf, set_null_terminator; simpl.
  rewrite length_insert. repeat split; auto.
  apply list_lookup_insert_eq. lia.
Qed.

Lemma wf_default_ctor Cap : wf Cap (default_ctor Cap).
Proof.
  unfold wf, default_ctor; simpl. rewrite length_replicate.
  repeat split; auto with arith.
Qed.

Lemma wf_from_literal Cap str : wf Cap (from_literal Cap str).
Proof.
  unfold from_literal. apply wf_set_null_terminator.
  - rewrite length_copy_n. apply wf_default_ctor.
  - rewrite std_min_min. lia.
Qed.

Lemma wf_from_ptr_len Cap str len : wf Cap (from_ptr_len Cap str len).
Proof.
  unfold from_ptr_len. destruct str; [|apply wf_default_ctor].
  apply wf_set_null_terminator.
  - rewrite length_copy_n. apply wf_default_ctor.
  - rewrite std_min_min. lia.
Qed.

Lemma cstr_loop_bounds fuel Cap src d len :
  len <= Cap ->
  length (fst (cstr_loop fuel Cap src d len)) = length d /\
  snd (cstr_loop fuel Cap src d len) <= Cap.
Proof.
  revert d len. induction fuel as [|fuel IH]; intros d len Hlen; simpl; auto.
  destruct (negb (deref src len =? 0)%Z && (len <? Cap)) eqn:E; simpl; auto.
  apply andb_true_iff in E as [_ E]. apply Nat.ltb_lt in E.
  destruct (IH (<[len := deref src len]> d) (S len)) as [H1 H2]; [lia|].
  rewrite length_insert in H1. auto.
Qed.

Lemma wf_from_cstr Cap str : wf Cap (from_cstr Cap str).
Proof.
  unfold from_cstr. destruct str as [src|]; [|apply wf_default_ctor].
  pose proof (cstr_loop_bounds Cap Cap src (data_ (default_ctor Cap)) 0) as H.
  destruct (cstr_loop Cap Cap src (data_ (default_ctor Cap)) 0) as [d len].
  simpl in H. destruct H as [H1 H2]; [lia|].
  apply wf_set_null_terminator; auto.
  rewrite H1. simpl. rewrite length_replicate. reflexivity.
Qed.

Lemma wf_fill_ctor Cap count ch : wf Cap (fill_ctor Cap count ch).
Proof.
  unfold fill_ctor. apply wf_set_null_terminator.
  - rewrite length_fill_n. apply wf_default_ctor.
  - rewrite std_min_min. lia.
Qed.

Lemma wf_clear Cap s : wf Cap s -> wf Cap (clear s).
Proof.
  intros (Hd & Hs & Ht). unfold wf, clear; simpl.
  rewrite length_insert. repeat split; auto with arith.
  apply list_lookup_insert_eq. lia.
Qed.

Lemma wf_push_back Cap s ch : wf Cap s -> wf Cap (push_back Cap s ch).
Proof.
  intros (Hd & Hs & Ht). unfold push_back, full.
  destruct (Nat.eqb_spec (size_ s) Cap); simpl; [repeat split; auto|].
  apply wf_set_null_terminator; [rewrite length_insert; auto | lia].
Qed.

Lemma wf_pop_back Cap s : wf Cap s -> wf Cap (pop_back s).
Proof.
  intros (Hd & Hs & Ht). unfold pop_back.
  destruct (0 <? size_ s); [|repeat split; auto].
  apply wf_set_null_terminator; [auto | lia].
Qed.

Lemma wf_resize Cap s new_size ch : wf Cap s -> wf Cap (resize Cap s new_size ch).
Proof.
  intros (Hd & Hs & Ht). unfold resize.
  apply wf_set_null_terminator; [|rewrite std_min_min; lia].
  destruct (size_ s <? std_min new_size Cap); [rewrite length_fill_n|]; auto.
Qed.

Lemma wf_append Cap s str len : wf Cap s -> wf Cap (append Cap s str len).
Proof.
  intros (Hd & Hs & Ht). unfold append, full, available.
  destruct str as [src|]; [|repeat split; auto].
  destruct (Nat.eqb_spec (size_ s) Cap); simpl; [repeat split; auto|].
  apply wf_set_null_terminator; [rewrite length_copy_n; auto|].
  rewrite std_min_min. lia.
Qed.

Lemma wf_append_fill Cap s count ch : wf Cap s -> wf Cap (append_fill Cap s count ch).
Proof.
  intros (Hd & Hs & Ht). unfold append_fill, available.
  apply wf_set_null_terminator; [rewrite length_fill_n; auto|].
  rewrite std_min_min. lia.
Qed.

Lemma wf_substr ResultCap s pos count : wf ResultCap (substr ResultCap s pos count).
Proof.
  unfold substr. destruct (size_ s <=? pos); [apply wf_default_ctor|].
  apply wf_append, wf_default_ctor.
Qed.

Lemma wf_plus Cap N s rhs : wf (Cap + N) (plus Cap N s rhs).
Proof. unfold plus. do 2 apply wf_append. apply wf_default_ctor. Qed.

Lemma wf_plus_literal Cap s rhs : wf (Cap + length rhs) (plus_literal Cap s rhs).
Proof. unfold plus_literal. do 2 apply wf_append. apply wf_default_ctor. Qed.

(** The contents of a well-formed buffer, unit by unit. *)
Lemma units_to_string Cap s : wf Cap s -> str.units s = to_string s.
Proof.
  intros (Hd & Hs & Ht). unfold str.units, to_string.
  change (index s) with (deref (data_ s)).
  rewrite map_deref_seq by (simpl; lia). reflexivity.
Qed.

Lemma length_to_string Cap s : wf Cap s -> length (to_string s) = size_ s.
Proof.
  intros (Hd & Hs & Ht). unfold to_string. rewrite length_take. lia.
Qed.

Lemma to_string_default_ctor Cap : to_string (default_ctor Cap) = [].
Proof. reflexivity. Qed.

Lemma to_string_clear s : to_string (clear s) = [].
Proof. reflexivity. Qed.

(** [push_back] on a buffer that is not full appends the unit. *)
Lemma to_string_push_back Cap s ch :
  wf Cap s -> size_ s < Cap ->
  to_string (push_back Cap s ch) = to_string s ++ [ch] /\
  size_ (push_back Cap s ch) = S (size_ s).
Proof.
  intros (Hd & Hs & Ht) Hlt. unfold push_back, full.
  destruct (Nat.eqb_spec (size_ s) Cap); [lia|]. simpl.
  split; [|reflexivity]. unfold to_string; simpl.
  rewrite take_insert_ge by lia.
  rewrite (take_S_r _ (size_ s) ch) by (apply list_lookup_insert_eq; lia).
  rewrite take_insert_ge by lia. reflexivity.
Qed.

(** [append] copies [min len available] units onto the end. *)
Lemma to_string_append Cap s src len :
  wf Cap s -> len <= length src ->
  to_string (append Cap s (Some src) len)
    = to_string s ++ take (Nat.min len (Cap - size_ s)) src /\
  size_ (append Cap s (Some src) len) = size_ s + Nat.min len (Cap - size_ s).
Proof.
  intros (Hd & Hs & Ht) Hlen. unfold append, full, available.
  destruct (Nat.eqb_spec (size_ s) Cap) as [E|E]; simpl.
  - rewrite E, Nat.sub_diag, Nat.min_0_r. simpl.
    rewrite app_nil_r, Nat.add_0_r. auto.
  - rewrite std_min_min. split; [|reflexivity].
    unfold to_string; simpl.
    set (k := Nat.min len (Cap - size_ s)).
    rewrite take_insert_ge by lia.
    rewrite copy_n_spec by lia.
    rewrite take_app_add' by (rewrite length_take; lia).
    rewrite take_app_le by (rewrite length_take; lia).
    rewrite take_take. f_equal. f_equal. lia.
Qed.

End core_invariant.

(** ** The invariant through the algorithms of [zuu::str] *)
Section str_invariant.
Import core invariant str.

Lemma wf_trim Cap s : wf Cap (trim Cap s).
Proof.
  unfold trim. destruct (_ <? _); [apply wf_append|]; apply wf_default_ctor.
Qed.

Lemma wf_trim_left Cap s : wf Cap (trim_left Cap s).
Proof.
  unfold trim_left. destruct (_ <? _); [apply wf_append|]; apply wf_default_ctor.
Qed.

Lemma wf_trim_right Cap s : wf Cap (trim_right Cap s).
Proof.
  unfold trim_right. destruct (_ <? _); [apply wf_append|]; apply wf_default_ctor.
Qed.

Lemma wf_to_title_fold Cap l r b :
  wf Cap r -> wf Cap (fst (fold_left (to_title_step Cap) l (r, b))).
Proof.
  revert r b. induction l as [|ch l IH]; intros r b Hr; [simpl; auto|].
  cbn [fold_left]. unfold to_title_step at 2.
  destruct (is_whitespace ch); [|destruct (is_alpha ch)];
    apply IH, wf_push_back, Hr.
Qed.

Lemma wf_to_title Cap s : wf Cap (to_title Cap s).
Proof. apply wf_to_title_fold, wf_default_ctor. Qed.

Lemma wf_parts_default Cap MaxParts : wf_parts Cap (split_result_default Cap MaxParts).
Proof. apply Forall_replicate, wf_default_ctor. Qed.

Lemma wf_parts_push_part Cap r p :
  wf_parts Cap r -> wf Cap p -> wf_parts Cap (push_part r p).
Proof. intros Hr Hp. apply Forall_insert; assumption. Qed.

Lemma wf_split_step Cap MaxParts d r cur ch :
  wf_parts Cap r -> wf Cap cur ->
  wf_parts Cap (fst (split_step Cap MaxParts d (r, cur) ch)) /\
  wf Cap (snd (split_step Cap MaxParts d (r, cur) ch)).
Proof.
  intros Hr Hc. unfold split_step.
  destruct (ch =? d)%Z.
  - destruct (negb (empty cur) && (count_ r <? MaxParts)); simpl; split; auto.
    + apply wf_parts_push_part; auto.
    + apply wf_clear, Hc.
  - destruct (negb (full Cap cur)); simpl; split; auto.
    apply wf_push_back, Hc.
Qed.

Lemma wf_split_fold Cap MaxParts d l r cur :
  wf_parts Cap r -> wf Cap cur ->
  wf_parts Cap (fst (fold_left (split_step Cap MaxParts d) l (r, cur))) /\
  wf Cap (snd (fold_left (split_step Cap MaxParts d) l (r, cur))).
Proof.
  revert r cur. induction l as [|ch l IH]; intros r cur Hr Hc; [simpl; auto|].
  cbn [fold_left].
  destruct (wf_split_step Cap MaxParts d r cur ch Hr Hc) as [H1 H2].
  destruct (split_step Cap MaxParts d (r, cur) ch) as [r' cur'].
  apply IH; assumption.
Qed.

Lemma wf_split Cap MaxParts s d : wf_parts Cap (split Cap MaxParts s d).
Proof.
  unfold split.
  destruct (wf_split_fold Cap MaxParts d (units s)
              (split_result_default Cap MaxParts) (default_ctor Cap)) as [H1 H2].
  { apply wf_parts_default. } { apply wf_default_ctor. }
  destruct (fold_left _ _ _) as [r cur]. simpl in *.
  destruct (negb (empty cur) && (count_ r <? MaxParts)); auto.
  apply wf_parts_push_part; auto.
Qed.

Lemma wf_reversed_loop Cap cur r j : wf Cap r -> wf Cap (reversed_loop Cap cur r j).
Proof.
  revert r. induction j as [|j IH]; intros r Hr; simpl; auto.
  apply IH, wf_push_back, Hr.
Qed.

Lemma wf_reversed_of Cap cur : wf Cap (reversed_of Cap cur).
Proof. apply wf_reversed_loop, wf_default_ctor. Qed.

Lemma wf_rsplit_loop Cap MaxParts s d i r cur :
  wf_parts Cap r -> wf Cap cur ->
  wf_parts Cap (fst (rsplit_loop Cap MaxParts s d i r cur)) /\
  wf Cap (snd (rsplit_loop Cap MaxParts s d i r cur)).
Proof.
  revert r cur. induction i as [|i IH]; intros r cur Hr Hc; simpl; auto.
  destruct (count_ r <? MaxParts); simpl; auto.
  destruct (index s i =? d)%Z.
  - destruct (negb (empty cur)); apply IH; auto.
    + apply wf_parts_push_part; auto. apply wf_reversed_of.
    + apply wf_clear, Hc.
  - apply IH; auto. apply wf_push_back, Hc.
Qed.

Lemma wf_part_at Cap ps i : Forall (wf Cap) ps -> wf Cap (part_at Cap ps i).
Proof.
  intros H. unfold part_at. destruct (ps !! i) as [p|] eqn:E; simpl.
  - eapply Forall_lookup_1; eauto.
  - apply wf_default_ctor.
Qed.

Lemma wf_swap_loop Cap ps cnt i n :
  Forall (wf Cap) ps -> Forall (wf Cap) (swap_loop Cap ps cnt i n).
Proof.
  revert ps i. induction n as [|n IH]; intros ps i H; simpl; auto.
  apply IH. apply Forall_insert; [apply Forall_insert|]; auto using wf_part_at.
Qed.

Lemma wf_rsplit Cap MaxParts s d : wf_parts Cap (rsplit Cap MaxParts s d).
Proof.
  unfold rsplit.
  destruct (wf_rsplit_loop Cap MaxParts s d (size s)
              (split_result_default Cap MaxParts) (default_ctor Cap)) as [H1 H2].
  { apply wf_parts_default. } { apply wf_default_ctor. }
  destruct (rsplit_loop _ _ _ _ _ _ _) as [r cur]. simpl in *.
  unfold wf_parts. cbn [parts]. apply wf_swap_loop. unfold rsplit_finish.
  destruct (negb (empty cur) && (count_ r <? MaxParts)); auto.
  apply wf_parts_push_part; auto. apply wf_reversed_of.
Qed.

Lemma wf_flush Cap MaxParts r cur :
  wf_parts Cap r -> wf Cap cur ->
  wf_parts Cap (fst (flush MaxParts r cur)) /\ wf Cap (snd (flush MaxParts r cur)).
Proof.
  intros Hr Hc. unfold flush.
  destruct (negb (empty cur) && (count_ r <? MaxParts)); simpl; split; auto.
  - apply wf_parts_push_part; auto.
  - apply wf_clear, Hc.
Qed.

Lemma wf_split_finish Cap MaxParts r cur :
  wf_parts Cap r -> wf Cap cur -> wf_parts Cap (split_finish MaxParts (r, cur)).
Proof.
  intros Hr Hc. unfold split_finish.
  destruct (negb (empty cur) && (count_ r <? MaxParts)); auto.
  apply wf_parts_push_part; auto.
Qed.

Lemma wf_split_whitespace_fold Cap MaxParts l r cur :
  wf_parts Cap r -> wf Cap cur ->
  wf_parts Cap (fst (fold_left (split_whitespace_step Cap MaxParts) l (r, cur))) /\
  wf Cap (snd (fold_left (split_whitespace_step Cap MaxParts) l (r, cur))).
Proof.
  revert r cur. induction l as [|ch l IH]; intros r cur Hr Hc; [simpl; auto|].
  cbn [fold_left]. unfold split_whitespace_step at 2 4.
  destruct (is_space ch).
  - destruct (wf_flush Cap MaxParts r cur Hr Hc) as [H1 H2].
    destruct (flush MaxParts r cur) as [r' cur']. apply IH; assumption.
  - destruct (negb (full Cap cur)); apply IH; auto using wf_push_back.
Qed.

Lemma wf_split_whitespace Cap MaxParts s :
  wf_parts Cap (split_whitespace Cap MaxParts s).
Proof.
  unfold split_whitespace.
  destruct (wf_split_whitespace_fold Cap MaxParts (units s)
              (split_result_default Cap MaxParts) (default_ctor Cap)) as [H1 H2].
  { apply wf_parts_default. } { apply wf_default_ctor. }
  destruct (fold_left _ _ _) as [r cur]. apply wf_split_finish; assumption.
Qed.

Lemma wf_split_lines_loop fuel Cap MaxParts s i r cur :
  wf_parts Cap r -> wf Cap cur ->
  wf_parts Cap (fst (split_lines_loop fuel Cap MaxParts s i r cur)) /\
  wf Cap (snd (split_lines_loop fuel Cap MaxParts s i r cur)).
Proof.
  revert i r cur. induction fuel as [|fuel IH]; intros i r cur Hr Hc; [simpl; auto|].
  cbn [split_lines_loop].
  destruct (i <? size s); [|simpl; auto].
  destruct (wf_flush Cap MaxParts r cur Hr Hc) as [H1 H2].
  destruct (index s i =? 10)%Z; [|destruct (index s i =? 13)%Z].
  - destruct (flush MaxParts r cur) as [r' cur']. apply IH; assumption.
  - destruct (flush MaxParts r cur) as [r' cur']. apply IH; assumption.
  - apply IH; auto. destruct (negb (full Cap cur)); auto using wf_push_back.
Qed.

Lemma wf_split_lines Cap MaxParts s : wf_parts Cap (split_lines Cap MaxParts s).
Proof.
  unfold split_lines.
  destruct (wf_split_lines_loop (size s) Cap MaxParts s 0
              (split_result_default Cap MaxParts) (default_ctor Cap)) as [H1 H2].
  { apply wf_parts_default. } { apply wf_default_ctor. }
  destruct (split_lines_loop _ _ _ _ _ _ _) as [r cur].
  apply wf_split_finish; assumption.
Qed.

Lemma wf_collect Cap s part i n : wf Cap part -> wf Cap (collect Cap s part i n).
Proof.
  revert part i. induction n as [|n IH]; intros part i Hp; simpl; auto.
  destruct (negb (full Cap part)); auto using wf_push_back.
Qed.

Lemma wf_push_nonempty Cap r part :
  wf_parts Cap r -> wf Cap part -> wf_parts Cap (push_nonempty r part).
Proof.
  intros Hr Hp. unfold push_nonempty.
  destruct (negb (empty part)); auto using wf_parts_push_part.
Qed.

Lemma wf_split_by_loop fuel Cap MaxParts s delimiter pos r :
  wf_parts Cap r -> wf_parts Cap (split_by_loop fuel Cap MaxParts s delimiter pos r).
Proof.
  revert pos r. induction fuel as [|fuel IH]; intros pos r Hr; [exact Hr|].
  cbn [split_by_loop].
  destruct ((pos <? size s) && (count_ r <? MaxParts)); auto.
  destruct (find s (Some (data_ delimiter)) pos).
  - apply IH, wf_push_nonempty; auto using wf_collect, wf_default_ctor.
  - apply wf_push_nonempty; auto using wf_collect, wf_default_ctor.
Qed.

Lemma wf_split_by Cap MaxParts s delimiter :
  wf Cap s -> wf_parts Cap (split_by Cap MaxParts s delimiter).
Proof.
  intros Hs. unfold split_by. destruct (empty delimiter).
  - destruct (_ <? _); auto using wf_parts_push_part, wf_parts_default.
  - apply wf_split_by_loop, wf_parts_default.
Qed.

End str_invariant.

(** ** The invariant of [zuu::string] *)
Section string_invariant.
Import constant_string invariant.

Lemma wf_string_intro N d len :
  List.length d = S N -> len <= N ->
  wf_string N {| data_ := <[len := 0%Z]> d; len_ := len |}.
Proof.
  intros Hd Hl. unfold wf_string; simpl. rewrite length_insert.
  repeat split; auto. apply list_lookup_insert_eq. lia.
Qed.

Lemma wf_string_default_ctor N : wf_string N (default_ctor N).
Proof.
  unfold wf_string, default_ctor; simpl. rewrite length_replicate.
  repeat split; auto with arith.
Qed.

Lemma wf_assign_impl N s str count :
  wf_string N s -> wf_string N (assign_impl N s str count).
Proof.
  intros (Hd & Hl & Ht). unfold assign_impl, memcpy_string.
  apply wf_string_intro; [rewrite length_copy_n; auto|].
  destruct (Nat.ltb_spec count N); lia.
Qed.

Lemma wf_string_from_cstr N str : wf_string N (from_cstr N str).
Proof.
  unfold from_cstr. destruct str; [apply wf_assign_impl|];
    apply wf_string_default_ctor.
Qed.

Lemma wf_string_from_literal N str : wf_string N (from_literal N str).
Proof. apply wf_assign_impl, wf_string_default_ctor. Qed.

Lemma wf_string_fill_ctor N count ch : wf_string N (fill_ctor N count ch).
Proof.
  unfold fill_ctor, memset_string. apply wf_string_intro.
  - rewrite length_fill_n. apply wf_string_default_ctor.
  - destruct (Nat.ltb_spec count N); lia.
Qed.

Lemma wf_string_clear N s : wf_string N s -> wf_string N (clear s).
Proof.
  intros (Hd & Hl & Ht). unfold wf_string, clear; simpl.
  rewrite length_insert. repeat split; auto with arith.
  apply list_lookup_insert_eq. lia.
Qed.

Lemma wf_string_assign_cstr N s str :
  wf_string N s -> wf_string N (assign_cstr N s str).
Proof.
  intros H. unfold assign_cstr.
  destruct str; [apply wf_assign_impl | apply wf_string_clear]; exact H.
Qed.

Lemma wf_string_push_back N s ch :
  wf_string N s -> wf_string N (fst (push_back N s ch)).
Proof.
  intros (Hd & Hl & Ht). unfold push_back.
  destruct (Nat.leb_spec N (len_ s)); simpl; [repeat split; auto|].
  apply wf_string_intro; [rewrite length_insert; auto | lia].
Qed.

Lemma wf_string_pop_back N s : wf_string N s -> wf_string N (pop_back s).
Proof.
  intros (Hd & Hl & Ht). unfold pop_back.
  destruct (0 <? len_ s); [|repeat split; auto].
  apply wf_string_intro; [auto | lia].
Qed.

Lemma wf_string_append N s str count :
  wf_string N s -> wf_string N (fst (append N s str count)).
Proof.
  intros (Hd & Hl & Ht). unfold append, memcpy_string.
  destruct str as [src|]; [|repeat split; auto].
  destruct (count =? 0); simpl; [repeat split; auto|].
  destruct (Nat.leb_spec N (len_ s)); simpl; [repeat split; auto|].
  apply wf_string_intro; [rewrite length_copy_n; auto|].
  rewrite std_min_min. lia.
Qed.

Lemma wf_string_append_cstr N s str :
  wf_string N s -> wf_string N (fst (append_cstr N s str)).
Proof.
  intros H. unfold append_cstr. destruct str; [apply wf_string_append|]; exact H.
Qed.

Lemma wf_string_append_fill N s count ch :
  wf_string N s -> wf_string N (fst (append_fill N s count ch)).
Proof.
  intros (Hd & Hl & Ht). unfold append_fill, memset_string.
  destruct (count =? 0); simpl; [repeat split; auto|].
  destruct (Nat.leb_spec N (len_ s)); simpl; [repeat split; auto|].
  apply wf_string_intro; [rewrite length_fill_n; auto|].
  rewrite std_min_min. lia.
Qed.

Lemma wf_string_insert N s pos str count :
  wf_string N s -> wf_string N (insert N s pos str count).
Proof.
  intros (Hd & Hl & Ht). unfold insert, memcpy_string, memmove_string.
  destruct str as [src|]; [|repeat split; auto].
  destruct ((len_ s <? pos) || (count =? 0) || (N <=? len_ s));
    [repeat split; auto|].
  apply wf_string_intro; [|rewrite std_min_min; lia].
  rewrite length_copy_n.
  destruct (0 <? len_ s - pos); [rewrite length_copy_n|]; auto.
Qed.

Lemma wf_string_erase N s pos count :
  wf_string N s -> wf_string N (erase s pos count).
Proof.
  intros (Hd & Hl & Ht). unfold erase, memmove_string.
  destruct (len_ s <=? pos); [repeat split; auto|].
  apply wf_string_intro; [|lia].
  destruct (0 <? _); [rewrite length_copy_n|]; auto.
Qed.

Lemma wf_string_replace N s pos count str str_len :
  wf_string N s -> wf_string N (replace N s pos count str str_len).
Proof.
  intros H. unfold replace. destruct str; [|exact H].
  destruct (len_ s <? pos); [exact H|].
  apply wf_string_insert, wf_string_erase, H.
Qed.

(** The swaps of [reverse] touch indices below [len] only. *)
Lemma reverse_loop_keeps d len i n :
  i + n <= len / 2 ->
  List.length (reverse_loop d len i n) = List.length d /\
  reverse_loop d len i n !! len = d !! len.
Proof.
  revert d i. induction n as [|n IH]; intros d i H; simpl; auto.
  assert (Hlen : 2 * (len / 2) <= len) by (apply Nat.Div0.mul_div_le).
  destruct (IH (<[len - 1 - i := deref d i]> (<[i := deref d (len - 1 - i)]> d)) (S i))
    as [H1 H2]; [lia|].
  rewrite H1, H2, !length_insert. split; auto.
  rewrite !list_lookup_insert_ne by lia. reflexivity.
Qed.

Lemma wf_string_reverse N s : wf_string N s -> wf_string N (reverse s).
Proof.
  intros (Hd & Hl & Ht). unfold wf_string, reverse; cbn [data_ len_].
  destruct (reverse_loop_keeps (data_ s) (len_ s) 0 (len_ s / 2)) as [H1 H2]; [lia|].
  rewrite H1, H2. auto.
Qed.

Lemma trim_start_bound is_space d start n :
  start <= trim_start is_space d start n <= start + n.
Proof.
  revert start. induction n as [|n IH]; intros start; simpl; [lia|].
  destruct (is_space (deref d start)); [|lia].
  specialize (IH (S start)). lia.
Qed.

Lemma trim_end_bound is_space d start n :
  start <= trim_end is_space d start n <= start + n.
Proof.
  induction n as [|n IH]; simpl; [lia|].
  destruct (is_space (deref d (start + n))); lia.
Qed.

Lemma wf_string_trim N is_space s : wf_string N s -> wf_string N (trim is_space s).
Proof.
  intros (Hd & Hl & Ht). unfold trim, memmove_string.
  pose proof (trim_start_bound is_space (data_ s) 0 (len_ s)) as Hs.
  set (start := trim_start is_space (data_ s) 0 (len_ s)) in *.
  pose proof (trim_end_bound is_space (data_ s) start (len_ s - start)) as He.
  set (end_ := trim_end is_space (data_ s) start (len_ s - start)) in *.
  destruct ((0 <? start) || (end_ <? len_ s)); [|repeat split; auto].
  apply wf_string_intro; [|lia].
  destruct (0 <? start); [rewrite length_copy_n|]; auto.
Qed.

Lemma wf_string_substr N s pos count : wf_string N (substr N s pos count).
Proof.
  unfold substr. destruct (len_ s <=? pos); [|apply wf_assign_impl];
    apply wf_string_default_ctor.
Qed.

Lemma wf_string_concat N1 N2 a b : wf_string (N1 + N2) (concat N1 N2 a b).
Proof.
  unfold concat, append_other. do 2 apply wf_string_append.
  apply wf_string_default_ctor.
Qed.

End string_invariant.

(** ** Contents after [append] and [push_back] of [zuu::string] *)
Section contents.
Import constant_string invariant.

Lemma string_append_spec N s src count :
  wf_string N s -> count <= List.length src ->
  let k := Nat.min count (N - len_ s) in
  snd (append N s (Some src) count) = k /\
  len_ (fst (append N s (Some src) count)) = len_ s + k /\
  contents (fst (append N s (Some src) count))
    = contents s ++ take k src.
Proof.
  intros (Hd & Hl & Ht) Hc k. unfold append, memcpy_string.
  destruct (Nat.eqb_spec count 0) as [E|E]; simpl.
  { subst count. unfold k. simpl. rewrite app_nil_r, Nat.add_0_r. auto. }
  destruct (Nat.leb_spec N (len_ s)) as [E2|E2]; simpl.
  { assert (Hk : k = 0) by (unfold k; lia). rewrite Hk. simpl.
    rewrite app_nil_r, Nat.add_0_r. auto. }
  rewrite std_min_min. fold k. repeat split.
  unfold contents; simpl.
  rewrite take_insert_ge by lia.
  rewrite copy_n_spec by (unfold k; lia).
  rewrite take_app_add' by (rewrite length_take; lia).
  rewrite take_app_le by (rewrite length_take; unfold k; lia).
  rewrite take_take. f_equal. f_equal. lia.
Qed.

End contents.

(** ** Invariant of every reachable buffer *)

Lemma reachable_wf Cap s : invariant.reachable Cap s -> invariant.wf Cap s.
Proof.
  induction 1;
    eauto using wf_default_ctor, wf_from_literal, wf_from_ptr_len, wf_from_cstr,
      wf_fill_ctor, wf_clear, wf_push_back, wf_pop_back, wf_resize, wf_append,
      wf_append_fill, wf_substr, wf_plus, wf_plus_literal, wf_trim,
      wf_trim_left, wf_trim_right, wf_to_title;
    try (unfold core.append_char, core.plus_assign, core.plus_assign_literal,
           core.plus_assign_char, core.append_char;
         solve [auto using wf_push_back, wf_append]).
  - pose proof (wf_split Cap MaxParts s delimiter) as Hp.
    unfold invariant.wf_parts in Hp. rewrite List.Forall_forall in Hp. auto.
  - pose proof (wf_rsplit Cap MaxParts s delimiter) as Hp.
    unfold invariant.wf_parts in Hp. rewrite List.Forall_forall in Hp. auto.
  - pose proof (wf_split_whitespace Cap MaxParts s) as Hp.
    unfold invariant.wf_parts in Hp. rewrite List.Forall_forall in Hp. auto.
  - pose proof (wf_split_lines Cap MaxParts s) as Hp.
    unfold invariant.wf_parts in Hp. rewrite List.Forall_forall in Hp. auto.
  - pose proof (wf_split_by Cap MaxParts s delimiter IHreachable1) as Hp.
    unfold invariant.wf_parts in Hp. rewrite List.Forall_forall in Hp. auto.
Qed.

Lemma reachable_string_wf N s :
  invariant.reachable_string N s -> invariant.wf_string N s.
Proof.
  induction 1;
    eauto using wf_string_default_ctor, wf_string_from_cstr,
      wf_string_from_literal, wf_string_fill_ctor, wf_assign_impl,
      wf_string_assign_cstr, wf_string_clear, wf_string_push_back,
      wf_string_pop_back, wf_string_append, wf_string_append_cstr,
      wf_string_append_fill, wf_string_insert, wf_string_erase,
      wf_string_replace, wf_string_reverse, wf_string_trim,
      wf_string_substr, wf_string_concat;
    try (unfold constant_string.from_other, constant_string.assign_other,
           constant_string.append_other;
         solve [auto using wf_assign_impl, wf_string_default_ctor,
                  wf_string_append]).
Qed.

(** C1.  Every buffer produced by the public operations (constructors,
    assignment, clear, push_back, pop_back, resize, append, insert, erase,
    replace, reverse, trim, substr, concatenation, and the parts of split,
    rsplit, split_by, split_lines and split_whitespace) keeps
    [size() <= capacity()] and holds the terminator at index [size()]: the
    array has its [capacity + 1] slots and the slot at [size()] stores the
    zero unit.  This holds for [basic_fstring] and for [zuu::string]. *)
Theorem C1_size_bounded_and_terminated :
  (forall Cap s, invariant.reachable Cap s ->
     core.size s <= Cap /\
     length (core.data_ s) = S Cap /\
     core.data_ s !! core.size s = Some 0%Z) /\
  (forall N s, invariant.reachable_string N s ->
     constant_string.length s <= constant_string.capacity N s /\
     length (constant_string.data_ s) = S N /\
     constant_string.data_ s !! constant_string.length s = Some 0%Z).
Proof.
  split.
  - intros Cap s H. destruct (reachable_wf Cap s H) as (Hd & Hs & Ht).
    repeat split; assumption.
  - intros N s H. destruct (reachable_string_wf N s H) as (Hd & Hs & Ht).
    repeat split; assumption.
Qed.

Lemma C1_witness :
  let s := core.push_back 5 (core.from_literal 5 (lit "12345" ++ [0%Z])) 54 in
  core.size s <= 5 /\ length (core.data_ s) = 6 /\
  core.data_ s !! core.size s = Some 0%Z.
Proof.
  apply (proj1 C1_size_bounded_and_terminated).
  apply invariant.R_push_back, invariant.R_from_literal.
Defined.

(** ** [append] and [push_back] at the capacity limit *)

(** C2 (as amended).  With [A = available()] and a source of at least [n]
    units, [append(src, n)] copies exactly [min(n, A)] units onto the end;
    when [n > A] the buffer is full afterwards.  [zuu::string::append]
    returns that count; [basic_fstring::append] returns the buffer. *)
Theorem C2_append_copies_min :
  forall Cap (s : core.basic_fstring) (t : constant_string.string) src n,
    invariant.wf Cap s -> invariant.wf_string Cap t -> n <= length src ->
    let s' := core.append Cap s (Some src) n in
    let k := Nat.min n (core.available Cap s) in
    let r := constant_string.append Cap t (Some src) n in
    let k' := Nat.min n (constant_string.available Cap t) in
    (core.to_string s' = core.to_string s ++ take k src /\
     core.size s' = core.size s + k /\
     (core.available Cap s < n -> core.full Cap s' = true)) /\
    (snd r = k' /\
     constant_string.contents (fst r) = constant_string.contents t ++ take k' src /\
     constant_string.length (fst r) = constant_string.length t + k' /\
     (constant_string.available Cap t < n ->
      constant_string.length (fst r) = Cap)).
Proof.
  intros Cap s t src n Hs Ht Hn s' k r k'. subst s' k r k'.
  destruct (to_string_append Cap s src n Hs Hn) as [H1 H2].
  destruct (string_append_spec Cap t src n Ht Hn) as (H3 & H4 & H5).
  destruct Hs as (_ & Hs & _). destruct Ht as (_ & Ht & _).
  unfold core.available, constant_string.available, core.size,
    constant_string.length in *.
  split; [split; [exact H1|split; [exact H2|]] | split; [exact H3|split;
    [exact H5|split; [exact H4|]]]].
  - intros Hlt. unfold core.full. rewrite H2. apply Nat.eqb_eq. lia.
  - intros Hlt. rewrite H4. lia.
Qed.

Lemma C2_witness :
  let s := core.from_literal 5 (lit "abc" ++ [0%Z]) in
  let s' := core.append 5 s (Some (lit "defgh")) 5 in
  core.to_string s' = lit "abcde" /\ core.full 5 s' = true.
Proof.
  pose proof (C2_append_copies_min 5
    (core.from_literal 5 (lit "abc" ++ [0%Z]))
    (constant_string.from_literal 5 (lit "abc" ++ [0%Z]))
    (lit "defgh") 5 (wf_from_literal _ _) (wf_string_from_literal _ _)
    (le_n _)) as H.
  cbv zeta in H. destruct H as [(H1 & _ & H3) _].
  split; [exact H1 | apply H3; vm_compute; lia].
Defined.

(** C2 as stated fails for [basic_fstring::append]: its return value is the
    buffer, and two calls that copy different numbers of units (2 and 1)
    return the same value. *)
Lemma C2_counterexample :
  let a := core.default_ctor 4 in
  let b := core.from_literal 4 (lit "a" ++ [0%Z]) in
  core.append 4 a (Some (lit "ab")) 2 = core.append 4 b (Some (lit "b")) 1 /\
  Nat.min 2 (core.available 4 a) <> Nat.min 1 (core.available 4 b).
Proof. split; [reflexivity | vm_compute; lia]. Qed.

(** C8 (as amended).  On a full buffer [push_back(ch)] leaves contents and
    size unchanged, so the buffer stays full; [zuu::string::push_back]
    returns [false], [basic_fstring::push_back] returns nothing.  A
    capacity-5 buffer holding "12345" stays "12345" and full after
    [+= "6"]. *)
Theorem C8_push_back_full_noop :
  (forall Cap (s : core.basic_fstring) ch,
     core.full Cap s = true ->
     core.push_back Cap s ch = s /\ core.full Cap (core.push_back Cap s ch) = true) /\
  (forall N (t : constant_string.string) ch,
     constant_string.length t = constant_string.capacity N t ->
     constant_string.push_back N t ch = (t, false)) /\
  (let s := core.from_literal 5 (lit "12345" ++ [0%Z]) in
   let s' := core.plus_assign_literal 5 s (lit "6" ++ [0%Z]) in
   core.to_string s' = lit "12345" /\ core.size s' = 5 /\ core.full 5 s' = true).
Proof.
  split; [|split].
  - intros Cap s ch Hf. unfold core.push_back. rewrite Hf. simpl. auto.
  - intros N t ch Hl. unfold constant_string.push_back.
    unfold constant_string.length, constant_string.capacity in Hl.
    rewrite Hl, Nat.leb_refl. reflexivity.
  - vm_compute. auto.
Qed.

Lemma C8_witness :
  let s := core.from_literal 5 (lit "12345" ++ [0%Z]) in
  core.push_back 5 s 54 = s /\ core.full 5 (core.push_back 5 s 54) = true.
Proof. apply (proj1 C8_push_back_full_noop). reflexivity. Defined.

(** C8 as stated fails for [basic_fstring::push_back], which returns
    [void]: the outcome of a refused push on a full buffer is the very
    outcome of a successful push, so nothing reports the failure. *)
Lemma C8_counterexample :
  let full5 := core.from_literal 5 (lit "12345" ++ [0%Z]) in
  let room5 := core.from_literal 5 (lit "1234" ++ [0%Z]) in
  core.full 5 full5 = true /\ core.full 5 room5 = false /\
  core.push_back 5 full5 54 = core.push_back 5 room5 53.
Proof. repeat split. Qed.

(** ** Concatenation with a character-array literal *)



(** ** Stream output *)

(** When no unit of the contents is zero, [operator<<] writes exactly the
    contents. *)
Lemma strlen_zero_free l rest :
  Forall (fun c => c <> 0%Z) l -> core.strlen (l ++ 0%Z :: rest) = length l.
Proof.
  induction 1 as [|c l Hc Hl IH]; simpl; [reflexivity|].
  destruct (Z.eqb_spec c 0); [contradiction|]. rewrite IH. reflexivity.
Qed.

Lemma stream_insert_zero_free Cap s :
  invariant.wf Cap s -> Forall (fun c => c <> 0%Z) (core.to_string s) ->
  core.stream_insert s = core.to_string s.
Proof.
  intros (Hd & Hs & Ht) Hnz. unfold core.stream_insert.
  rewrite <- (take_drop_middle (core.data_ s) (core.size_ s) 0%Z Ht) at 1.
  rewrite strlen_zero_free by exact Hnz.
  rewrite length_take. unfold core.to_string. f_equal. lia.
Qed.

(** C9 fails on contents with an embedded zero unit: for the buffer built
    from the three units 'a', 0, 'b', [size()] is 3 but [operator<<] writes
    the single unit 'a'. *)
Theorem C9_stream_stops_at_embedded_zero :
  let s := core.from_ptr_len 8 (Some [97; 0; 98]%Z) 3 in
  core.size s = 3 /\ core.to_string s = [97; 0; 98]%Z /\
  core.stream_insert s = [97%Z] /\
  length (core.stream_insert s) <> core.size s.
Proof. vm_compute. repeat split; auto; discriminate. Qed.

(** ** Title case *)
Section title.
Import core invariant str.

Lemma is_whitespace_not_alpha ch : is_whitespace ch = true -> is_alpha ch = false.
Proof.
  unfold is_whitespace, is_alpha. intros H.
  repeat (apply orb_true_iff in H as [H|H]); apply Z.eqb_eq in H; subst ch;
    reflexivity.
Qed.

Lemma to_title_fold Cap l r prev :
  wf Cap r -> size_ r + length l <= Cap ->
  to_string (fst (fold_left (to_title_step Cap) l (r, spec.starts_word is_whitespace prev)))
    = to_string r ++ spec.title_from is_whitespace prev l.
Proof.
  revert r prev. induction l as [|ch l IH]; intros r prev Hr Hlen.
  - simpl. rewrite app_nil_r. reflexivity.
  - cbn [fold_left spec.title_from]. simpl in Hlen.
    assert (Hstep : exists x,
      to_title_step Cap (r, spec.starts_word is_whitespace prev) ch
        = (push_back Cap r x, spec.starts_word is_whitespace (Some ch)) /\
      x = (if is_alpha ch
           then if spec.starts_word is_whitespace prev then char_to_upper ch else char_to_lower ch
           else ch)).
    { unfold to_title_step. simpl.
      destruct (is_whitespace ch) eqn:Ew.
      - rewrite (is_whitespace_not_alpha ch Ew). eauto.
      - destruct (is_alpha ch); eauto. }
    destruct Hstep as (x & -> & Hx).
    destruct (to_string_push_back Cap r x Hr) as [H1 H2]; [lia|].
    rewrite IH by (auto using wf_push_back; lia).
    rewrite H1, <- app_assoc, Hx. reflexivity.
Qed.

(** With the whitespace of case.hpp, [to_title] upper-cases the alphabetic
    units at the start or right after a whitespace unit, lower-cases the
    other alphabetic units and copies the rest. *)
Lemma to_title_spec Cap s :
  wf Cap s -> to_string (to_title Cap s) = spec.title is_whitespace (to_string s).
Proof.
  intros Hs. unfold to_title, spec.title.
  rewrite (units_to_string Cap s Hs).
  change true with (spec.starts_word is_whitespace None).
  rewrite to_title_fold.
  - reflexivity.
  - apply wf_default_ctor.
  - simpl. rewrite (length_to_string Cap s Hs). apply Hs.
Qed.

End title.

(** C7 fails after a form feed or a vertical tab: case.hpp's
    [is_whitespace] knows space, tab, LF and CR only (trim.hpp and
    split.hpp list all six), so [to_title] of the units 'a', form feed, 'b'
    is 'A', form feed, 'b', where the six-unit whitespace set of the claim
    gives 'A', form feed, 'B'. *)
Theorem C7_to_title_ignores_form_feed :
  let s := core.from_ptr_len 8 (Some [97; 12; 98]%Z) 3 in
  core.to_string (str.to_title 8 s) = [65; 12; 98]%Z /\
  spec.title spec.is_whitespace6 (core.to_string s) = [65; 12; 66]%Z /\
  str.is_whitespace 12 = false /\ str.is_space 12 = true.
Proof. vm_compute. repeat split. Qed.

(** ** Fields and tokens *)
Section tokens.
Import spec.

Lemma fields_not_nil d l : fields d l <> [].
Proof.
  destruct l as [|c l]; simpl; [discriminate|].
  destruct (c =? d)%Z; [discriminate|].
  destruct (fields d l); discriminate.
Qed.

(** The fields joined with the delimiter give the string back, and no
    field contains the delimiter: the fields are the maximal
    delimiter-free runs. *)
Lemma join_fields d l : join d (fields d l) = l.
Proof.
  induction l as [|c l IH]; simpl; [reflexivity|].
  destruct (Z.eqb_spec c d) as [->|Hc].
  - pose proof (fields_not_nil d l) as Hn.
    destruct (fields d l) as [|f fs] eqn:E; [contradiction|].
    simpl. f_equal. exact IH.
  - pose proof (fields_not_nil d l) as Hn.
    destruct (fields d l) as [|f fs] eqn:E; [contradiction|].
    simpl in *. destruct fs; simpl; f_equal; exact IH.
Qed.

Lemma fields_delimiter_free d l :
  Forall (Forall (fun c => c <> d)) (fields d l).
Proof.
  induction l as [|c l IH]; simpl; [repeat constructor|].
  destruct (Z.eqb_spec c d) as [->|Hc]; [constructor; auto|].
  destruct (fields d l) as [|f fs]; [repeat constructor; auto|].
  apply Forall_cons in IH as [Hf Hfs]. constructor; auto.
Qed.

Lemma fields_app_delimiter d p t :
  fields d (p ++ d :: t) = fields d p ++ fields d t.
Proof.
  induction p as [|c p IH]; simpl.
  - rewrite Z.eqb_refl. reflexivity.
  - destruct (c =? d)%Z; rewrite IH; [reflexivity|].
    pose proof (fields_not_nil d p) as Hn.
    destruct (fields d p); [contradiction|reflexivity].
Qed.

Lemma fields_free d t : Forall (fun c => c <> d) t -> fields d t = [t].
Proof.
  induction 1 as [|c t Hc Ht IH]; simpl; [reflexivity|].
  destruct (Z.eqb_spec c d); [contradiction|]. rewrite IH. reflexivity.
Qed.

Lemma tokens_app_delimiter d p t :
  tokens d (p ++ d :: t) = tokens d p ++ tokens d t.
Proof. unfold tokens. rewrite fields_app_delimiter, filter_app. reflexivity. Qed.

Lemma tokens_free d t :
  Forall (fun c => c <> d) t -> tokens d t = if nonempty t then [t] else [].
Proof.
  intros H. unfold tokens. rewrite (fields_free d t H).
  destruct t; reflexivity.
Qed.

Lemma tokens_nil d : tokens d [] = [].
Proof. reflexivity. Qed.

(** Every token is a non-empty field. *)
Lemma tokens_nonempty d l : Forall (fun f => f <> []) (tokens d l).
Proof.
  unfold tokens. apply List.Forall_forall. intros f Hf.
  apply list_elem_of_In, list_elem_of_filter in Hf as [Hf _].
  destruct f; [discriminate|discriminate].
Qed.

End tokens.

(** ** [split] and [rsplit] *)
Section split.
Import core invariant str.

Lemma empty_to_string Cap s :
  wf Cap s -> empty s = negb (spec.nonempty (to_string s)).
Proof.
  intros Hs. pose proof (length_to_string Cap s Hs) as Hl. unfold empty.
  destruct (to_string s); simpl in *; rewrite <- Hl; reflexivity.
Qed.

Lemma length_tokens_of r :
  count_ r <= length (parts r) -> length (tokens_of r) = count_ r.
Proof.
  intros H. unfold tokens_of. rewrite length_map, length_take. lia.
Qed.

Lemma tokens_of_push_part r p :
  count_ r < length (parts r) ->
  tokens_of (push_part r p) = tokens_of r ++ [to_string p].
Proof.
  intros H. unfold tokens_of, push_part; simpl.
  rewrite (take_S_r _ (count_ r) p) by (apply list_lookup_insert_eq; lia).
  rewrite take_insert_ge by lia. rewrite map_app. reflexivity.
Qed.

Lemma length_parts_push_part r p : length (parts (push_part r p)) = length (parts r).
Proof. unfold push_part; simpl. apply length_insert. Qed.

(** Once [MaxParts] parts are stored the result no longer changes. *)
Lemma split_fold_saturated Cap MaxParts d l r cur :
  MaxParts <= count_ r ->
  fst (fold_left (split_step Cap MaxParts d) l (r, cur)) = r.
Proof.
  intros Hc. revert cur. induction l as [|ch l IH]; intros cur; [reflexivity|].
  cbn [fold_left]. unfold split_step at 2.
  destruct (Nat.ltb_spec (count_ r) MaxParts); [lia|].
  rewrite andb_false_r.
  destruct (ch =? d)%Z; [|destruct (negb (full Cap cur))]; apply IH.
Qed.

Lemma split_finish_saturated MaxParts r cur :
  MaxParts <= count_ r -> split_finish MaxParts (r, cur) = r.
Proof.
  intros Hc. unfold split_finish.
  destruct (Nat.ltb_spec (count_ r) MaxParts); [lia|].
  rewrite andb_false_r. reflexivity.
Qed.

Lemma take_app_saturated {A} (l k : list A) n : length l = n -> take n (l ++ k) = l.
Proof. intros <-. apply take_app_length. Qed.

(** The loop of [split]: with [done] the parts stored so far and the
    pending token in [current], the result holds the first [MaxParts] of
    [done] followed by the tokens of the pending token and the rest. *)
Lemma split_fold_spec Cap MaxParts d l r cur :
  wf Cap cur -> length (parts r) = MaxParts -> count_ r <= MaxParts ->
  (count_ r < MaxParts ->
   Forall (fun c => c <> d) (to_string cur) /\ size_ cur + length l <= Cap) ->
  tokens_of (split_finish MaxParts
               (fold_left (split_step Cap MaxParts d) l (r, cur)))
    = take MaxParts (tokens_of r ++ spec.tokens d (to_string cur ++ l)).
Proof.
  revert r cur. induction l as [|ch l IH]; intros r cur Hcur Hlen Hcnt Hpend.
  - cbn [fold_left]. rewrite app_nil_r.
    destruct (Nat.lt_ge_cases (count_ r) MaxParts) as [Hlt|Hge].
    + destruct (Hpend Hlt) as [Hfree _].
      rewrite (tokens_free d _ Hfree). unfold split_finish.
      rewrite (empty_to_string Cap cur Hcur), negb_involutive.
      destruct (Nat.ltb_spec (count_ r) MaxParts); [|lia].
      destruct (spec.nonempty (to_string cur)); simpl.
      * rewrite tokens_of_push_part by lia.
        rewrite take_ge; [reflexivity|].
        rewrite length_app, length_tokens_of by lia. simpl. lia.
      * rewrite app_nil_r, take_ge; [reflexivity|].
        rewrite length_tokens_of by lia. lia.
    + rewrite split_finish_saturated by lia.
      rewrite take_app_saturated; [reflexivity|].
      rewrite length_tokens_of by lia. lia.
  - cbn [fold_left].
    destruct (Nat.lt_ge_cases (count_ r) MaxParts) as [Hlt|Hge].
    + destruct (Hpend Hlt) as [Hfree Hroom]. simpl in Hroom.
      unfold split_step at 2.
      rewrite (empty_to_string Cap cur Hcur), negb_involutive.
      destruct (Nat.ltb_spec (count_ r) MaxParts); [|lia].
      rewrite andb_true_r.
      destruct (Z.eqb_spec ch d) as [->|Hne].
      * rewrite tokens_app_delimiter, (tokens_free d _ Hfree).
        destruct (spec.nonempty (to_string cur)) eqn:Hne.
        -- rewrite IH.
           ++ rewrite tokens_of_push_part by lia.
              rewrite to_string_clear, <- app_assoc. reflexivity.
           ++ apply wf_clear, Hcur.
           ++ rewrite length_parts_push_part. exact Hlen.
           ++ simpl. lia.
           ++ intros _. rewrite to_string_clear. split; [constructor|].
              simpl. lia.
        -- rewrite IH; auto.
           ++ assert (Hnil : to_string cur = [])
                by (destruct (to_string cur); [reflexivity|discriminate]).
              rewrite Hnil. reflexivity.
           ++ intros _. split; [exact Hfree | lia].
      * assert (Hnf : full Cap cur = false).
        { unfold full. apply Nat.eqb_neq. lia. }
        rewrite Hnf. simpl.
        destruct (to_string_push_back Cap cur ch Hcur) as [H1 H2]; [lia|].
        rewrite IH; auto using wf_push_back.
        -- rewrite H1, <- app_assoc. reflexivity.
        -- intros _. rewrite H1, H2. split; [|lia].
           apply Forall_app. split; [exact Hfree|]. constructor; auto.
    + assert (Hfst := split_fold_saturated Cap MaxParts d (ch :: l) r cur Hge).
      cbn [fold_left] in Hfst.
      destruct (fold_left _ l _) as [r' cur'] eqn:E. simpl in Hfst. subst r'.
      rewrite split_finish_saturated by lia.
      rewrite take_app_saturated; [reflexivity|].
      rewrite length_tokens_of by lia. lia.
Qed.

Lemma tokens_of_default Cap MaxParts :
  tokens_of (split_result_default Cap MaxParts) = [].
Proof. reflexivity. Qed.

(** [split] keeps the first [MaxParts] tokens. *)
Lemma split_spec Cap MaxParts s d :
  wf Cap s ->
  tokens_of (split Cap MaxParts s d)
    = take MaxParts (spec.tokens d (to_string s)).
Proof.
  intros Hs. unfold split. rewrite (units_to_string Cap s Hs).
  rewrite split_fold_spec.
  - reflexivity.
  - apply wf_default_ctor.
  - simpl. apply length_replicate.
  - simpl. lia.
  - intros _. split; [constructor|]. simpl.
    rewrite (length_to_string Cap s Hs). apply Hs.
Qed.

End split.

Section rsplit.
Import core invariant str.

Lemma index_to_string Cap s i :
  wf Cap s -> i < size_ s ->
  take (S i) (to_string s) = take i (to_string s) ++ [index s i].
Proof.
  intros (Hd & Hs & Ht) Hi. apply take_S_r. unfold to_string, index.
  rewrite lookup_take_lt by lia. apply lookup_deref. lia.
Qed.

Lemma reversed_loop_spec Cap cur r j :
  wf Cap cur -> wf Cap r -> j <= size_ cur -> size_ r + j <= Cap ->
  to_string (reversed_loop Cap cur r j)
    = to_string r ++ reverse (take j (to_string cur)).
Proof.
  intros Hcur. revert r. induction j as [|j IH]; intros r Hr Hj Hroom; simpl.
  - rewrite app_nil_r. reflexivity.
  - destruct (to_string_push_back Cap r (index cur j) Hr) as [H1 H2]; [lia|].
    rewrite IH by (auto using wf_push_back; lia).
    rewrite H1, (index_to_string Cap cur j Hcur) by lia.
    rewrite reverse_snoc, <- app_assoc. reflexivity.
Qed.

Lemma reversed_of_spec Cap cur :
  wf Cap cur -> to_string (reversed_of Cap cur) = reverse (to_string cur).
Proof.
  intros Hcur. unfold reversed_of, size.
  rewrite reversed_loop_spec; auto using wf_default_ctor.
  - simpl. rewrite take_ge; [reflexivity|].
    rewrite (length_to_string Cap cur Hcur). lia.
  - simpl. apply Hcur.
Qed.

Lemma rsplit_loop_saturated Cap MaxParts s d i r cur :
  MaxParts <= count_ r -> rsplit_loop Cap MaxParts s d i r cur = (r, cur).
Proof.
  intros Hc. destruct i; simpl; [reflexivity|].
  destruct (Nat.ltb_spec (count_ r) MaxParts); [lia|reflexivity].
Qed.

Lemma rsplit_finish_saturated Cap MaxParts r cur :
  MaxParts <= count_ r -> rsplit_finish Cap MaxParts (r, cur) = r.
Proof.
  intros Hc. unfold rsplit_finish.
  destruct (Nat.ltb_spec (count_ r) MaxParts); [lia|].
  rewrite andb_false_r. reflexivity.
Qed.

Lemma Forall_reverse_free (d : Z) l :
  Forall (fun c => c <> d) l -> Forall (fun c => c <> d) (reverse l).
Proof.
  intros H. apply List.Forall_forall. intros x Hx.
  rewrite List.Forall_forall in H. apply H.
  apply list_elem_of_In. apply list_elem_of_In in Hx.
  rewrite elem_of_reverse in Hx. exact Hx.
Qed.

Lemma nonempty_reverse l : spec.nonempty (reverse l) = spec.nonempty l.
Proof.
  destruct l as [|c l]; [reflexivity|].
  rewrite reverse_cons. destruct (reverse l); reflexivity.
Qed.

(** The first loop of [rsplit], reading [str] from index [i] down: with
    [done] the parts stored so far (rightmost token first) and the pending
    token, reversed, in [current], the result holds the first [MaxParts] of
    [done] followed by the remaining tokens from right to left. *)
Lemma rsplit_loop_spec Cap MaxParts s d i r cur :
  wf Cap s -> i <= size_ s -> wf Cap cur ->
  length (parts r) = MaxParts -> count_ r <= MaxParts ->
  (count_ r < MaxParts ->
   Forall (fun c => c <> d) (to_string cur) /\ size_ cur + i <= Cap) ->
  tokens_of (rsplit_finish Cap MaxParts (rsplit_loop Cap MaxParts s d i r cur))
    = take MaxParts
        (tokens_of r ++
         reverse (spec.tokens d (take i (to_string s) ++ reverse (to_string cur)))).
Proof.
  intros Hs. revert r cur.
  induction i as [|i IH]; intros r cur Hi Hcur Hlen Hcnt Hpend.
  - cbn [rsplit_loop]. change (take 0 (to_string s)) with (@nil Z). cbn [app].
    destruct (Nat.lt_ge_cases (count_ r) MaxParts) as [Hlt|Hge].
    + destruct (Hpend Hlt) as [Hfree _].
      rewrite (tokens_free d _ (Forall_reverse_free d _ Hfree)).
      rewrite nonempty_reverse. unfold rsplit_finish.
      rewrite (empty_to_string Cap cur Hcur), negb_involutive.
      destruct (Nat.ltb_spec (count_ r) MaxParts); [|lia].
      destruct (spec.nonempty (to_string cur)); simpl.
      * rewrite tokens_of_push_part by lia.
        rewrite (reversed_of_spec Cap cur Hcur).
        rewrite take_ge; [reflexivity|].
        rewrite length_app, length_tokens_of by lia. simpl. lia.
      * rewrite app_nil_r, take_ge; [reflexivity|].
        rewrite length_tokens_of by lia. lia.
    + rewrite rsplit_finish_saturated by lia.
      rewrite take_app_saturated; [reflexivity|].
      rewrite length_tokens_of by lia. lia.
  - destruct (Nat.lt_ge_cases (count_ r) MaxParts) as [Hlt|Hge].
    + destruct (Hpend Hlt) as [Hfree Hroom].
      cbn [rsplit_loop].
      destruct (Nat.ltb_spec (count_ r) MaxParts); [|lia].
      rewrite (index_to_string Cap s i Hs) by lia.
      rewrite (empty_to_string Cap cur Hcur), negb_involutive.
      destruct (Z.eqb_spec (index s i) d) as [->|Hne].
      * rewrite <- app_assoc. cbn [app].
        rewrite tokens_app_delimiter,
          (tokens_free d _ (Forall_reverse_free d _ Hfree)), nonempty_reverse.
        destruct (spec.nonempty (to_string cur)) eqn:Hne.
        -- rewrite IH.
           ++ rewrite tokens_of_push_part by lia.
              rewrite (reversed_of_spec Cap cur Hcur), to_string_clear.
              rewrite reverse_app, reverse_singleton, <- app_assoc.
              cbn [reverse app]. rewrite app_nil_r. reflexivity.
           ++ lia.
           ++ apply wf_clear, Hcur.
           ++ rewrite length_parts_push_part. exact Hlen.
           ++ simpl. lia.
           ++ intros _. rewrite to_string_clear. split; [constructor|].
              simpl. lia.
        -- rewrite IH; auto; [|lia| intros _; split; [exact Hfree|lia]].
           assert (Hnil : to_string cur = [])
             by (destruct (to_string cur); [reflexivity|discriminate]).
           rewrite Hnil, app_nil_r. cbn [reverse app].
           rewrite app_nil_r. reflexivity.
      * destruct (to_string_push_back Cap cur (index s i) Hcur) as [H1 H2]; [lia|].
        rewrite IH; auto using wf_push_back; [|lia|].
        -- rewrite H1, reverse_snoc, <- app_assoc. reflexivity.
        -- intros _. rewrite H1, H2. split; [|lia].
           apply Forall_app. split; [exact Hfree|]. constructor; auto.
    + rewrite rsplit_loop_saturated by lia.
      rewrite rsplit_finish_saturated by lia.
      rewrite take_app_saturated; [reflexivity|].
      rewrite length_tokens_of by lia. lia.
Qed.

End rsplit.

Section swap.
Import core invariant str.

Lemma insert_middle {A} (l1 l2 : list A) x y i :
  i = length l1 -> <[i := y]> (l1 ++ x :: l2) = l1 ++ y :: l2.
Proof.
  intros ->. rewrite insert_app_r_alt by lia. rewrite Nat.sub_diag. reflexivity.
Qed.

Lemma lookup_middle {A} (l1 l2 : list A) x i :
  i = length l1 -> (l1 ++ x :: l2) !! i = Some x.
Proof. intros ->. apply list_lookup_middle. reflexivity. Qed.

Lemma div2_SS m : S (S m) / 2 = S (m / 2).
Proof.
  replace (S (S m)) with (1 * 2 + m) by lia.
  rewrite Nat.div_add_l by lia. lia.
Qed.

Lemma list_ends {A} (M : list A) :
  2 <= length M -> exists x M' y, M = x :: M' ++ [y].
Proof.
  intros H. destruct M as [|x M]; [simpl in H; lia|].
  destruct (decide (M = [])) as [->|Hn]; [simpl in H; lia|].
  destruct (exists_last Hn) as (M' & y & ->). eauto.
Qed.

(** The last loop of [rsplit] reverses the segment between the parts
    already swapped. *)
Ltac norm_app := repeat first [rewrite <- app_assoc | progress cbn [app]].

Lemma swap_loop_segment Cap n :
  forall (A M B rest : list basic_fstring),
    length M / 2 = n -> length B = length A ->
    swap_loop Cap (A ++ M ++ B ++ rest)
              (length A + length M + length B) (length A) n
      = A ++ reverse M ++ B ++ rest.
Proof.
  induction n as [|n IH]; intros A M B rest Hn Hab.
  - simpl. f_equal. f_equal.
    destruct M as [|x [|y M]]; try reflexivity.
    cbn [length] in Hn. rewrite div2_SS in Hn. discriminate.
  - destruct (list_ends M) as (x & M' & y & ->).
    { destruct M as [|x [|y M]]; cbn [length] in *;
        [discriminate Hn|discriminate Hn|lia]. }
    assert (Hn' : length M' / 2 = n).
    { rewrite length_cons, length_app in Hn. cbn [length] in Hn.
      replace (S (length M' + 1)) with (S (S (length M'))) in Hn by lia.
      rewrite div2_SS in Hn. lia. }
    cbn [swap_loop].
    set (cnt := length A + length (x :: M' ++ [y]) + length B).
    assert (Hidx : cnt - 1 - length A = length (A ++ x :: M')).
    { unfold cnt. rewrite !length_app. simpl. rewrite length_app. simpl. lia. }
    assert (Hx : part_at Cap (A ++ (x :: M' ++ [y]) ++ B ++ rest) (length A) = x).
    { unfold part_at. cbn [app]. rewrite lookup_middle by reflexivity.
      reflexivity. }
    assert (Hy : part_at Cap (A ++ (x :: M' ++ [y]) ++ B ++ rest)
                   (cnt - 1 - length A) = y).
    { unfold part_at. rewrite Hidx.
      replace (A ++ (x :: M' ++ [y]) ++ B ++ rest)
        with ((A ++ x :: M') ++ y :: B ++ rest)
        by (norm_app; reflexivity).
      rewrite lookup_middle by reflexivity. reflexivity. }
    rewrite Hx, Hy, Hidx. cbn [app].
    rewrite insert_middle by reflexivity.
    replace (A ++ y :: (M' ++ [y]) ++ B ++ rest)
      with ((A ++ y :: M') ++ y :: B ++ rest)
      by (norm_app; reflexivity).
    rewrite insert_middle by (rewrite !length_app; reflexivity).
    replace ((A ++ y :: M') ++ x :: B ++ rest)
      with ((A ++ [y]) ++ M' ++ (x :: B) ++ rest)
      by (norm_app; reflexivity).
    replace (S (length A)) with (length (A ++ [y]))
      by (rewrite length_app; simpl; lia).
    replace cnt with (length (A ++ [y]) + length M' + length (x :: B)).
    2:{ unfold cnt. rewrite !length_app. simpl. rewrite length_app. simpl. lia. }
    rewrite IH; [|exact Hn'|rewrite length_app; simpl; lia].
    rewrite reverse_cons, reverse_app. norm_app. reflexivity.
Qed.

Lemma swap_loop_spec Cap ps cnt :
  cnt <= length ps ->
  swap_loop Cap ps cnt 0 (cnt / 2) = reverse (take cnt ps) ++ drop cnt ps.
Proof.
  intros H.
  pose proof (swap_loop_segment Cap (cnt / 2) [] (take cnt ps) [] (drop cnt ps))
    as Hs.
  simpl in Hs. rewrite length_take, Nat.add_0_r in Hs.
  replace (Nat.min cnt (length ps)) with cnt in Hs by lia.
  rewrite take_drop in Hs. apply Hs; reflexivity.
Qed.

End swap.

Section split_results.
Import core invariant str.

Lemma within_default Cap MaxParts : within MaxParts (split_result_default Cap MaxParts).
Proof. split; simpl; [apply length_replicate | lia]. Qed.

Lemma within_push_part MaxParts r p :
  within MaxParts r -> count_ r < MaxParts -> within MaxParts (push_part r p).
Proof.
  intros [H1 H2] Hlt. split; [rewrite length_parts_push_part; exact H1|].
  simpl. lia.
Qed.

Lemma within_split_finish MaxParts r cur :
  within MaxParts r -> within MaxParts (split_finish MaxParts (r, cur)).
Proof.
  intros H. unfold split_finish.
  destruct (Nat.ltb_spec (count_ r) MaxParts); rewrite ?andb_false_r; auto.
  destruct (negb (empty cur)); simpl; auto using within_push_part.
Qed.

Lemma within_split_fold Cap MaxParts d l r cur :
  within MaxParts r ->
  within MaxParts (fst (fold_left (split_step Cap MaxParts d) l (r, cur))).
Proof.
  revert r cur. induction l as [|ch l IH]; intros r cur H; [exact H|].
  cbn [fold_left]. unfold split_step at 2.
  destruct (ch =? d)%Z; [|destruct (negb (full Cap cur)); apply IH, H].
  destruct (Nat.ltb_spec (count_ r) MaxParts); rewrite ?andb_false_r;
    [|apply IH, H].
  destruct (negb (empty cur)); simpl; apply IH; auto using within_push_part.
Qed.

Lemma within_split Cap MaxParts s d : within MaxParts (split Cap MaxParts s d).
Proof.
  unfold split.
  pose proof (within_split_fold Cap MaxParts d (units s)
                (split_result_default Cap MaxParts) (default_ctor Cap)
                (within_default Cap MaxParts)) as H.
  destruct (fold_left _ _ _) as [r cur]. apply within_split_finish, H.
Qed.

Lemma within_rsplit_loop Cap MaxParts s d i r cur :
  within MaxParts r ->
  within MaxParts (fst (rsplit_loop Cap MaxParts s d i r cur)).
Proof.
  revert r cur. induction i as [|i IH]; intros r cur H; [exact H|].
  cbn [rsplit_loop].
  destruct (Nat.ltb_spec (count_ r) MaxParts); [|exact H].
  destruct (index s i =? d)%Z; [|apply IH, H].
  destruct (negb (empty cur)); apply IH; auto using within_push_part.
Qed.

Lemma within_rsplit_finish Cap MaxParts r cur :
  within MaxParts r -> within MaxParts (rsplit_finish Cap MaxParts (r, cur)).
Proof.
  intros H. unfold rsplit_finish.
  destruct (Nat.ltb_spec (count_ r) MaxParts); rewrite ?andb_false_r; auto.
  destruct (negb (empty cur)); simpl; auto using within_push_part.
Qed.

Lemma map_reverse {A B} (f : A -> B) l : map f (reverse l) = reverse (map f l).
Proof.
  induction l as [|x l IH]; [reflexivity|].
  simpl. rewrite !reverse_cons, map_app, IH. reflexivity.
Qed.

(** [rsplit] keeps the last [MaxParts] tokens, in left-to-right order. *)
Lemma rsplit_spec Cap MaxParts s d :
  wf Cap s ->
  let toks := spec.tokens d (to_string s) in
  tokens_of (rsplit Cap MaxParts s d) = drop (length toks - MaxParts) toks /\
  count_ (rsplit Cap MaxParts s d) = Nat.min MaxParts (length toks).
Proof.
  intros Hs toks. unfold rsplit.
  pose proof (rsplit_loop_spec Cap MaxParts s d (size s)
                (split_result_default Cap MaxParts) (default_ctor Cap) Hs) as Hl.
  pose proof (within_rsplit_loop Cap MaxParts s d (size s)
                (split_result_default Cap MaxParts) (default_ctor Cap)
                (within_default Cap MaxParts)) as Hw.
  destruct (rsplit_loop _ _ _ _ _ _ _) as [r cur]. simpl in Hw.
  apply (within_rsplit_finish Cap MaxParts r cur) in Hw.
  set (R := rsplit_finish Cap MaxParts (r, cur)) in *.
  destruct Hw as [Hw1 Hw2].
  assert (HR : tokens_of R = take MaxParts (reverse toks)).
  { rewrite Hl.
    - unfold size. simpl.
      rewrite (take_ge (to_string s))
        by (rewrite (length_to_string Cap s Hs); lia).
      rewrite app_nil_r. reflexivity.
    - reflexivity.
    - apply wf_default_ctor.
    - simpl. apply length_replicate.
    - simpl. lia.
    - intros _. split; [constructor|]. simpl. apply Hs. }
  assert (Hrev : tokens_of {| parts := swap_loop Cap (parts R) (count_ R) 0
                                        (count_ R / 2);
                              count_ := count_ R |} = reverse (tokens_of R)).
  { unfold tokens_of. cbn [parts count_].
    rewrite swap_loop_spec by lia.
    rewrite take_app_saturated
      by (rewrite length_reverse, length_take; lia).
    apply map_reverse. }
  split.
  - rewrite Hrev, HR, take_reverse, reverse_involutive. reflexivity.
  - cbn [count_]. rewrite <- (length_tokens_of R) by lia.
    rewrite HR, length_take, length_reverse. reflexivity.
Qed.

Lemma split_count Cap MaxParts s d :
  wf Cap s ->
  count_ (split Cap MaxParts s d)
    = Nat.min MaxParts (length (spec.tokens d (to_string s))).
Proof.
  intros Hs. destruct (within_split Cap MaxParts s d) as [H1 H2].
  rewrite <- (length_tokens_of (split Cap MaxParts s d)) by lia.
  rewrite (split_spec Cap MaxParts s d Hs), length_take. reflexivity.
Qed.

End split_results.

(** C3.  [split(str, d)] yields the non-empty maximal delimiter-free runs
    of [str] from left to right, the first [MaxParts] of them when there
    are more; empty fields from leading, trailing or consecutive
    delimiters are dropped.  [split("a,,b", ',')] yields "a" and "b". *)
Theorem C3_split_nonempty_runs :
  forall Cap MaxParts (s : core.basic_fstring) (d : Z),
    invariant.wf Cap s ->
    let toks := spec.tokens d (core.to_string s) in
    str.tokens_of (str.split Cap MaxParts s d) = take MaxParts toks /\
    str.count_ (str.split Cap MaxParts s d) = Nat.min MaxParts (length toks) /\
    Forall (fun f => f <> [] /\ Forall (fun c => c <> d) f) toks /\
    spec.join d (spec.fields d (core.to_string s)) = core.to_string s /\
    (let abc := core.from_ptr_len 256 (Some (lit "a,,b")) 4 in
     str.tokens_of (str.split 256 16 abc 44) = [lit "a"; lit "b"] /\
     str.count_ (str.split 256 16 abc 44) = 2).
Proof.
  intros Cap MaxParts s d Hs toks.
  split; [apply split_spec, Hs|].
  split; [apply split_count, Hs|].
  split; [|split; [apply join_fields | vm_compute; auto]].
  apply List.Forall_forall. intros f Hf. split.
  - pose proof (tokens_nonempty d (core.to_string s)) as Hn.
    rewrite List.Forall_forall in Hn. apply Hn, Hf.
  - pose proof (fields_delimiter_free d (core.to_string s)) as Hfree.
    rewrite List.Forall_forall in Hfree. apply Hfree.
    unfold toks, spec.tokens in Hf.
    apply list_elem_of_In, list_elem_of_filter in Hf as [_ Hf].
    apply list_elem_of_In, Hf.
Qed.

Lemma C3_witness :
  let s := core.from_ptr_len 8 (Some (lit ",a,,b,c,")) 8 in
  str.tokens_of (str.split 8 2 s 44) = [lit "a"; lit "b"] /\
  str.count_ (str.split 8 2 s 44) = 2.
Proof.
  pose proof (C3_split_nonempty_runs 8 2
    (core.from_ptr_len 8 (Some (lit ",a,,b,c,")) 8) 44
    (wf_from_ptr_len _ _ _)) as H.
  cbv zeta in H. destruct H as (H1 & H2 & _).
  split; [exact H1 | exact H2].
Defined.

(** C6 (as amended).  [rsplit(str, d)] yields the same tokens as
    [split(str, d)], in the same left-to-right order and with empty tokens
    skipped, whenever the string has at most [MaxParts] tokens; when it
    has more, [rsplit] keeps the last [MaxParts] tokens and [split] the
    first [MaxParts]. *)
Theorem C6_rsplit_keeps_last_tokens :
  forall Cap MaxParts (s : core.basic_fstring) (d : Z),
    invariant.wf Cap s ->
    let toks := spec.tokens d (core.to_string s) in
    str.tokens_of (str.rsplit Cap MaxParts s d)
      = drop (length toks - MaxParts) toks /\
    str.tokens_of (str.split Cap MaxParts s d) = take MaxParts toks /\
    str.count_ (str.rsplit Cap MaxParts s d) = str.count_ (str.split Cap MaxParts s d) /\
    (length toks <= MaxParts ->
     str.tokens_of (str.rsplit Cap MaxParts s d)
       = str.tokens_of (str.split Cap MaxParts s d)).
Proof.
  intros Cap MaxParts s d Hs toks.
  destruct (rsplit_spec Cap MaxParts s d Hs) as [H1 H2].
  pose proof (split_spec Cap MaxParts s d Hs) as H3.
  pose proof (split_count Cap MaxParts s d Hs) as H4.
  fold toks in H1, H2, H3, H4.
  repeat split; auto.
  - rewrite H2, H4. reflexivity.
  - intros Hle. rewrite H1, H3.
    replace (length toks - MaxParts) with 0 by lia.
    rewrite take_ge by lia. reflexivity.
Qed.

Lemma C6_witness :
  let s := core.from_ptr_len 32 (Some (lit "a.b.c.d")) 7 in
  str.tokens_of (str.rsplit 32 16 s 46) = [lit "a"; lit "b"; lit "c"; lit "d"] /\
  str.tokens_of (str.rsplit 32 16 s 46) = str.tokens_of (str.split 32 16 s 46).
Proof.
  pose proof (C6_rsplit_keeps_last_tokens 32 16
    (core.from_ptr_len 32 (Some (lit "a.b.c.d")) 7) 46
    (wf_from_ptr_len _ _ _)) as H.
  cbv zeta in H. destruct H as (H1 & _ & _ & H4).
  split; [exact H1 | apply H4; vm_compute; lia].
Defined.

(** C6 as stated fails when the tokens outnumber [MaxParts]: of the 17
    tokens of "a,b,...,q" with the default [MaxParts = 16], [split] keeps
    "a" to "p" and [rsplit] keeps "b" to "q". *)
Lemma C6_counterexample :
  let s := core.from_ptr_len 64
             (Some (lit "a,b,c,d,e,f,g,h,i,j,k,l,m,n,o,p,q")) 33 in
  str.tokens_of (str.split 64 16 s 44)
    = map lit ["a";"b";"c";"d";"e";"f";"g";"h";"i";"j";"k";"l";"m";"n";"o";"p"]%string /\
  str.tokens_of (str.rsplit 64 16 s 44)
    = map lit ["b";"c";"d";"e";"f";"g";"h";"i";"j";"k";"l";"m";"n";"o";"p";"q"]%string /\
  str.tokens_of (str.rsplit 64 16 s 44) <> str.tokens_of (str.split 64 16 s 44).
Proof. vm_compute. repeat split; discriminate. Qed.

(** ** Counting occurrences *)
Section count.
Import core invariant str.

Lemma is_prefix_short needle l :
  length l < length needle -> spec.is_prefix needle l = false.
Proof.
  revert l. induction needle as [|a needle IH]; intros l H; simpl in *; [lia|].
  destruct l as [|b l]; [reflexivity|]. simpl in H.
  rewrite IH by lia. apply andb_false_r.
Qed.

Lemma is_prefix_take needle l m :
  length needle <= m -> spec.is_prefix needle (take m l) = spec.is_prefix needle l.
Proof.
  revert l m. induction needle as [|a needle IH]; intros l m H; [reflexivity|].
  simpl in H. destruct m as [|m]; [lia|].
  destruct l as [|b l]; [reflexivity|]. simpl.
  rewrite IH by lia. reflexivity.
Qed.

Lemma match_at_is_prefix d i p j n :
  i + j + n <= length d -> j + n <= length p ->
  match_at d i p j n = spec.is_prefix (take n (drop j p)) (drop (i + j) d).
Proof.
  revert j. induction n as [|n IH]; intros j Hd Hp; [reflexivity|].
  cbn [match_at].
  rewrite (drop_S p (deref p j) j) by (apply lookup_deref; lia).
  rewrite (drop_S d (deref d (i + j)) (i + j)) by (apply lookup_deref; lia).
  cbn [take spec.is_prefix]. rewrite (Z.eqb_sym (deref p j)).
  destruct (deref d (i + j) =? deref p j)%Z; [|reflexivity].
  rewrite IH by lia. simpl. f_equal. f_equal. lia.
Qed.

Lemma occurrences_from_skip needle k l :
  spec.occurrences_from needle k l = spec.occurrences needle (drop k l).
Proof.
  revert k. induction l as [|x l IH]; intros k.
  - destruct k; reflexivity.
  - destruct k as [|k]; [reflexivity|]. simpl. apply IH.
Qed.

Lemma occurrences_short needle l :
  length l < length needle -> spec.occurrences needle l = 0.
Proof.
  unfold spec.occurrences. induction l as [|x l IH]; intros H; [reflexivity|].
  cbn [spec.occurrences_from]. rewrite is_prefix_short by exact H.
  apply IH. simpl in H. lia.
Qed.

Lemma occurrences_cons needle x l :
  spec.occurrences needle (x :: l)
    = if spec.is_prefix needle (x :: l)
      then S (spec.occurrences needle (drop (length needle - 1) l))
      else spec.occurrences needle l.
Proof.
  unfold spec.occurrences at 1. cbn [spec.occurrences_from].
  destruct (spec.is_prefix needle (x :: l)); [|reflexivity].
  rewrite occurrences_from_skip. reflexivity.
Qed.

Variables (Cap : nat) (s : basic_fstring) (p : list Z).
Hypothesis Hs : wf Cap s.
Hypothesis Hp : 0 < strlen p.

Local Abbreviation n := (strlen p).
Local Abbreviation needle := (take (strlen p) p).
Local Abbreviation c := (to_string s).

Lemma strlen_le l : strlen l <= length l.
Proof.
  induction l as [|x l IH]; simpl; [lia|]. destruct (x =? 0)%Z; lia.
Qed.

Lemma length_needle : length needle = n.
Proof. rewrite length_take. pose proof (strlen_le p). lia. Qed.

Lemma match_at_contents i :
  i + n <= size_ s ->
  match_at (data_ s) i p 0 n = spec.is_prefix needle (drop i c).
Proof.
  intros Hi. destruct Hs as (Hd & Hsz & _).
  rewrite match_at_is_prefix by (pose proof (strlen_le p); lia).
  rewrite Nat.add_0_r. cbn [drop]. unfold to_string.
  replace (drop i (take (size_ s) (data_ s)))
    with (take (size_ s - i) (drop i (data_ s))).
  - rewrite is_prefix_take by (rewrite length_needle; lia). reflexivity.
  - rewrite take_drop_commute. f_equal. f_equal. lia.
Qed.

Lemma find_scan_occurrences k :
  forall i, n <= size_ s -> i + k = S (size_ s - n) ->
    match find_scan (data_ s) p n i k with
    | None => spec.occurrences needle (drop i c) = 0
    | Some f =>
        i <= f /\ f + n <= size_ s /\
        spec.occurrences needle (drop i c)
          = S (spec.occurrences needle (drop (f + n) c))
    end.
Proof.
  assert (Hlc : length c = size_ s) by (apply (length_to_string Cap s Hs)).
  induction k as [|k IH]; intros i Hn Hik.
  - simpl. apply occurrences_short.
    rewrite length_drop, Hlc, length_needle. lia.
  - cbn [find_scan]. rewrite match_at_contents by lia.
    assert (Hi : i < length c) by lia.
    rewrite (drop_S c (deref c i) i) by (apply lookup_deref, Hi).
    rewrite occurrences_cons.
    destruct (spec.is_prefix needle (deref c i :: drop (S i) c)).
    + split; [lia|]. split; [lia|].
      rewrite drop_drop, length_needle. do 3 f_equal. lia.
    + specialize (IH (S i) Hn ltac:(lia)).
      destruct (find_scan (data_ s) p n (S i) k) as [f|]; [|exact IH].
      destruct IH as (H1 & H2 & H3). repeat split; auto; lia.
Qed.

Lemma find_occurrences pos :
  match find s (Some p) pos with
  | None => spec.occurrences needle (drop pos c) = 0
  | Some f =>
      pos <= f /\ f + n <= size_ s /\
      spec.occurrences needle (drop pos c)
        = S (spec.occurrences needle (drop (f + n) c))
  end.
Proof.
  assert (Hlc : length c = size_ s) by (apply (length_to_string Cap s Hs)).
  unfold find. cbv zeta.
  destruct (Nat.eqb_spec n 0) as [E|E]; [lia|].
  destruct (Nat.ltb_spec (size_ s) (pos + n)).
  - apply occurrences_short. rewrite length_drop, Hlc, length_needle. lia.
  - apply find_scan_occurrences; lia.
Qed.

Lemma count_loop_occurrences fuel :
  forall cnt pos, size_ s - pos <= fuel ->
    count_loop fuel s p n cnt pos = cnt + spec.occurrences needle (drop pos c).
Proof.
  assert (Hlc : length c = size_ s) by (apply (length_to_string Cap s Hs)).
  induction fuel as [|fuel IH]; intros cnt pos Hf.
  - simpl. rewrite drop_ge by lia. unfold spec.occurrences. simpl. lia.
  - cbn [count_loop]. unfold size.
    destruct (Nat.ltb_spec pos (size_ s)).
    + pose proof (find_occurrences pos) as Hfind.
      destruct (find s (Some p) pos) as [f|].
      * destruct Hfind as (H1 & H2 & H3).
        rewrite IH by lia. rewrite H3. lia.
      * rewrite Hfind. lia.
    + rewrite drop_ge by lia. unfold spec.occurrences. simpl. lia.
Qed.

Lemma count_occurrences :
  count s (Some p) = spec.occurrences needle c.
Proof.
  unfold count. cbv zeta.
  destruct (Nat.eqb_spec n 0) as [E|E]; [lia|].
  rewrite count_loop_occurrences by (unfold size; lia).
  reflexivity.
Qed.

End count.

(** C5 (as amended).  For a non-empty needle, [count(str, needle)] is the
    number of non-overlapping occurrences found scanning from the left:
    a match is counted and the scan resumes right after it.  The count of
    "l" in "hello world" is 3; the count of "ll" is 1 in "hello world" and
    in "hello" (each contains one "ll"); the count of "aa" in "aaaa" is 2. *)
Theorem C5_count_non_overlapping :
  forall Cap (s : core.basic_fstring) (needle rest : list Z),
    invariant.wf Cap s -> needle <> [] -> Forall (fun c => c <> 0%Z) needle ->
    str.count s (Some (needle ++ 0%Z :: rest))
      = spec.occurrences needle (core.to_string s) /\
    (forall x l,
       spec.occurrences needle (x :: l)
         = if spec.is_prefix needle (x :: l)
           then S (spec.occurrences needle (drop (length needle - 1) l))
           else spec.occurrences needle l) /\
    (let hello_world := core.from_literal 32 (lit "hello world" ++ [0%Z]) in
     let hello := core.from_literal 32 (lit "hello" ++ [0%Z]) in
     let aaaa := core.from_literal 32 (lit "aaaa" ++ [0%Z]) in
     str.count hello_world (Some (lit "l" ++ [0%Z])) = 3 /\
     str.count hello_world (Some (lit "ll" ++ [0%Z])) = 1 /\
     str.count hello (Some (lit "ll" ++ [0%Z])) = 1 /\
     str.count aaaa (Some (lit "aa" ++ [0%Z])) = 2).
Proof.
  intros Cap s needle rest Hs Hne Hnz.
  pose proof (strlen_zero_free needle rest Hnz) as Hlen.
  split; [|split; [intros; apply occurrences_cons | vm_compute; auto]].
  rewrite (count_occurrences Cap s _ Hs).
  - rewrite Hlen, take_app_length. reflexivity.
  - rewrite Hlen. destruct needle; [contradiction|simpl; lia].
Qed.

Lemma C5_witness :
  str.count (core.from_literal 32 (lit "banana" ++ [0%Z])) (Some (lit "ana" ++ [0%Z]))
    = 1.
Proof.
  pose proof (C5_count_non_overlapping 32
    (core.from_literal 32 (lit "banana" ++ [0%Z])) (lit "ana") []
    (wf_from_literal _ _)) as H.
  destruct H as [H _].
  - discriminate.
  - vm_compute. repeat constructor; discriminate.
  - rewrite H. reflexivity.
Defined.

(** C5 as stated fails on its own example: "hello" contains "ll", and
    the count of "ll" in "hello" is 1, not 0. *)
Lemma C5_counterexample :
  str.count (core.from_literal 32 (lit "hello" ++ [0%Z])) (Some (lit "ll" ++ [0%Z]))
    <> 0.
Proof. vm_compute. discriminate. Qed.

(** ** Integer formatting and parsing *)
Section wrap_arithmetic.
Import fmt.
Local Open Scope Z_scope.

Variable T : int_type.
Hypothesis Hbits : 0 < bits T.

Lemma modulus_pos : 0 < 2 ^ bits T.
Proof. apply Z.pow_pos_nonneg; lia. Qed.

Lemma modulus_half : 2 ^ bits T = 2 * 2 ^ (bits T - 1).
Proof.
  replace (bits T) with (Z.succ (bits T - 1)) at 1 by lia.
  rewrite Z.pow_succ_r by lia. reflexivity.
Qed.

Lemma half_pos : 0 < 2 ^ (bits T - 1).
Proof. apply Z.pow_pos_nonneg; lia. Qed.

Lemma wrap_mod x : wrap T x mod 2 ^ bits T = x mod 2 ^ bits T.
Proof.
  unfold wrap. destruct (is_signed T).
  - rewrite Zminus_mod_idemp_l. f_equal. lia.
  - apply Z.mod_mod. pose proof modulus_pos. lia.
Qed.

Lemma wrap_congruent x y :
  x mod 2 ^ bits T = y mod 2 ^ bits T -> wrap T x = wrap T y.
Proof.
  intros H. unfold wrap. destruct (is_signed T); [|exact H].
  f_equal. rewrite (Z.add_mod x), (Z.add_mod y), H by (pose proof modulus_pos; lia).
  reflexivity.
Qed.

Lemma wrap_in_range x : in_range T x -> wrap T x = x.
Proof.
  unfold in_range, min_value, max_value, wrap. intros H.
  pose proof modulus_half. pose proof half_pos.
  destruct (is_signed T).
  - rewrite Z.mod_small by lia. lia.
  - apply Z.mod_small. lia.
Qed.

Lemma wrap_zero : wrap T 0 = 0.
Proof.
  apply wrap_in_range. unfold in_range, min_value, max_value.
  pose proof half_pos. pose proof modulus_pos. destruct (is_signed T); lia.
Qed.

(** The magnitude computed by [format] for a negative value. *)
Lemma magnitude_negative v :
  - 2 ^ (bits T - 1) <= v < 0 ->
  to_unsigned T (to_unsigned T (- (v + 1)) + 1) = - v.
Proof.
  intros H. unfold to_unsigned. pose proof modulus_half. pose proof half_pos.
  rewrite (Z.mod_small (- (v + 1))) by lia. rewrite Z.mod_small by lia. lia.
Qed.

Lemma magnitude_nonnegative v :
  in_range T v -> 0 <= v -> to_unsigned T v = v.
Proof.
  unfold in_range, max_value, to_unsigned. intros H H0.
  pose proof modulus_half. pose proof half_pos.
  apply Z.mod_small. destruct (is_signed T); lia.
Qed.

End wrap_arithmetic.

Section digits.
Import fmt spec.
Local Open Scope Z_scope.

Lemma digits_lsb_chars fuel u : Forall is_digit_char (spec.digits_lsb fuel u).
Proof.
  revert u. induction fuel as [|fuel IH]; intros u; simpl; [constructor|].
  destruct (0 <? u); constructor; [|apply IH].
  unfold is_digit_char. pose proof (Z.mod_pos_bound u 10). lia.
Qed.

(** A number below [10 ^ k] has at most [k] digits. *)
Lemma length_digits_lsb fuel u (k : nat) :
  0 <= u < 10 ^ Z.of_nat k -> (length (spec.digits_lsb fuel u) <= k)%nat.
Proof.
  revert u k. induction fuel as [|fuel IH]; intros u k Hu; simpl; [lia|].
  destruct (Z.ltb_spec 0 u); simpl; [|lia].
  destruct k as [|k]; [simpl in Hu; lia|].
  apply le_n_S, IH. rewrite Nat2Z.inj_succ, Z.pow_succ_r in Hu by lia.
  split; [apply Z.div_pos; lia|].
  apply Z.div_lt_upper_bound; lia.
Qed.

Lemma eval_digits_app l1 l2 a :
  spec.eval_digits (l1 ++ l2) a = spec.eval_digits l2 (spec.eval_digits l1 a).
Proof. apply fold_left_app. Qed.

(** With enough fuel the digits, read most significant first, write [u]. *)
Lemma eval_digits_lsb (fuel : nat) u :
  0 <= u < 10 ^ Z.of_nat fuel ->
  spec.eval_digits (reverse (spec.digits_lsb fuel u)) 0 = u.
Proof.
  revert u. induction fuel as [|fuel IH]; intros u Hu.
  - simpl in Hu. simpl. lia.
  - cbn [spec.digits_lsb]. destruct (Z.ltb_spec 0 u); [|simpl; lia].
    rewrite reverse_cons, eval_digits_app, IH.
    + simpl. pose proof (Z.div_mod u 10). lia.
    + rewrite Nat2Z.inj_succ, Z.pow_succ_r in Hu by lia.
      split; [apply Z.div_pos; lia|]. apply Z.div_lt_upper_bound; lia.
Qed.

Lemma digits_lsb_nonempty (fuel : nat) u :
  0 < u -> (0 < fuel)%nat -> spec.digits_lsb fuel u <> [].
Proof.
  intros Hu Hf. destruct fuel; [lia|]. simpl.
  destruct (Z.ltb_spec 0 u); [discriminate|lia].
Qed.

Lemma digit_of_digit ch : is_digit_char ch -> digit_of ch = ch - 48.
Proof.
  unfold is_digit_char, digit_of. intros H.
  destruct (Z.leb_spec 48 ch); [|lia]. destruct (Z.leb_spec ch 57); [|lia].
  reflexivity.
Qed.

Lemma eval_digits_mono l :
  Forall is_digit_char l -> forall a, 0 <= a -> a <= spec.eval_digits l a.
Proof.
  induction 1 as [|ch l Hch Hl IH]; intros a Ha; [simpl; lia|].
  cbn [spec.eval_digits fold_left]. fold (spec.eval_digits l (a * 10 + (ch - 48))).
  unfold is_digit_char in Hch.
  specialize (IH (a * 10 + (ch - 48)) ltac:(lia)). lia.
Qed.

(** An arithmetic result within the range of [T] is that of the
    mathematical operation. *)
Lemma arith_fits T x : 0 < bits T -> in_range T x -> arith T x = Some x.
Proof.
  intros Hb Hx. unfold arith, arith_signed, arith_bits.
  unfold in_range, min_value, max_value in Hx.
  destruct (is_signed T); cbn [orb].
  - assert (Hm : 2 ^ (bits T - 1) <= 2 ^ (Z.max (bits T) 32 - 1))
      by (apply Z.pow_le_mono_r; lia).
    destruct (Z.leb_spec (- 2 ^ (Z.max (bits T) 32 - 1)) x); [|lia].
    destruct (Z.leb_spec x (2 ^ (Z.max (bits T) 32 - 1) - 1)); [|lia].
    reflexivity.
  - destruct (Z.ltb_spec (bits T) 32) as [Hn|Hw].
    + replace (Z.max (bits T) 32) with 32 by lia.
      assert (Hm : 2 ^ bits T <= 2 ^ 31) by (apply Z.pow_le_mono_r; lia).
      change (2 ^ (32 - 1)) with (2 ^ 31).
      destruct (Z.leb_spec (- 2 ^ 31) x); [|lia].
      destruct (Z.leb_spec x (2 ^ 31 - 1)); [|lia].
      reflexivity.
    + replace (Z.max (bits T) 32) with (bits T) by lia.
      rewrite Z.mod_small by lia. reflexivity.
Qed.

Lemma in_range_nonneg T x :
  0 < bits T -> 0 <= x <= max_value T -> in_range T x.
Proof.
  intros Hb Hx. unfold in_range, min_value. split; [|lia].
  pose proof (half_pos T Hb). destruct (is_signed T); lia.
Qed.

(** On digit characters that write a number within the range of [T],
    [parse_loop] computes that number and no step overflows. *)
Lemma parse_loop_digits T l :
  0 < bits T -> Forall is_digit_char l ->
  forall a, 0 <= a -> spec.eval_digits l a <= max_value T ->
    parse_loop T 10 l a = Some (spec.eval_digits l a).
Proof.
  intros Hb Hl. induction Hl as [|ch l Hch Hl IH]; intros a Ha Hmax.
  - reflexivity.
  - cbn [parse_loop]. rewrite (digit_of_digit ch Hch).
    cbn [spec.eval_digits fold_left] in Hmax |- *.
    fold (spec.eval_digits l (a * 10 + (ch - 48))) in Hmax |- *.
    pose proof Hch as Hch'. unfold is_digit_char in Hch'.
    destruct (Z.ltb_spec (ch - 48) 0); [lia|].
    destruct (Z.leb_spec 10 (ch - 48)); [lia|]. cbn [orb].
    pose proof (eval_digits_mono l Hl (a * 10 + (ch - 48)) ltac:(lia)) as Hm.
    rewrite (arith_fits T (a * 10)) by (auto; apply in_range_nonneg; auto; lia).
    rewrite (arith_fits T (a * 10 + (ch - 48)))
      by (auto; apply in_range_nonneg; auto; lia).
    rewrite wrap_in_range by (auto; apply in_range_nonneg; auto; lia).
    apply IH; lia.
Qed.

End digits.

Section format.
Import core invariant fmt spec.

(** The scratch loop stores the digits, least significant first, from
    [pos] on. *)
Lemma emit_digits_spec fuel u buffer pos :
  pos + fuel <= length buffer ->
  let ds := spec.digits_lsb fuel u in
  snd (emit_digits fuel u buffer pos) = pos + length ds /\
  length (fst (emit_digits fuel u buffer pos)) = length buffer /\
  take (pos + length ds) (fst (emit_digits fuel u buffer pos))
    = take pos buffer ++ ds.
Proof.
  revert u buffer pos. induction fuel as [|fuel IH]; intros u buffer pos Hlen; simpl.
  - rewrite Nat.add_0_r, app_nil_r. auto.
  - destruct (0 <? u)%Z; simpl.
    + destruct (IH (u / 10)%Z (<[pos := (48 + u mod 10)%Z]> buffer) (S pos))
        as (H1 & H2 & H3); [rewrite length_insert; lia|].
      rewrite length_insert in H2.
      replace (pos + S (length (spec.digits_lsb fuel (u / 10))))
        with (S pos + length (spec.digits_lsb fuel (u / 10))) by lia.
      repeat split; auto. rewrite H3.
      rewrite (take_S_r _ pos (48 + u mod 10)%Z)
        by (apply list_lookup_insert_eq; lia).
      rewrite take_insert_ge by lia. rewrite <- app_assoc. reflexivity.
    + rewrite Nat.add_0_r, app_nil_r. auto.
Qed.

Lemma copy_out_spec Cap r buffer pos :
  wf Cap r -> pos <= length buffer -> size_ r + pos <= Cap ->
  wf Cap (copy_out Cap r buffer pos) /\
  to_string (copy_out Cap r buffer pos)
    = to_string r ++ reverse (take pos buffer).
Proof.
  revert r. induction pos as [|pos IH]; intros r Hr Hp Hroom; simpl.
  - rewrite app_nil_r. auto.
  - destruct (to_string_push_back Cap r (deref buffer pos) Hr) as [H1 H2]; [lia|].
    destruct (IH (push_back Cap r (deref buffer pos))) as [H3 H4];
      [apply wf_push_back, Hr|lia|lia|].
    split; [exact H3|]. rewrite H4, H1.
    rewrite (take_S_r buffer pos (deref buffer pos))
      by (apply lookup_deref; lia).
    rewrite reverse_snoc, <- app_assoc. reflexivity.
Qed.

(** The text of [format]: "0", or the sign and the digits of the
    magnitude, provided the magnitude has fewer than [max_digits] digits. *)
Lemma format_spec T v :
  (0 < bits T)%Z -> (0 <= digits10 T)%Z -> in_range T v -> v <> 0%Z ->
  (Z.abs v < 10 ^ Z.of_nat (max_digits T - 1))%Z ->
  wf (max_digits T) (format T v) /\
  to_string (format T v)
    = sign_of T v ++ reverse (spec.digits_lsb (max_digits T) (Z.abs v)).
Proof.
  intros Hb Hd10 Hr Hv Hmag. unfold format, sign_of.
  destruct (Z.eqb_spec v 0) as [|_]; [contradiction|].
  set (Cap := max_digits T) in *.
  assert (HCap : 3 <= Cap) by (unfold Cap, max_digits; lia).
  set (negative := is_signed T && (v <? 0)%Z).
  assert (Hu : (if negative
                then to_unsigned T (to_unsigned T (- (v + 1)) + 1)
                else to_unsigned T v) = Z.abs v).
  { unfold negative. unfold in_range, min_value, max_value in Hr.
    destruct (is_signed T) eqn:Es; simpl.
    - destruct (Z.ltb_spec v 0).
      + rewrite magnitude_negative by lia. lia.
      + rewrite magnitude_nonnegative; [lia|exact Hb| |lia].
        unfold in_range, min_value, max_value. rewrite Es. lia.
    - rewrite magnitude_nonnegative; [lia|exact Hb| |lia].
      unfold in_range, min_value, max_value. rewrite Es. lia. }
  rewrite Hu.
  pose proof (emit_digits_spec Cap (Z.abs v) (replicate Cap 0%Z) 0) as He.
  rewrite length_replicate in He. specialize (He ltac:(lia)). cbv zeta in He.
  destruct (emit_digits Cap (Z.abs v) (replicate Cap 0%Z) 0) as [buffer pos].
  simpl in He. destruct He as (-> & Hlen & Htake).
  pose proof (length_digits_lsb Cap (Z.abs v) (Cap - 1)) as Hds.
  specialize (Hds ltac:(lia)).
  set (ds := spec.digits_lsb Cap (Z.abs v)) in *.
  assert (Hr0 : wf Cap (if negative then push_back Cap (default_ctor Cap) 45
                        else default_ctor Cap) /\
                to_string (if negative then push_back Cap (default_ctor Cap) 45
                           else default_ctor Cap)
                  = (if negative then [45%Z] else []) /\
                size_ (if negative then push_back Cap (default_ctor Cap) 45
                       else default_ctor Cap) <= 1).
  { destruct negative.
    - destruct (to_string_push_back Cap (default_ctor Cap) 45
                  (wf_default_ctor Cap)) as [H1 H2]; [simpl; lia|].
      rewrite H1, H2. simpl. auto using wf_push_back, wf_default_ctor.
    - simpl. auto using wf_default_ctor. }
  destruct Hr0 as (Hw & Hstr & Hsz).
  destruct (copy_out_spec Cap _ buffer (length ds) Hw) as [H1 H2]; [lia|lia|].
  split; [exact H1|]. rewrite H2, Hstr, Htake. reflexivity.
Qed.

Lemma format_zero T :
  (0 <= digits10 T)%Z ->
  wf (max_digits T) (format T 0) /\ to_string (format T 0) = [48%Z].
Proof.
  intros Hd. unfold format. simpl.
  assert (HCap : 3 <= max_digits T) by (unfold max_digits; lia).
  destruct (to_string_push_back (max_digits T) (default_ctor (max_digits T)) 48
              (wf_default_ctor _)) as [H1 H2]; [simpl; lia|].
  split; [apply wf_push_back, wf_default_ctor | exact H1].
Qed.

(** The units [parse_int] reads from index [i] on. *)
Lemma units_from Cap s i :
  wf Cap s -> map (index s) (seq i (size s - i)) = drop i (to_string s).
Proof.
  intros (Hd & Hs & Ht). unfold size, to_string.
  change (index s) with (deref (data_ s)).
  destruct (Nat.le_gt_cases i (size_ s)).
  - rewrite map_deref_seq by lia.
    rewrite take_drop_commute. do 2 f_equal. lia.
  - replace (size_ s - i) with 0 by lia. simpl.
    rewrite drop_ge; [reflexivity|]. rewrite length_take. lia.
Qed.

Lemma index_first Cap s x l :
  wf Cap s -> to_string s = x :: l -> index s 0 = x.
Proof.
  intros Hs H. unfold index. apply deref_lookup.
  assert (Hl : to_string s !! 0 = Some x) by (rewrite H; reflexivity).
  unfold to_string in Hl. apply lookup_take_Some in Hl. apply Hl.
Qed.

End format.

Section roundtrip.
Import core invariant fmt spec.

(** A value whose magnitude is within the range of [T] parses back from its
    decimal text, and no step of [parse_int] overflows. *)
Lemma parse_int_format T v :
  (0 < bits T)%Z -> (0 <= digits10 T)%Z -> in_range T v ->
  (Z.abs v < 10 ^ Z.of_nat (max_digits T - 1))%Z ->
  (Z.abs v <= max_value T)%Z ->
  parse_int T (format T v) 10 = Some v.
Proof.
  intros Hb Hd10 Hr Hmag Habs.
  assert (HCap : 3 <= max_digits T) by (unfold max_digits; lia).
  destruct (Z.eq_dec v 0%Z) as [->|Hv].
  - destruct (format_zero T Hd10) as [Hw Hstr].
    pose proof (length_to_string _ _ Hw) as Hlen. rewrite Hstr in Hlen.
    unfold parse_int, empty. rewrite <- Hlen. simpl Nat.eqb. cbv iota.
    rewrite (index_first _ _ _ _ Hw Hstr). simpl Z.eqb.
    assert (Hgoal : parse_loop T 10
              (map (index (format T 0)) (seq 0 (size (format T 0) - 0))) 0
              = Some 0%Z).
    { rewrite (units_from _ _ 0 Hw), Hstr. simpl drop. rewrite ?drop_0.
      apply (parse_loop_digits T [48%Z] Hb); [|lia|simpl; lia].
      repeat constructor; unfold is_digit_char; lia. }
    destruct (is_signed T); cbv beta iota; rewrite Hgoal; reflexivity.
  - destruct (format_spec T v Hb Hd10 Hr Hv Hmag) as [Hw Hstr].
    set (ds := spec.digits_lsb (max_digits T) (Z.abs v)) in *.
    assert (Hds : ds <> []) by (apply digits_lsb_nonempty; lia).
    assert (Hchars : Forall is_digit_char (reverse ds)).
    { apply Forall_reverse, digits_lsb_chars. }
    assert (Hval : spec.eval_digits (reverse ds) 0 = Z.abs v).
    { unfold ds. rewrite eval_digits_lsb; [reflexivity|].
      split; [lia|]. eapply Z.lt_le_trans; [exact Hmag|].
      apply Z.pow_le_mono_r; lia. }
    assert (Heval : parse_loop T 10 (reverse ds) 0 = Some (Z.abs v)).
    { rewrite (parse_loop_digits T (reverse ds) Hb Hchars 0) by lia.
      rewrite Hval. reflexivity. }
    assert (Hrev : exists x l, reverse ds = x :: l /\ is_digit_char x).
    { destruct (reverse ds) as [|x l] eqn:E.
      - apply (f_equal reverse) in E. rewrite reverse_involutive in E.
        contradiction.
      - apply Forall_cons in Hchars as [Hx _]. eauto. }
    destruct Hrev as (x & l & Hxl & Hx).
    pose proof (length_to_string _ _ Hw) as Hlen.
    assert (Hemp : (size_ (format T v) =? 0) = false).
    { apply Nat.eqb_neq. rewrite <- Hlen, Hstr, length_app, Hxl. simpl. lia. }
    clear Hlen. unfold parse_int, empty, sign_of in *. rewrite Hemp.
    destruct (is_signed T) eqn:Es; cbn [andb] in Hstr.
    + destruct (Z.ltb_spec v 0) as [Hneg|Hpos].
      * rewrite (index_first _ _ _ _ Hw Hstr). simpl Z.eqb. cbv beta iota.
        rewrite (units_from _ _ 1 Hw), Hstr. simpl drop. rewrite ?drop_0.
        rewrite Heval. replace (- Z.abs v)%Z with v by lia.
        rewrite (arith_fits T v Hb Hr), wrap_in_range by assumption.
        reflexivity.
      * simpl in Hstr. rewrite Hxl in Hstr.
        rewrite (index_first _ _ _ _ Hw Hstr).
        unfold is_digit_char in Hx.
        destruct (Z.eqb_spec x 45); [lia|]. destruct (Z.eqb_spec x 43); [lia|].
        cbv beta iota.
        rewrite (units_from _ _ 0 Hw), Hstr. simpl drop. rewrite ?drop_0.
        rewrite <- Hxl, Heval.
        replace (Z.abs v) with v by lia. reflexivity.
    + simpl in Hstr. rewrite Hxl in Hstr.
      rewrite (units_from _ _ 0 Hw), Hstr. simpl drop. rewrite ?drop_0.
      rewrite <- Hxl, Heval.
      assert (0 <= v)%Z.
      { unfold in_range, min_value in Hr. rewrite Es in Hr. lia. }
      replace (Z.abs v) with v by lia. reflexivity.
Qed.

Lemma abs_below_modulus T v :
  (0 < bits T)%Z -> in_range T v -> (Z.abs v < 2 ^ bits T)%Z.
Proof.
  intros Hb. unfold in_range, min_value, max_value.
  pose proof (modulus_half T Hb). pose proof (half_pos T Hb).
  destruct (is_signed T); lia.
Qed.

(** For the standard widths [max_digits] leaves room for the sign and
    every digit. *)
Lemma standard_bounds T :
  standard T ->
  (0 < bits T)%Z /\ (0 <= digits10 T)%Z /\
  forall v, in_range T v -> (Z.abs v < 10 ^ Z.of_nat (max_digits T - 1))%Z.
Proof.
  intros HT.
  assert (H : (0 < bits T)%Z /\ (0 <=? digits10 T)%Z = true /\
              (2 ^ bits T <=? 10 ^ Z.of_nat (max_digits T - 1))%Z = true).
  { destruct T as [b sg]. unfold standard in HT. cbn [bits] in HT.
    destruct HT as [ -> | [ -> | [ -> | -> ] ] ]; destruct sg;
      (split; [reflexivity | split; vm_compute; reflexivity]). }
  destruct H as (Hb & Hd & Hm).
  apply Z.leb_le in Hd. apply Z.leb_le in Hm.
  repeat split; auto. intros v Hv.
  pose proof (abs_below_modulus T v Hb Hv). lia.
Qed.

End roundtrip.

(** C4 fails at the most negative value of [int32_t] and of [int64_t].
    [to_fstring] writes it in full ("-2147483648"), but [parse_int]
    accumulates the magnitude in the signed type itself, where
    [214748364 * 10 + 8] does not fit: the evaluation is signed overflow,
    that is undefined behaviour, and returns no value.  [formatter::format]
    avoids this very overflow by converting to the unsigned type first.
    Every other value of every standard width parses back, the most
    negative values of [int8_t] and [int16_t] included, whose arithmetic is
    done in [int]. *)
Theorem C4_parse_int_overflows_at_minimum :
  core.to_string (fmt.to_fstring fmt.int32_t (-2147483648))
    = lit "-2147483648" /\
  fmt.parse_int fmt.int32_t (fmt.to_fstring fmt.int32_t (-2147483648)) 10
    = None /\
  fmt.parse_int fmt.int64_t
    (fmt.to_fstring fmt.int64_t (-9223372036854775808)) 10 = None /\
  (forall (T : fmt.int_type) (n : Z),
     fmt.standard T -> fmt.in_range T n ->
     (fmt.is_signed T = true -> (32 <= fmt.bits T)%Z -> n <> fmt.min_value T) ->
     fmt.parse_int T (fmt.to_fstring T n) 10 = Some n).
Proof.
  split; [vm_compute; reflexivity|].
  split; [vm_compute; reflexivity|].
  split; [vm_compute; reflexivity|].
  intros T n HT Hn Hmin.
  destruct (standard_bounds T HT) as (Hb & Hd & Hmag).
  destruct (Z_le_gt_dec (Z.abs n) (fmt.max_value T)) as [Hfit|Hbig].
  - apply parse_int_format; auto.
  - assert (Hs : fmt.is_signed T = true /\ n = fmt.min_value T).
    { unfold fmt.in_range, fmt.min_value, fmt.max_value in *.
      destruct (fmt.is_signed T); [split; [reflexivity|lia]|lia]. }
    destruct Hs as [Hs ->]. specialize (Hmin Hs).
    destruct T as [b sg]. cbn [fmt.is_signed fmt.bits] in *. subst sg.
    unfold fmt.standard in HT. cbn [fmt.bits] in HT.
    destruct HT as [ -> | [ -> | [ -> | -> ] ] ].
    + vm_compute. reflexivity.
    + vm_compute. reflexivity.
    + exfalso. apply Hmin; [lia|reflexivity].
    + exfalso. apply Hmin; [lia|reflexivity].
Qed.

(** * Further properties of the code *)

(** ** Construction and the basic modifiers of [basic_fstring] *)
Section core_contents.
Import core invariant.

Lemma to_string_set_null_terminator d sz :
  to_string (set_null_terminator {| data_ := d; size_ := sz |}) = take sz d.
Proof. unfold to_string, set_null_terminator; simpl. apply take_insert_ge. lia. Qed.

Lemma strlen_nonzero p i : i < strlen p -> deref p i <> 0%Z.
Proof.
  revert i. induction p as [|c p IH]; intros i H; simpl in H; [lia|].
  destruct (Z.eqb_spec c 0); [lia|].
  destruct i as [|i]; [exact n|]. apply IH. lia.
Qed.

Lemma strlen_terminator p : deref p (strlen p) = 0%Z.
Proof.
  induction p as [|c p IH]; simpl; [reflexivity|].
  destruct (Z.eqb_spec c 0) as [->|]; [reflexivity|exact IH].
Qed.

Lemma strlen_le_length l : strlen l <= length l.
Proof.
  induction l as [|x l IH]; simpl; [lia|]. destruct (x =? 0)%Z; lia.
Qed.

Lemma cstr_loop_spec fuel Cap p d len :
  len <= strlen p -> len <= Cap -> Cap - len <= fuel ->
  length d = S Cap -> take len d = take len p ->
  snd (cstr_loop fuel Cap p d len) = Nat.min Cap (strlen p) /\
  take (snd (cstr_loop fuel Cap p d len)) (fst (cstr_loop fuel Cap p d len))
    = take (Nat.min Cap (strlen p)) p.
Proof.
  revert d len. induction fuel as [|fuel IH]; intros d len Hl Hc Hf Hd Ht.
  - simpl. assert (len = Cap) by lia. subst len.
    rewrite Nat.min_l by lia. auto.
  - cbn [cstr_loop].
    destruct (Z.eqb_spec (deref p len) 0) as [Hz|Hnz]; cbn [negb andb].
    + assert (len = strlen p).
      { destruct (Nat.eq_dec len (strlen p)); [assumption|].
        exfalso. apply (strlen_nonzero p len); [lia|exact Hz]. }
      subst len. simpl. rewrite Nat.min_r by lia. auto.
    + assert (Hlt : len < strlen p).
      { destruct (Nat.eq_dec len (strlen p)) as [->|]; [|lia].
        exfalso. apply Hnz, strlen_terminator. }
      destruct (Nat.ltb_spec len Cap).
      * apply IH; try lia.
        -- rewrite length_insert. exact Hd.
        -- pose proof (strlen_le_length p).
           rewrite (take_S_r _ len (deref p len))
             by (apply list_lookup_insert_eq; lia).
           rewrite take_insert_ge by lia.
           rewrite (take_S_r p len (deref p len)) by (apply lookup_deref; lia).
           rewrite Ht. reflexivity.
      * assert (len = Cap) by lia. subst len. simpl.
        rewrite Nat.min_l by lia. auto.
Qed.

(** X1.  The constructor from a null-terminated pointer copies the units
    before the first terminator, and at most [Cap] of them; a null pointer
    gives the empty buffer. *)
Theorem from_cstr_contents Cap (p : list Z) :
  to_string (from_cstr Cap (Some p)) = take Cap (take (strlen p) p) /\
  size (from_cstr Cap (Some p)) = Nat.min Cap (strlen p) /\
  to_string (from_cstr Cap None) = [].
Proof.
  unfold from_cstr.
  pose proof (cstr_loop_spec Cap Cap p (data_ (default_ctor Cap)) 0) as H.
  destruct (cstr_loop Cap Cap p (data_ (default_ctor Cap)) 0) as [d len].
  simpl in H. destruct H as [H1 H2];
    [lia | lia | lia | rewrite length_replicate; reflexivity | reflexivity |].
  unfold size. rewrite to_string_set_null_terminator. subst len.
  rewrite H2, take_take. auto.
Qed.

(** X2.  The constructors from pointer and length, from an array literal
    and from a repeated unit clamp to the capacity: the buffer holds the
    first [min(Cap, len)] units of the source (the characters of the
    literal without its terminator; [min(Cap, count)] copies of [ch]). *)
Theorem constructors_clamp Cap (src chars : list Z) (len count : nat) (ch : Z) :
  len <= length src ->
  to_string (from_ptr_len Cap (Some src) len) = take (Nat.min Cap len) src /\
  to_string (from_ptr_len Cap None len) = [] /\
  to_string (from_literal Cap (chars ++ [0%Z])) = take Cap chars /\
  to_string (fill_ctor Cap count ch) = replicate (Nat.min Cap count) ch.
Proof.
  intros Hlen. unfold from_ptr_len, from_literal, fill_ctor.
  rewrite !to_string_set_null_terminator, !std_min_min.
  repeat split.
  - rewrite copy_n_spec by (simpl; rewrite ?length_replicate; lia).
    simpl. rewrite take_app_le by (rewrite length_take; lia).
    rewrite take_take. f_equal. lia.
  - rewrite length_app. simpl.
    replace (length chars + 1 - 1) with (length chars) by lia.
    rewrite copy_n_spec by (simpl; rewrite ?length_app, ?length_replicate; simpl; lia).
    simpl. rewrite take_app_le
      by (rewrite length_take, length_app; simpl; lia).
    rewrite take_take, take_app_le by lia.
    rewrite Nat.min_id, <- take_take.
    rewrite (take_ge chars (length chars)) by lia. reflexivity.
  - rewrite fill_n_spec by (simpl; rewrite length_replicate; lia).
    simpl. rewrite take_app_le by (rewrite length_replicate; lia).
    apply take_ge. rewrite length_replicate. lia.
Qed.

Lemma constructors_clamp_witness :
  to_string (from_ptr_len 3 (Some (lit "hello")) 5) = lit "hel".
Proof.
  destruct (constructors_clamp 3 (lit "hello") [] 5 0 0%Z) as [H _].
  - vm_compute. lia.
  - exact H.
Defined.

(** X3.  [substr<ResultCap>(pos, count)] holds the [count] units from
    [pos], cut at the end of the string and at [ResultCap]; a position at
    or past the end gives the empty buffer, not an error. *)
Theorem substr_contents Cap ResultCap s pos (count : option nat) :
  wf Cap s ->
  to_string (substr ResultCap s pos count)
    = take ResultCap
        (match count with
         | Some c => take c (drop pos (to_string s))
         | None => drop pos (to_string s)
         end) /\
  (size s <= pos -> to_string (substr ResultCap s pos count) = []).
Proof.
  intros Hs. pose proof Hs as (Hd & Hsz & Ht).
  assert (Hdrop : drop pos (to_string s) = take (size_ s - pos) (drop pos (data_ s))).
  { unfold to_string. destruct (Nat.le_gt_cases pos (size_ s)).
    - rewrite take_drop_commute. do 2 f_equal. lia.
    - replace (size_ s - pos) with 0 by lia.
      rewrite drop_ge by (rewrite length_take; lia). reflexivity. }
  assert (Hmain : to_string (substr ResultCap s pos count)
    = take ResultCap
        (match count with
         | Some c => take c (drop pos (to_string s))
         | None => drop pos (to_string s)
         end)).
  { unfold substr. destruct (Nat.leb_spec (size_ s) pos).
    - rewrite Hdrop. replace (size_ s - pos) with 0 by lia.
      rewrite take_0. destruct count; rewrite ?take_nil; reflexivity.
    - destruct (to_string_append ResultCap (default_ctor ResultCap)
                  (drop pos (data_ s))
                  (match count with
                   | Some c => std_min c (size_ s - pos)
                   | None => size_ s - pos
                   end)) as [H1 _].
      { apply wf_default_ctor. }
      { rewrite length_drop. destruct count; rewrite ?std_min_min; lia. }
      rewrite H1, Hdrop. simpl. rewrite Nat.sub_0_r.
      destruct count as [c|]; rewrite ?std_min_min, !take_take; f_equal; lia. }
  split; [exact Hmain|]. intros Hge. rewrite Hmain, Hdrop.
  unfold size in Hge. replace (size_ s - pos) with 0 by lia.
  rewrite take_0. destruct count; rewrite ?take_nil; reflexivity.
Qed.

Lemma substr_contents_witness :
  to_string (substr 3 (from_literal 16 (lit "hello world" ++ [0%Z])) 6 None)
    = lit "wor".
Proof.
  destruct (substr_contents 16 3 (from_literal 16 (lit "hello world" ++ [0%Z]))
              6 None (wf_from_literal _ _)) as [H _].
  exact H.
Defined.

(** X4.  [pop_back] undoes [push_back] on a buffer with room, drops the
    last unit of a non-empty buffer and leaves an empty buffer as it is. *)
Theorem pop_back_push_back Cap s ch :
  wf Cap s ->
  (size s < Cap ->
   to_string (pop_back (push_back Cap s ch)) = to_string s /\
   size (pop_back (push_back Cap s ch)) = size s) /\
  to_string (pop_back s) = take (size s - 1) (to_string s) /\
  (size s = 0 -> pop_back s = s).
Proof.
  intros Hs. pose proof Hs as (Hd & Hsz & Ht). unfold size.
  assert (Hpop : forall t, to_string (pop_back t) = take (size_ t - 1) (to_string t)).
  { intros t. unfold pop_back. destruct (Nat.ltb_spec 0 (size_ t)).
    - rewrite to_string_set_null_terminator. unfold to_string.
      rewrite take_take. f_equal. lia.
    - unfold to_string. rewrite take_take. f_equal. lia. }
  repeat split.
  - destruct (to_string_push_back Cap s ch Hs H) as [H1 H2].
    rewrite Hpop, H1, H2. simpl. rewrite Nat.sub_0_r.
    rewrite take_app_length'; [reflexivity|].
    symmetry. apply (length_to_string Cap s Hs).
  - destruct (to_string_push_back Cap s ch Hs H) as [H1 H2].
    unfold pop_back. rewrite H2. simpl. lia.
  - apply Hpop.
  - intros H0. unfold pop_back. rewrite H0. reflexivity.
Qed.

Lemma pop_back_push_back_witness :
  to_string (pop_back (push_back 8 (from_literal 8 (lit "abc" ++ [0%Z])) 100))
    = lit "abc".
Proof.
  destruct (pop_back_push_back 8 (from_literal 8 (lit "abc" ++ [0%Z])) 100
              (wf_from_literal _ _)) as [H _].
  destruct H as [H _]; [vm_compute; lia|exact H].
Defined.

(** X5.  [resize(n, ch)] clamps [n] to the capacity; it truncates the
    contents to the new size or pads them with [ch] up to it. *)
Theorem resize_contents Cap s new_size ch :
  wf Cap s ->
  let n := Nat.min new_size Cap in
  to_string (resize Cap s new_size ch)
    = take n (to_string s) ++ replicate (n - size s) ch /\
  size (resize Cap s new_size ch) = n.
Proof.
  intros (Hd & Hsz & Ht) n. unfold resize, size.
  rewrite to_string_set_null_terminator, std_min_min. fold n.
  split; [|reflexivity].
  destruct (Nat.ltb_spec (size_ s) n).
  - rewrite fill_n_spec by (unfold n in *; lia).
    replace (size_ s + (n - size_ s)) with n by lia.
    rewrite take_app, length_take.
    replace (Nat.min (size_ s) (length (data_ s))) with (size_ s) by lia.
    rewrite take_app_length' by (rewrite length_replicate; reflexivity).
    reflexivity.
  - replace (n - size_ s) with 0 by lia. simpl. rewrite app_nil_r.
    unfold to_string. rewrite take_take. f_equal. lia.
Qed.

Lemma resize_contents_witness :
  to_string (resize 8 (from_literal 8 (lit "abc" ++ [0%Z])) 20 120)
    = lit "abcxxxxx".
Proof.
  destruct (resize_contents 8 (from_literal 8 (lit "abc" ++ [0%Z])) 20 120
              (wf_from_literal _ _)) as [H _].
  exact H.
Defined.

(** X6.  [operator+] of two buffers never truncates: the result, of
    capacity [Cap + N], holds the contents of the left operand followed by
    those of the right one. *)
Theorem plus_concatenates Cap N s rhs :
  wf Cap s -> wf N rhs ->
  to_string (plus Cap N s rhs) = to_string s ++ to_string rhs /\
  size (plus Cap N s rhs) = size s + size rhs.
Proof.
  intros Hs Hr. pose proof Hs as (Hd & Hsz & Ht). pose proof Hr as (Hd' & Hsz' & Ht').
  unfold plus, size.
  destruct (to_string_append (Cap + N) (default_ctor (Cap + N))
              (data_ s) (size_ s)) as [H1 H2].
  { apply wf_default_ctor. } { lia. }
  set (r1 := append (Cap + N) (default_ctor (Cap + N)) (Some (data_ s)) (size_ s)) in *.
  simpl in H1, H2.
  replace (Nat.min (size_ s) (Cap + N - 0)) with (size_ s) in * by lia.
  destruct (to_string_append (Cap + N) r1 (data_ rhs) (size_ rhs)) as [H3 H4].
  { apply wf_append, wf_default_ctor. } { lia. }
  rewrite H2 in H3, H4.
  replace (Nat.min (size_ rhs) (Cap + N - size_ s)) with (size_ rhs) in * by lia.
  rewrite H3, H4, H1. auto.
Qed.

Lemma plus_concatenates_witness :
  to_string (plus 4 4 (from_literal 4 (lit "abcd" ++ [0%Z]))
                      (from_literal 4 (lit "efgh" ++ [0%Z])))
    = lit "abcdefgh".
Proof.
  destruct (plus_concatenates 4 4 (from_literal 4 (lit "abcd" ++ [0%Z]))
              (from_literal 4 (lit "efgh" ++ [0%Z]))
              (wf_from_literal _ _) (wf_from_literal _ _)) as [H _].
  exact H.
Defined.

End core_contents.

(** ** Searching in a [basic_fstring] *)
Section core_search.
Import core invariant.

Lemma deref_to_string Cap s i :
  wf Cap s -> i < size_ s -> to_string s !! i = Some (deref (data_ s) i).
Proof.
  intros (Hd & Hsz & Ht) Hi. unfold to_string.
  rewrite lookup_take_lt by lia. apply lookup_deref. lia.
Qed.

Lemma find_char_scan_spec d ch n :
  forall i,
    match find_char_scan d ch i n with
    | Some j => i <= j < i + n /\ deref d j = ch /\
                forall k, i <= k < j -> deref d k <> ch
    | None => forall k, i <= k < i + n -> deref d k <> ch
    end.
Proof.
  induction n as [|n IH]; intros i; simpl; [intros; lia|].
  destruct (Z.eqb_spec (deref d i) ch) as [E|E].
  - repeat split; auto; try lia; intros; lia.
  - specialize (IH (S i)).
    destruct (find_char_scan d ch (S i) n) as [j|].
    + destruct IH as (H1 & H2 & H3). repeat split; auto; try lia.
      intros k Hk. destruct (Nat.eq_dec k i) as [->|]; [exact E|].
      apply H3. lia.
    + intros k Hk. destruct (Nat.eq_dec k i) as [->|]; [exact E|].
      apply IH. lia.
Qed.

(** X7.  [find(ch, pos)] returns the first index at or after [pos] whose
    unit is [ch], and [npos] exactly when there is none; a start position
    past the end gives [npos]. *)
Theorem find_char_first Cap s ch pos :
  wf Cap s ->
  match find_char s ch pos with
  | Some j => pos <= j < size s /\ to_string s !! j = Some ch /\
              forall k, pos <= k < j -> to_string s !! k <> Some ch
  | None => forall k, pos <= k -> to_string s !! k <> Some ch
  end.
Proof.
  intros Hs. unfold find_char, size.
  pose proof (find_char_scan_spec (data_ s) ch (size_ s - pos) pos) as H.
  destruct (find_char_scan (data_ s) ch pos (size_ s - pos)) as [j|].
  - destruct H as (H1 & H2 & H3). split; [lia|]. split.
    + rewrite (deref_to_string Cap s j Hs) by lia. congruence.
    + intros k Hk. rewrite (deref_to_string Cap s k Hs) by lia.
      intros E. apply (H3 k Hk). congruence.
  - intros k Hk. destruct (Nat.lt_ge_cases k (size_ s)).
    + rewrite (deref_to_string Cap s k Hs) by lia.
      intros E. apply (H k); [lia|congruence].
    + unfold to_string. rewrite lookup_take_ge by lia. discriminate.
Qed.

Lemma find_char_first_witness :
  let s := from_literal 16 (lit "hello world" ++ [0%Z]) in
  find_char s 111 5 = Some 7 /\
  forall k, 5 <= k < 7 -> to_string s !! k <> Some 111%Z.
Proof.
  pose proof (find_char_first 16 (from_literal 16 (lit "hello world" ++ [0%Z]))
                111 5 (wf_from_literal _ _)) as H.
  change (find_char (from_literal 16 (lit "hello world" ++ [0%Z])) 111 5)
    with (Some 7) in H.
  destruct H as (_ & _ & H). split; [reflexivity | exact H].
Defined.

Lemma rfind_scan_spec d ch i :
  match rfind_scan d ch i with
  | Some j => j < i /\ deref d j = ch /\ forall k, j < k < i -> deref d k <> ch
  | None => forall k, k < i -> deref d k <> ch
  end.
Proof.
  induction i as [|i IH]; simpl; [intros; lia|].
  destruct (Z.eqb_spec (deref d i) ch) as [E|E].
  - repeat split; auto; try lia; intros; lia.
  - destruct (rfind_scan d ch i) as [j|].
    + destruct IH as (H1 & H2 & H3). repeat split; auto.
      intros k Hk. destruct (Nat.eq_dec k i) as [->|]; [exact E|].
      apply H3. lia.
    + intros k Hk. destruct (Nat.eq_dec k i) as [->|]; [exact E|].
      apply IH. lia.
Qed.

(** X8.  [rfind(ch, pos)] returns the last index at or before
    [min(pos, size() - 1)] whose unit is [ch], and [npos] exactly when
    there is none; on an empty buffer it returns [npos]. *)
Theorem rfind_last Cap s ch (pos : option nat) :
  wf Cap s ->
  let bound := match pos with
               | None => size s
               | Some p => Nat.min (S p) (size s)
               end in
  match rfind s ch pos with
  | Some j => j < bound /\ to_string s !! j = Some ch /\
              forall k, j < k < bound -> to_string s !! k <> Some ch
  | None => forall k, k < bound -> to_string s !! k <> Some ch
  end.
Proof.
  intros Hs bound. unfold rfind, size in *.
  destruct (Nat.eqb_spec (size_ s) 0) as [E0|E0].
  { intros k Hk. assert (bound = 0) by (unfold bound; destruct pos; lia). lia. }
  assert (Hb : (match pos with
                | None => size_ s - 1
                | Some p => if size_ s <=? p then size_ s - 1 else p
                end) + 1 = bound).
  { unfold bound. destruct pos as [p|]; [|lia].
    destruct (Nat.leb_spec (size_ s) p); lia. }
  rewrite Hb.
  assert (Hle : bound <= size_ s) by (unfold bound; destruct pos; lia).
  pose proof (rfind_scan_spec (data_ s) ch bound) as H.
  destruct (rfind_scan (data_ s) ch bound) as [j|].
  - destruct H as (H1 & H2 & H3). split; [lia|]. split.
    + rewrite (deref_to_string Cap s j Hs) by lia. congruence.
    + intros k Hk. rewrite (deref_to_string Cap s k Hs) by lia.
      intros E. apply (H3 k Hk). congruence.
  - intros k Hk. rewrite (deref_to_string Cap s k Hs) by lia.
    intros E. apply (H k Hk). congruence.
Qed.

Lemma rfind_last_witness :
  let s := from_literal 16 (lit "hello world" ++ [0%Z]) in
  rfind s 111 None = Some 7 /\
  forall k, 7 < k < 11 -> to_string s !! k <> Some 111%Z.
Proof.
  pose proof (rfind_last 16 (from_literal 16 (lit "hello world" ++ [0%Z]))
                111 None (wf_from_literal _ _)) as H.
  cbv zeta in H.
  change (rfind (from_literal 16 (lit "hello world" ++ [0%Z])) 111 None)
    with (Some 7) in H.
  destruct H as (_ & _ & H). split; [reflexivity | exact H].
Defined.

Lemma is_prefix_app needle l : spec.is_prefix needle (needle ++ l) = true.
Proof.
  induction needle as [|a needle IH]; [reflexivity|].
  simpl. rewrite Z.eqb_refl. exact IH.
Qed.

Lemma is_prefix_true needle l :
  spec.is_prefix needle l = true <-> exists rest, l = needle ++ rest.
Proof.
  split.
  - revert l. induction needle as [|a needle IH]; intros l H; [eauto|].
    destruct l as [|b l]; [discriminate|]. simpl in H.
    apply andb_true_iff in H as [H1 H2]. apply Z.eqb_eq in H1. subst b.
    destruct (IH l H2) as [rest ->]. eauto.
  - intros [rest ->]. apply is_prefix_app.
Qed.

Lemma find_scan_first Cap s p k :
  wf Cap s -> 0 < strlen p ->
  forall i, strlen p <= size_ s -> i + k = S (size_ s - strlen p) ->
    match find_scan (data_ s) p (strlen p) i k with
    | Some f =>
        i <= f /\ f + strlen p <= size_ s /\
        spec.is_prefix (take (strlen p) p) (drop f (to_string s)) = true /\
        forall j, i <= j < f ->
          spec.is_prefix (take (strlen p) p) (drop j (to_string s)) = false
    | None =>
        forall j, i <= j ->
          spec.is_prefix (take (strlen p) p) (drop j (to_string s)) = false
    end.
Proof.
  intros Hs Hp.
  assert (Hlc : length (to_string s) = size_ s) by (apply (length_to_string Cap s Hs)).
  assert (Hn : length (take (strlen p) p) = strlen p).
  { rewrite length_take. pose proof (strlen_le_length p). lia. }
  induction k as [|k IH]; intros i Hle Hik.
  - simpl. intros j Hj. apply is_prefix_short.
    rewrite length_drop, Hlc, Hn. lia.
  - cbn [find_scan]. rewrite (match_at_contents Cap s p Hs Hp) by lia.
    destruct (spec.is_prefix (take (strlen p) p) (drop i (to_string s))) eqn:E.
    + repeat split; auto; try lia; intros; lia.
    + specialize (IH (S i) Hle ltac:(lia)).
      destruct (find_scan (data_ s) p (strlen p) (S i) k) as [f|].
      * destruct IH as (H1 & H2 & H3 & H4). repeat split; auto; try lia.
        intros j Hj. destruct (Nat.eq_dec j i) as [->|]; [exact E|].
        apply H4. lia.
      * intros j Hj. destruct (Nat.eq_dec j i) as [->|]; [exact E|].
        apply IH. lia.
Qed.

(** The index [find] returns for a needle that is not empty. *)
Lemma find_nonempty_needle Cap s (needle rest : list Z) pos :
  wf Cap s -> Forall (fun c => c <> 0%Z) needle -> needle <> [] ->
  match find s (Some (needle ++ 0%Z :: rest)) pos with
  | Some f =>
      pos <= f /\
      (exists tail, drop f (to_string s) = needle ++ tail) /\
      forall j, pos <= j < f ->
        ~ exists tail, drop j (to_string s) = needle ++ tail
  | None =>
      forall j, pos <= j ->
        ~ exists tail, drop j (to_string s) = needle ++ tail
  end.
Proof.
  intros Hs Hnz Hne.
  pose proof (strlen_zero_free needle rest Hnz) as Hlen.
  assert (Hpos : 0 < strlen (needle ++ 0%Z :: rest)).
  { rewrite Hlen. destruct needle; [contradiction|simpl; lia]. }
  assert (Htake : take (strlen (needle ++ 0%Z :: rest)) (needle ++ 0%Z :: rest) = needle).
  { rewrite Hlen. apply take_app_length. }
  assert (Hlc : length (to_string s) = size_ s) by (apply (length_to_string Cap s Hs)).
  assert (Hshort : forall j, size_ s < j + length needle ->
            ~ exists tail, drop j (to_string s) = needle ++ tail).
  { intros j Hj [tail E]. apply (f_equal length) in E.
    rewrite length_drop, length_app, Hlc in E. lia. }
  unfold find.
  destruct (Nat.eqb_spec (strlen (needle ++ 0%Z :: rest)) 0) as [E0|_]; [lia|].
  destruct (Nat.ltb_spec (size_ s) (pos + strlen (needle ++ 0%Z :: rest))) as [Hlt|Hge].
  - intros j Hj. apply Hshort. rewrite Hlen in Hlt. lia.
  - pose proof (find_scan_first Cap s (needle ++ 0%Z :: rest)
                  (S (size_ s - strlen (needle ++ 0%Z :: rest)) - pos)
                  Hs Hpos pos ltac:(lia) ltac:(lia)) as H.
    destruct (find_scan _ _ _ _ _) as [f|].
    + destruct H as (H1 & H2 & H3 & H4). rewrite Htake in H3, H4.
      split; [exact H1|]. split; [apply is_prefix_true, H3|].
      intros j Hj Hex. apply is_prefix_true in Hex.
      rewrite (H4 j Hj) in Hex. discriminate.
    + rewrite Htake in H. intros j Hj Hex. apply is_prefix_true in Hex.
      rewrite (H j Hj) in Hex. discriminate.
Qed.



End core_search.

Section core_prefix_suffix.
Import core invariant.

Lemma drop_to_string_cons Cap s i :
  wf Cap s -> i < size_ s ->
  drop i (to_string s) = deref (data_ s) i :: drop (S i) (to_string s).
Proof.
  intros Hs Hi. apply drop_S. apply (deref_to_string Cap s i Hs Hi).
Qed.

Lemma starts_with_loop_spec Cap s needle rest :
  wf Cap s -> Forall (fun c => c <> 0%Z) needle ->
  forall i,
    starts_with_loop s (needle ++ 0%Z :: rest) i
      = spec.is_prefix needle (drop i (to_string s)).
Proof.
  intros Hs Hnz. induction Hnz as [|a needle Ha Hnz IH]; intros i.
  - reflexivity.
  - cbn [app starts_with_loop]. destruct (Z.eqb_spec a 0); [contradiction|].
    destruct (Nat.leb_spec (size_ s) i) as [Hge|Hlt]; cbn [orb].
    + rewrite drop_ge by (rewrite (length_to_string Cap s Hs); lia).
      reflexivity.
    + rewrite (drop_to_string_cons Cap s i Hs Hlt). cbn [spec.is_prefix].
      rewrite (Z.eqb_sym a).
      destruct (deref (data_ s) i =? a)%Z; [apply IH|reflexivity].
Qed.

(** X10.  [starts_with(str)] holds exactly when the contents begin with
    the needle, [ends_with(str)] exactly when they end with it; both hold
    for the empty needle and fail for a null pointer. *)
Theorem starts_ends_with_spec Cap s (needle rest : list Z) :
  wf Cap s -> Forall (fun c => c <> 0%Z) needle ->
  (starts_with s (Some (needle ++ 0%Z :: rest)) = true
     <-> exists tail, to_string s = needle ++ tail) /\
  (ends_with s (Some (needle ++ 0%Z :: rest)) = true
     <-> exists front, to_string s = front ++ needle) /\
  starts_with s None = false /\ ends_with s None = false.
Proof.
  intros Hs Hnz.
  assert (Hlc : length (to_string s) = size_ s) by (apply (length_to_string Cap s Hs)).
  split; [|split; [|split; reflexivity]].
  - unfold starts_with. rewrite (starts_with_loop_spec Cap s needle rest Hs Hnz).
    rewrite drop_0. apply is_prefix_true.
  - unfold ends_with. rewrite (strlen_zero_free needle rest Hnz).
    destruct (Nat.ltb_spec (size_ s) (length needle)) as [Hlt|Hge].
    + split; [discriminate|]. intros [front E].
      apply (f_equal length) in E. rewrite length_app, Hlc in E. lia.
    + assert (Hm : match_at (data_ s) (size_ s - length needle)
                     (needle ++ 0%Z :: rest) 0 (length needle)
                   = spec.is_prefix needle
                       (drop (size_ s - length needle) (to_string s))).
      { destruct Hs as (Hd & Hsz & Ht).
        rewrite match_at_is_prefix by (rewrite ?length_app; simpl; lia).
        rewrite Nat.add_0_r, drop_0, take_app_length.
        unfold to_string.
        replace (drop (size_ s - length needle) (take (size_ s) (data_ s)))
          with (take (length needle) (drop (size_ s - length needle) (data_ s))).
        - symmetry. apply is_prefix_take. lia.
        - rewrite take_drop_commute. do 2 f_equal. lia. }
      rewrite Hm, is_prefix_true. split.
      * intros [tail E]. exists (take (size_ s - length needle) (to_string s)).
        assert (tail = []).
        { apply (f_equal length) in E.
          rewrite length_drop, length_app, Hlc in E.
          destruct tail; [reflexivity|simpl in E; lia]. }
        subst tail. rewrite app_nil_r in E.
        rewrite <- (take_drop (size_ s - length needle) (to_string s)) at 1.
        rewrite E. reflexivity.
      * intros [front E]. exists []. rewrite app_nil_r, E.
        apply drop_app_length'. apply (f_equal length) in E.
        rewrite length_app, Hlc in E. lia.
Qed.

Lemma starts_ends_with_spec_witness :
  let s := from_literal 16 (lit "hello world" ++ [0%Z]) in
  starts_with s (Some (lit "hello" ++ [0%Z])) = true /\
  ends_with s (Some (lit "world" ++ [0%Z])) = true.
Proof.
  split.
  - apply (starts_ends_with_spec 16 _ (lit "hello") [] (wf_from_literal _ _)).
    + vm_compute. repeat constructor; discriminate.
    + exists (lit " world"). reflexivity.
  - apply (starts_ends_with_spec 16 _ (lit "world") [] (wf_from_literal _ _)).
    + vm_compute. repeat constructor; discriminate.
    + exists (lit "hello "). reflexivity.
Defined.

(** X11.  For a non-empty needle [contains(str)] holds exactly when the
    needle occurs somewhere in the contents, which is exactly when
    [count(str, needle)] is positive. *)
Theorem contains_iff_count_positive Cap s (needle rest : list Z) :
  wf Cap s -> needle <> [] -> Forall (fun c => c <> 0%Z) needle ->
  (contains s (Some (needle ++ 0%Z :: rest)) = true
     <-> exists front tail, to_string s = front ++ needle ++ tail) /\
  (contains s (Some (needle ++ 0%Z :: rest)) = true
     <-> 0 < str.count s (Some (needle ++ 0%Z :: rest))).
Proof.
  intros Hs Hne Hnz.
  pose proof (strlen_zero_free needle rest Hnz) as Hlen.
  assert (Hpos : 0 < strlen (needle ++ 0%Z :: rest)).
  { rewrite Hlen. destruct needle; [contradiction|simpl; lia]. }
  pose proof (find_nonempty_needle Cap s needle rest 0 Hs Hnz Hne) as Hf.
  pose proof (find_occurrences Cap s _ Hs Hpos 0) as Ho.
  rewrite (count_occurrences Cap s _ Hs Hpos).
  rewrite drop_0 in Ho. unfold contains.
  destruct (find s (Some (needle ++ 0%Z :: rest)) 0) as [f|].
  - destruct Hf as (_ & [tail Ht] & _). destruct Ho as (_ & _ & Ho).
    split; split; auto; intros _; [|rewrite Ho; lia].
    exists (take f (to_string s)), tail.
    rewrite <- Ht. symmetry. apply take_drop.
  - split; split; try discriminate.
    + intros (front & tail & E). exfalso.
      apply (Hf (length front)); [lia|]. exists tail.
      rewrite E. apply drop_app_length.
    + rewrite Ho. lia.
Qed.

Lemma contains_iff_count_positive_witness :
  let s := from_literal 16 (lit "hello world" ++ [0%Z]) in
  contains s (Some (lit "o w" ++ [0%Z])) = true.
Proof.
  apply (contains_iff_count_positive 16 _ (lit "o w") [] (wf_from_literal _ _)).
  - discriminate.
  - vm_compute. repeat constructor; discriminate.
  - vm_compute. lia.
Defined.

Lemma count_char_fold ch l a :
  fold_left (fun cnt c => if (c =? ch)%Z then S cnt else cnt) l a
    = a + length (filter (fun c => c = ch) l).
Proof.
  revert a. induction l as [|x l IH]; intros a; simpl; [lia|].
  rewrite IH. destruct (Z.eqb_spec x ch).
  - rewrite filter_cons_True by assumption. simpl. lia.
  - rewrite filter_cons_False by assumption. lia.
Qed.

Lemma occurrences_single ch l :
  spec.occurrences [ch] l = length (filter (fun c => c = ch) l).
Proof.
  induction l as [|x l IH]; [reflexivity|].
  rewrite occurrences_cons. cbn [spec.is_prefix length Nat.sub].
  rewrite drop_0, andb_true_r. destruct (Z.eqb_spec ch x).
  - rewrite filter_cons_True by auto. simpl. rewrite IH. reflexivity.
  - rewrite filter_cons_False by auto. exact IH.
Qed.

(** X12.  [count(str, ch)] is the number of units of the contents equal to
    [ch]; for a non-zero [ch] it agrees with the substring count of the
    one-unit needle. *)
Theorem count_char_spec Cap s ch :
  wf Cap s ->
  str.count_char s ch = length (filter (fun c => c = ch) (to_string s)) /\
  (ch <> 0%Z -> str.count s (Some [ch; 0%Z]) = str.count_char s ch).
Proof.
  intros Hs.
  assert (H1 : str.count_char s ch = length (filter (fun c => c = ch) (to_string s))).
  { unfold str.count_char. rewrite (units_to_string Cap s Hs), count_char_fold.
    reflexivity. }
  split; [exact H1|]. intros Hch.
  rewrite H1. rewrite (count_occurrences Cap s [ch; 0%Z] Hs).
  - simpl. destruct (Z.eqb_spec ch 0); [contradiction|]. simpl.
    apply occurrences_single.
  - simpl. destruct (Z.eqb_spec ch 0); [contradiction|]. simpl. lia.
Qed.

Lemma count_char_spec_witness :
  let s := from_literal 16 (lit "hello world" ++ [0%Z]) in
  str.count_char s 108 = 3 /\ str.count s (Some [108; 0]%Z) = str.count_char s 108.
Proof.
  destruct (count_char_spec 16 (from_literal 16 (lit "hello world" ++ [0%Z])) 108
              (wf_from_literal _ _)) as [H1 H2].
  split; [exact H1 | apply H2; discriminate].
Defined.

End core_prefix_suffix.

(** ** Editing a [zuu::string]: erase, insert, replace, reverse *)
Section string_editing.
Import constant_string invariant.

Lemma memmove_string_spec d dst_off src_off n :
  src_off + n <= List.length d -> dst_off + n <= List.length d ->
  memmove_string d dst_off src_off n
    = take dst_off d ++ take n (drop src_off d) ++ drop (dst_off + n) d.
Proof.
  intros Hs Hd. unfold memmove_string.
  rewrite copy_n_spec by (rewrite ?length_take, ?length_drop; lia).
  rewrite take_take, Nat.min_id. reflexivity.
Qed.

Lemma contents_intro d len :
  contents {| data_ := <[len := 0%Z]> d; len_ := len |} = take len d.
Proof. unfold contents; simpl. apply take_insert_ge. lia. Qed.

Lemma length_contents N t : wf_string N t -> List.length (contents t) = len_ t.
Proof. intros (Hd & Hl & Ht). unfold contents. rewrite length_take. lia. Qed.

Lemma drop_contents t i :
  drop i (contents t) = take (len_ t - i) (drop i (data_ t)).
Proof.
  unfold contents. destruct (Nat.le_gt_cases i (len_ t)).
  - rewrite take_drop_commute. do 2 f_equal. lia.
  - replace (len_ t - i) with 0 by lia.
    rewrite drop_ge by (rewrite length_take; lia). reflexivity.
Qed.

(** The contents [erase] leaves. *)
Lemma contents_erase N t pos (count : option nat) :
  wf_string N t ->
  contents (erase t pos count)
    = take pos (contents t) ++
      (match count with
       | Some c => drop (pos + c) (contents t)
       | None => []
       end).
Proof.
  intros Ht. pose proof Ht as (Hd & Hl & Hz).
  pose proof (length_contents N t Ht) as Hlc.
  unfold erase. destruct (Nat.leb_spec (len_ t) pos) as [Hge|Hlt].
  { rewrite take_ge by lia.
    destruct count; rewrite ?drop_ge by lia; rewrite app_nil_r; reflexivity. }
  set (to_erase := match count with
                   | Some c => std_min c (len_ t - pos)
                   | None => len_ t - pos
                   end).
  assert (He : to_erase <= len_ t - pos).
  { unfold to_erase. destruct count; rewrite ?std_min_min; lia. }
  assert (Htail : (match count with
                   | Some c => drop (pos + c) (contents t)
                   | None => []
                   end) = drop (pos + to_erase) (contents t)).
  { unfold to_erase. destruct count as [c|].
    - rewrite std_min_min. destruct (Nat.le_gt_cases c (len_ t - pos)).
      + rewrite Nat.min_l by lia. reflexivity.
      + rewrite Nat.min_r by lia. rewrite !drop_ge by lia. reflexivity.
    - rewrite drop_ge by lia. reflexivity. }
  rewrite Htail, contents_intro, drop_contents.
  set (m := len_ t - (pos + to_erase)).
  replace (len_ t - to_erase) with (pos + m) by (unfold m; lia).
  destruct (Nat.ltb_spec 0 m) as [Hm|Hm].
  - rewrite memmove_string_spec by (unfold m; lia).
    rewrite take_app_add' by (rewrite length_take; lia).
    rewrite take_app_le by (rewrite length_take, length_drop; unfold m; lia).
    rewrite take_take, Nat.min_id. unfold contents. rewrite take_take.
    f_equal. f_equal. lia.
  - replace m with 0 by lia. rewrite take_0, app_nil_r, Nat.add_0_r.
    unfold contents. rewrite take_take. f_equal. lia.
Qed.

(** X13.  [erase(pos, count)] removes the [count] units from [pos] (all
    the units from [pos] when [count] reaches past the end or is [npos])
    and keeps the units before and after; a position at or past the end
    changes nothing. *)
Theorem erase_contents N t pos (count : option nat) :
  wf_string N t ->
  contents (erase t pos count)
    = take pos (contents t) ++
      (match count with
       | Some c => drop (pos + c) (contents t)
       | None => []
       end) /\
  (len_ t <= pos -> erase t pos count = t).
Proof.
  intros Ht. split; [apply (contents_erase N), Ht|].
  intros Hge. unfold erase.
  destruct (Nat.leb_spec (len_ t) pos); [reflexivity|lia].
Qed.

Lemma erase_contents_witness :
  contents (erase (from_literal 16 (lit "hello world" ++ [0%Z])) 5 (Some 6))
    = lit "hello".
Proof.
  destruct (erase_contents 16 (from_literal 16 (lit "hello world" ++ [0%Z]))
              5 (Some 6) (wf_string_from_literal _ _)) as [H _].
  exact H.
Defined.

(** The array of [t] after [insert] has shifted the tail from [pos] by
    [k] units. *)
Local Abbreviation shifted t pos k :=
  (if 0 <? len_ t - pos
   then memmove_string (data_ t) (pos + k) pos (len_ t - pos)
   else data_ t).

Lemma shifted_spec N t pos k :
  wf_string N t -> pos <= len_ t -> k <= N - len_ t ->
  List.length (shifted t pos k) = S N /\
  take pos (shifted t pos k) = take pos (data_ t) /\
  take (len_ t - pos) (drop (pos + k) (shifted t pos k))
    = take (len_ t - pos) (drop pos (data_ t)).
Proof.
  intros (Hd & Hl & Hz) Hpos Hk.
  destruct (Nat.ltb_spec 0 (len_ t - pos)) as [Hm|Hm].
  - rewrite memmove_string_spec by lia. repeat split.
    + rewrite !length_app, !length_take, !length_drop. lia.
    + rewrite take_app_le by (rewrite length_take; lia).
      rewrite take_take. f_equal. lia.
    + rewrite drop_app_length' by (rewrite length_take; lia).
      rewrite take_app_le by (rewrite length_take, length_drop; lia).
      rewrite take_take, Nat.min_id. reflexivity.
  - replace (len_ t - pos) with 0 by lia. rewrite !take_0. auto.
Qed.

(** The contents and the length [insert] leaves for a position within the
    string: the units read at the pointer, after the shift, fill the gap. *)
Lemma contents_insert_pointee N t pos (str : pointer) count :
  wf_string N t -> readable N str (Nat.min count (N - len_ t)) ->
  pos <= len_ t ->
  let k := Nat.min count (N - len_ t) in
  contents (insert N t pos (Some str) count)
    = take pos (contents t) ++ take k (pointee (shifted t pos k) str)
      ++ drop pos (contents t) /\
  len_ (insert N t pos (Some str) count) = len_ t + k /\
  List.length (take k (pointee (shifted t pos k) str)) = k.
Proof.
  intros Ht Hc Hpos k. pose proof Ht as (Hd & Hl & Hz). unfold insert.
  destruct (Nat.ltb_spec (len_ t) pos) as [|_]; [lia|]. cbn [orb].
  destruct (Nat.eqb_spec count 0) as [E0|E0]; cbn [orb].
  { assert (k = 0) by (unfold k; lia). rewrite H, take_0. cbn [app].
    rewrite take_drop, Nat.add_0_r. auto. }
  destruct (Nat.leb_spec N (len_ t)) as [Hfull|Hroom].
  { assert (k = 0) by (unfold k; lia). rewrite H, take_0. cbn [app].
    rewrite take_drop, Nat.add_0_r. auto. }
  rewrite !std_min_min. fold k.
  replace (Nat.min (len_ t + k) N) with (len_ t + k) by (unfold k; lia).
  assert (Hk : k <= N - len_ t) by (unfold k; lia).
  destruct (shifted_spec N t pos k Ht Hpos Hk) as (Hl1 & Hp1 & Hm1).
  set (d1 := shifted t pos k) in *.
  assert (Hks : k <= List.length (pointee d1 str)).
  { destruct str as [units|off]; cbn [pointee readable] in *.
    - exact Hc.
    - rewrite length_drop, Hl1. fold k in Hc. lia. }
  split; [|split; [reflexivity|rewrite length_take; lia]].
  rewrite contents_intro. unfold memcpy_string.
  rewrite copy_n_spec by lia.
  replace (len_ t + k) with (pos + (k + (len_ t - pos))) by lia.
  rewrite take_app_add' by (rewrite length_take; lia).
  rewrite take_app_add' by (rewrite length_take; lia).
  rewrite Hp1, Hm1, drop_contents. unfold contents. rewrite take_take.
  f_equal. f_equal. lia.
Qed.

(** What a pointer into the string reads after the shift, when its [k]
    units lie before the gap or after it. *)
Lemma pointee_shifted N t pos k off :
  wf_string N t -> pos <= len_ t -> k <= N - len_ t ->
  (off + k <= pos ->
   take k (drop off (shifted t pos k)) = take k (drop off (contents t))) /\
  (pos + k <= off -> off <= len_ t ->
   take k (drop off (shifted t pos k)) = take k (drop (off - k) (contents t))).
Proof.
  intros Ht Hpos Hk. pose proof Ht as (Hd & Hl & Hz).
  destruct (shifted_spec N t pos k Ht Hpos Hk) as (Hl1 & Hp1 & Hm1).
  set (d1 := shifted t pos k) in *.
  assert (Hlow : forall i, i < pos -> d1 !! i = data_ t !! i).
  { intros i Hi. apply (f_equal (fun l => l !! i)) in Hp1.
    rewrite !lookup_take_lt in Hp1 by lia. exact Hp1. }
  assert (Hhigh : forall i, i < len_ t - pos ->
            d1 !! (pos + k + i) = data_ t !! (pos + i)).
  { intros i Hi. apply (f_equal (fun l => l !! i)) in Hm1.
    rewrite !lookup_take_lt, !lookup_drop in Hm1 by lia. exact Hm1. }
  split.
  - intros Hbefore. apply list_eq. intros i.
    destruct (Nat.lt_ge_cases i k) as [Hi|Hi].
    + rewrite !lookup_take_lt, !lookup_drop by lia. unfold contents.
      rewrite lookup_take_lt by lia. apply Hlow. lia.
    + rewrite !lookup_take_ge by lia. reflexivity.
  - intros Hafter Hoff. apply list_eq. intros i.
    destruct (Nat.lt_ge_cases i k) as [Hi|Hi].
    + rewrite !lookup_take_lt, !lookup_drop by lia. unfold contents.
      rewrite lookup_take_lt by lia.
      replace (off + i) with (pos + k + (off - (pos + k) + i)) by lia.
      rewrite Hhigh by lia. f_equal. lia.
    + rewrite !lookup_take_ge by lia. reflexivity.
Qed.

(** X14.  [insert(pos, str, count)] with [pos <= length()] puts
    [k = min(count, N - length())] units at [pos] and keeps every unit
    already stored, so it is the inserted text that is truncated when room
    is short.  For a source array of its own the units are the first [k]
    of the source.  The source is read after the tail has been shifted: a
    pointer into the string that lies before [pos] still gives the units
    it pointed to, one at or after [pos + k] gives the units that stood
    [k] places before it.  With [pos > length()] or a null [str] nothing
    changes. *)
Theorem insert_contents N t pos (src : list Z) count :
  wf_string N t -> count <= List.length src ->
  (pos <= len_ t ->
   let k := Nat.min count (N - len_ t) in
   (contents (insert N t pos (Some (ptr_array src)) count)
      = take pos (contents t) ++ take k src ++ drop pos (contents t) /\
    len_ (insert N t pos (Some (ptr_array src)) count) = len_ t + k) /\
   (forall off, off + k <= pos ->
      contents (insert N t pos (Some (ptr_self off)) count)
        = take pos (contents t) ++ take k (drop off (contents t))
          ++ drop pos (contents t)) /\
   (forall off, pos + k <= off -> off <= len_ t ->
      contents (insert N t pos (Some (ptr_self off)) count)
        = take pos (contents t) ++ take k (drop (off - k) (contents t))
          ++ drop pos (contents t))) /\
  (len_ t < pos -> forall str, insert N t pos (Some str) count = t) /\
  insert N t pos None count = t.
Proof.
  intros Ht Hc. pose proof Ht as (Hd & Hl & Hz).
  split; [|split; [|reflexivity]].
  - intros Hpos k.
    assert (Hk : k <= N - len_ t) by (unfold k; lia).
    split; [|split].
    + destruct (contents_insert_pointee N t pos (ptr_array src) count Ht)
        as (H1 & H2 & _); [cbn [readable]; lia|exact Hpos|].
      split; assumption.
    + intros off Hoff.
      destruct (contents_insert_pointee N t pos (ptr_self off) count Ht)
        as (H1 & _ & _); [cbn [readable]; fold k; lia|exact Hpos|].
      rewrite H1. cbn [pointee]. fold k.
      destruct (pointee_shifted N t pos k off Ht Hpos Hk) as [Hb _].
      rewrite (Hb Hoff). reflexivity.
    + intros off Hoff Hlen.
      destruct (contents_insert_pointee N t pos (ptr_self off) count Ht)
        as (H1 & _ & _); [cbn [readable]; fold k; lia|exact Hpos|].
      rewrite H1. cbn [pointee]. fold k.
      destruct (pointee_shifted N t pos k off Ht Hpos Hk) as [_ Ha].
      rewrite (Ha Hoff Hlen). reflexivity.
  - intros Hpos str. unfold insert.
    destruct (Nat.ltb_spec (len_ t) pos); [reflexivity|lia].
Qed.

Lemma insert_contents_witness :
  contents (insert 12 (from_literal 12 (lit "helloworld" ++ [0%Z])) 5
              (Some (ptr_array (lit "XYZ"))) 3)
    = lit "helloXYworld" /\
  contents (insert 8 (from_literal 8 (lit "abcdef" ++ [0%Z])) 0
              (Some (ptr_self 4)) 2)
    = lit "cdabcdef".
Proof.
  split.
  - destruct (insert_contents 12 (from_literal 12 (lit "helloworld" ++ [0%Z])) 5
                (lit "XYZ") 3 (wf_string_from_literal _ _)) as [H _].
    + vm_compute. lia.
    + destruct H as [[H _] _]; [vm_compute; lia|]. exact H.
  - destruct (insert_contents 8 (from_literal 8 (lit "abcdef" ++ [0%Z])) 0
                (lit "XY") 2 (wf_string_from_literal _ _)) as [H _].
    + vm_compute. lia.
    + destruct H as (_ & _ & H); [vm_compute; lia|].
      apply (H 4); vm_compute; lia.
Defined.

(** X15.  Erasing at the same position the units that [insert] put in
    gives the original contents back, for a source array of its own and for
    a pointer into the string itself. *)
Theorem erase_insert_roundtrip N t pos (str : pointer) count :
  wf_string N t -> readable N str (Nat.min count (N - len_ t)) ->
  pos <= len_ t ->
  contents (erase (insert N t pos (Some str) count) pos
              (Some (Nat.min count (N - len_ t))))
    = contents t.
Proof.
  intros Ht Hc Hpos.
  destruct (contents_insert_pointee N t pos str count Ht Hc Hpos)
    as (H1 & H2 & H3).
  pose proof (length_contents N t Ht) as Hlc.
  pose proof (contents_erase N (insert N t pos (Some str) count) pos
                (Some (Nat.min count (N - len_ t)))
                (wf_string_insert _ _ _ _ _ Ht)) as He.
  rewrite He, H1.
  rewrite take_app_le by (rewrite length_take; lia).
  rewrite take_take, Nat.min_id.
  rewrite drop_app_add' by (rewrite length_take; lia).
  rewrite drop_app_length' by (rewrite H3; reflexivity).
  apply take_drop.
Qed.

Lemma erase_insert_roundtrip_witness :
  let t := from_literal 12 (lit "helloworld" ++ [0%Z]) in
  contents (erase (insert 12 t 5 (Some (ptr_array (lit "XYZ"))) 3) 5 (Some 2))
    = contents t.
Proof.
  apply (erase_insert_roundtrip 12 (from_literal 12 (lit "helloworld" ++ [0%Z]))
           5 (ptr_array (lit "XYZ")) 3 (wf_string_from_literal _ _));
    vm_compute; lia.
Defined.

End string_editing.

(** ** Reversing and trimming *)
Section string_reverse.
Import invariant.

Ltac flatten_app := repeat first [rewrite <- app_assoc | progress cbn [app]].

Lemma reverse_loop_segment n :
  forall (A M B rest : list Z),
    length M / 2 = n -> length B = length A ->
    constant_string.reverse_loop (A ++ M ++ B ++ rest)
      (length A + length M + length B) (length A) n
      = A ++ reverse M ++ B ++ rest.
Proof.
  induction n as [|n IH]; intros A M B rest Hn Hab.
  - simpl. f_equal. f_equal.
    destruct M as [|x [|y M]]; try reflexivity.
    cbn [length] in Hn. rewrite div2_SS in Hn. discriminate.
  - destruct (list_ends M) as (x & M' & y & ->).
    { destruct M as [|x [|y M]]; cbn [length] in *;
        [discriminate Hn|discriminate Hn|lia]. }
    assert (Hn' : length M' / 2 = n).
    { rewrite length_cons, length_app in Hn. cbn [length] in Hn.
      replace (S (length M' + 1)) with (S (S (length M'))) in Hn by lia.
      rewrite div2_SS in Hn. lia. }
    cbn [constant_string.reverse_loop].
    set (len := length A + length (x :: M' ++ [y]) + length B).
    assert (Hidx : len - 1 - length A = length (A ++ x :: M')).
    { unfold len. rewrite !length_app. simpl. rewrite length_app. simpl. lia. }
    assert (Hx : deref (A ++ (x :: M' ++ [y]) ++ B ++ rest) (length A) = x).
    { apply deref_lookup. cbn [app]. apply lookup_middle. reflexivity. }
    assert (Hy : deref (A ++ (x :: M' ++ [y]) ++ B ++ rest)
                   (len - 1 - length A) = y).
    { apply deref_lookup. rewrite Hidx.
      replace (A ++ (x :: M' ++ [y]) ++ B ++ rest)
        with ((A ++ x :: M') ++ y :: B ++ rest) by (flatten_app; reflexivity).
      apply lookup_middle. reflexivity. }
    rewrite Hx, Hy, Hidx. cbn [app].
    rewrite insert_middle by reflexivity.
    replace (A ++ y :: (M' ++ [y]) ++ B ++ rest)
      with ((A ++ y :: M') ++ y :: B ++ rest) by (flatten_app; reflexivity).
    rewrite insert_middle by (rewrite !length_app; reflexivity).
    replace ((A ++ y :: M') ++ x :: B ++ rest)
      with ((A ++ [y]) ++ M' ++ (x :: B) ++ rest) by (flatten_app; reflexivity).
    replace (S (length A)) with (length (A ++ [y]))
      by (rewrite length_app; simpl; lia).
    replace len with (length (A ++ [y]) + length M' + length (x :: B)).
    2:{ unfold len. rewrite !length_app. simpl. rewrite length_app. simpl. lia. }
    rewrite IH; [|exact Hn'|rewrite length_app; simpl; lia].
    rewrite reverse_cons, reverse_app. flatten_app. reflexivity.
Qed.

(** X16.  [reverse()] reverses the contents in place and keeps the
    length; reversing twice gives the contents back. *)
Theorem reverse_contents N t :
  wf_string N t ->
  constant_string.contents (constant_string.reverse t)
    = reverse (constant_string.contents t) /\
  constant_string.len_ (constant_string.reverse t) = constant_string.len_ t /\
  constant_string.contents (constant_string.reverse (constant_string.reverse t))
    = constant_string.contents t.
Proof.
  intros Ht.
  assert (Hrev : forall M u, wf_string M u ->
            constant_string.contents (constant_string.reverse u)
              = reverse (constant_string.contents u)).
  { intros M u (Hd & Hl & Hz).
    unfold constant_string.reverse, constant_string.contents at 1.
    cbn [constant_string.data_ constant_string.len_].
    pose proof (reverse_loop_segment (constant_string.len_ u / 2) []
                  (take (constant_string.len_ u) (constant_string.data_ u)) []
                  (drop (constant_string.len_ u) (constant_string.data_ u))) as Hs.
    cbn [app length Nat.add] in Hs. rewrite length_take, Nat.add_0_r in Hs.
    replace (Nat.min (constant_string.len_ u) (length (constant_string.data_ u)))
      with (constant_string.len_ u) in Hs by lia.
    rewrite take_drop in Hs. rewrite Hs by reflexivity.
    rewrite take_app_length' by (rewrite length_reverse, length_take; lia).
    reflexivity. }
  split; [apply (Hrev N), Ht|]. split; [reflexivity|].
  rewrite (Hrev N) by (apply wf_string_reverse, Ht).
  rewrite (Hrev N) by exact Ht. apply reverse_involutive.
Qed.

Lemma reverse_contents_witness :
  constant_string.contents
    (constant_string.reverse (constant_string.from_literal 8 (lit "hello" ++ [0%Z])))
    = lit "olleh".
Proof.
  destruct (reverse_contents 8 (constant_string.from_literal 8 (lit "hello" ++ [0%Z]))
              (wf_string_from_literal _ _)) as [H _].
  exact H.
Defined.

End string_reverse.

Section trimming.
Import invariant.

Lemma leading_le p l : spec.leading p l <= length l.
Proof. induction l as [|x l IH]; simpl; [lia|]. destruct (p x); simpl; lia. Qed.

Lemma drop_while_leading p l :
  spec.drop_while p l = drop (spec.leading p l) l.
Proof.
  induction l as [|x l IH]; simpl; [reflexivity|].
  destruct (p x); simpl; [exact IH|reflexivity].
Qed.

Lemma leading_all p l :
  spec.leading p l = length l <-> Forall (fun x => p x = true) l.
Proof.
  induction l as [|x l IH]; simpl; [split; auto|].
  destruct (p x) eqn:E; split; intros H.
  - constructor; [exact E|]. apply IH. lia.
  - f_equal. apply IH. inversion H; assumption.
  - discriminate.
  - inversion H; congruence.
Qed.

Lemma leading_app p A B :
  spec.leading p (A ++ B)
    = if spec.leading p A =? length A
      then length A + spec.leading p B else spec.leading p A.
Proof.
  induction A as [|x A IH]; simpl; [reflexivity|].
  destruct (p x); [|reflexivity]. rewrite IH.
  change (S (spec.leading p A) =? S (length A))
    with (spec.leading p A =? length A).
  destruct (spec.leading p A =? length A); reflexivity.
Qed.

Lemma leading_head p l x :
  head (spec.drop_while p l) = Some x -> p x = false.
Proof.
  induction l as [|y l IH]; simpl; [discriminate|].
  destruct (p y) eqn:E; [exact IH|]. simpl. congruence.
Qed.

Lemma drop_while_fix p l :
  (forall x, head l = Some x -> p x = false) -> spec.drop_while p l = l.
Proof.
  destruct l as [|y l]; simpl; [reflexivity|].
  intros H. rewrite (H y eq_refl). reflexivity.
Qed.

Lemma last_drop_while p l x :
  last (spec.drop_while p l) = Some x -> last l = Some x.
Proof.
  induction l as [|y l IH]; simpl; [discriminate|].
  destruct (p y); [|auto]. intros H. specialize (IH H).
  destruct l; [discriminate|exact IH].
Qed.

Lemma strip_take_drop p l :
  let a := spec.leading p l in
  let b := spec.leading p (reverse (drop a l)) in
  spec.strip p l = take (length l - a - b) (drop a l).
Proof.
  intros a b. unfold spec.strip.
  rewrite (drop_while_leading p l). fold a.
  rewrite (drop_while_leading p (reverse (drop a l))). fold b.
  rewrite drop_reverse, reverse_involutive, length_drop. reflexivity.
Qed.

(** When some unit of [l] is kept, the trailing run of [l] is that of what
    is left after the leading run has been dropped. *)
Lemma leading_reverse_drop p l :
  spec.leading p l < length l ->
  spec.leading p (reverse (drop (spec.leading p l) l))
    = spec.leading p (reverse l).
Proof.
  intros Hlt. set (a := spec.leading p l) in *.
  replace (reverse l) with (reverse (take a l ++ drop a l))
    by (rewrite take_drop; reflexivity).
  rewrite reverse_app, leading_app.
  destruct (Nat.eqb_spec (spec.leading p (reverse (drop a l)))
              (length (reverse (drop a l)))) as [E|E]; [|reflexivity].
  exfalso. apply leading_all in E. rewrite Forall_reverse in E.
  pose proof (drop_while_leading p l) as Hd. fold a in Hd.
  destruct (drop a l) as [|x rest] eqn:Ed.
  - apply (f_equal length) in Ed. rewrite length_drop in Ed. simpl in Ed. lia.
  - pose proof (leading_head p l x) as Hx. rewrite Hd in Hx.
    specialize (Hx eq_refl). inversion E; congruence.
Qed.

Lemma leading_reverse_all p l :
  spec.leading p l = length l -> spec.leading p (reverse l) = length l.
Proof.
  intros H. apply leading_all in H. rewrite <- length_reverse.
  apply leading_all. rewrite Forall_reverse. exact H.
Qed.

Lemma trim_start_spec p d n :
  forall start, start + n <= length d ->
    constant_string.trim_start p d start n
      = start + spec.leading p (take n (drop start d)).
Proof.
  induction n as [|n IH]; intros start Hle; simpl.
  - lia.
  - destruct (drop start d) as [|x rest] eqn:Ed.
    { apply (f_equal length) in Ed. rewrite length_drop in Ed. simpl in Ed. lia. }
    assert (Hx : deref d start = x).
    { apply deref_lookup. rewrite <- (Nat.add_0_r start), <- lookup_drop, Ed.
      reflexivity. }
    rewrite Hx. simpl. destruct (p x); [|lia].
    rewrite IH by lia.
    replace (drop (S start) d) with rest; [lia|].
    change (S start) with (1 + start). rewrite Nat.add_comm, <- drop_drop, Ed.
    reflexivity.
Qed.

Lemma trim_end_spec p d start n :
  start + n <= length d ->
  constant_string.trim_end p d start n
    = start + (n - spec.leading p (reverse (take n (drop start d)))).
Proof.
  induction n as [|n IH]; intros Hle.
  - simpl. lia.
  - cbn [constant_string.trim_end].
    assert (Hx : (drop start d) !! n = Some (deref d (start + n))).
    { rewrite lookup_drop. apply lookup_deref. lia. }
    rewrite (take_S_r _ _ _ Hx), reverse_app. cbn [reverse app].
    change (reverse [deref d (start + n)]) with [deref d (start + n)].
    cbn [app spec.leading].
    destruct (p (deref d (start + n))); [|lia].
    rewrite IH by lia.
    pose proof (leading_le p (reverse (take n (drop start d)))) as Hl.
    rewrite length_reverse, length_take in Hl. lia.
Qed.

(** X17.  The legacy [trim()] removes exactly the leading and the trailing
    run of units that [is_space] accepts: a well-formed string is left with
    the stripped contents, whose first and last unit are not spaces. *)
Theorem legacy_trim_contents N (p : Z -> bool) t :
  wf_string N t ->
  constant_string.contents (constant_string.trim p t)
    = spec.strip p (constant_string.contents t) /\
  (forall x, head (constant_string.contents (constant_string.trim p t)) = Some x
             -> p x = false) /\
  (forall x, last (constant_string.contents (constant_string.trim p t)) = Some x
             -> p x = false).
Proof.
  intros Ht. pose proof Ht as (Hd & Hl & Hz).
  assert (Hc : constant_string.contents (constant_string.trim p t)
               = spec.strip p (constant_string.contents t)).
  { rewrite strip_take_drop. cbv zeta.
    rewrite (length_contents N t Ht).
    set (c := constant_string.contents t).
    unfold constant_string.trim.
    rewrite (trim_start_spec p (constant_string.data_ t)
               (constant_string.len_ t) 0) by lia.
    rewrite drop_0. fold (constant_string.contents t). fold c.
    cbn [Nat.add].
    set (a := spec.leading p c).
    assert (Ha : a <= constant_string.len_ t).
    { unfold a. rewrite <- (length_contents N t Ht). apply leading_le. }
    rewrite trim_end_spec by lia.
    replace (take (constant_string.len_ t - a) (drop a (constant_string.data_ t)))
      with (drop a c) by (unfold c; apply drop_contents).
    set (b := spec.leading p (reverse (drop a c))).
    assert (Hb : b <= constant_string.len_ t - a).
    { unfold b. etransitivity; [apply leading_le|].
      rewrite length_reverse, length_drop. unfold c.
      rewrite (length_contents N t Ht). lia. }
    replace (a + (constant_string.len_ t - a - b) - a)
      with (constant_string.len_ t - a - b) by lia.
    destruct (Nat.ltb_spec 0 a) as [Ha0|Ha0]; cbn [orb].
    - rewrite contents_intro. rewrite memmove_string_spec by lia.
      rewrite take_0. cbn [app]. rewrite take_app_length'
        by (rewrite length_take, length_drop; lia).
      unfold c. rewrite drop_contents, take_take. f_equal. lia.
    - assert (a = 0) by lia.
      destruct (Nat.ltb_spec (a + (constant_string.len_ t - a - b))
                  (constant_string.len_ t)) as [Hb0|Hb0].
      + rewrite contents_intro. replace a with 0 by lia. rewrite drop_0.
        unfold c, constant_string.contents. rewrite take_take. f_equal. lia.
      + replace a with 0 by lia. rewrite drop_0. symmetry. apply take_ge.
        unfold c. rewrite (length_contents N t Ht). lia. }
  split; [exact Hc|]. rewrite Hc. unfold spec.strip. split; intros x Hx.
  - rewrite head_reverse in Hx. apply last_drop_while in Hx.
    rewrite last_reverse in Hx. apply leading_head in Hx. exact Hx.
  - rewrite last_reverse in Hx. apply leading_head in Hx. exact Hx.
Qed.

Lemma legacy_trim_contents_witness :
  constant_string.contents
    (constant_string.trim str.is_space
       (constant_string.from_literal 8 (lit "  a b " ++ [0%Z])))
    = lit "a b".
Proof.
  destruct (legacy_trim_contents 8 str.is_space
              (constant_string.from_literal 8 (lit "  a b " ++ [0%Z]))
              (wf_string_from_literal _ _)) as [H _].
  exact H.
Defined.

Lemma strip_head p l x : head (spec.strip p l) = Some x -> p x = false.
Proof.
  unfold spec.strip. intros Hx. rewrite head_reverse in Hx.
  apply last_drop_while in Hx. rewrite last_reverse in Hx.
  apply leading_head in Hx. exact Hx.
Qed.

Lemma strip_last p l x : last (spec.strip p l) = Some x -> p x = false.
Proof.
  unfold spec.strip. intros Hx. rewrite last_reverse in Hx.
  apply leading_head in Hx. exact Hx.
Qed.

Lemma strip_idempotent p l : spec.strip p (spec.strip p l) = spec.strip p l.
Proof.
  set (q := spec.strip p l). unfold spec.strip at 1.
  rewrite (drop_while_fix p q) by (apply strip_head).
  rewrite (drop_while_fix p (reverse q)).
  - apply reverse_involutive.
  - intros x Hx. rewrite head_reverse in Hx. apply (strip_last p l x Hx).
Qed.

Lemma first_non_space_from_trim_start sv n :
  forall i, str.first_non_space_from sv i n
            = constant_string.trim_start str.is_space sv i n.
Proof.
  induction n as [|n IH]; intros i; simpl; [reflexivity|].
  destruct (str.is_space (deref sv i)); simpl; [apply IH|reflexivity].
Qed.

Lemma last_non_space_from_trim_end sv i :
  str.last_non_space_from sv i = constant_string.trim_end str.is_space sv 0 i.
Proof.
  induction i as [|i IH]; [reflexivity|].
  cbn [str.last_non_space_from constant_string.trim_end Nat.add].
  destruct (str.is_space (deref sv i)); simpl; [apply IH|reflexivity].
Qed.

Lemma find_first_non_space_spec sv :
  str.find_first_non_space sv = spec.leading str.is_space sv.
Proof.
  unfold str.find_first_non_space.
  rewrite first_non_space_from_trim_start, trim_start_spec by (simpl; lia).
  rewrite drop_0, take_ge by lia. reflexivity.
Qed.

Lemma find_last_non_space_spec sv :
  str.find_last_non_space sv
    = length sv - spec.leading str.is_space (reverse sv).
Proof.
  unfold str.find_last_non_space.
  rewrite last_non_space_from_trim_end, trim_end_spec by (simpl; lia).
  rewrite drop_0, take_ge by lia. reflexivity.
Qed.

Lemma to_string_append_default Cap src :
  length src <= Cap ->
  core.to_string (core.append Cap (core.default_ctor Cap) (Some src) (length src))
    = src.
Proof.
  intros Hle.
  destruct (to_string_append Cap (core.default_ctor Cap) src (length src)
              (wf_default_ctor Cap) (Nat.le_refl _)) as [H _].
  rewrite H, to_string_default_ctor. cbn [app core.default_ctor core.size_].
  apply take_ge. lia.
Qed.

Lemma trim_left_spec Cap s :
  wf Cap s ->
  core.to_string (str.trim_left Cap s)
    = spec.drop_while str.is_space (core.to_string s).
Proof.
  intros Hs. pose proof (length_to_string Cap s Hs) as Hlen.
  pose proof Hs as (_ & Hsz & _).
  unfold str.trim_left. change (str.view s) with (core.to_string s).
  rewrite find_first_non_space_spec, drop_while_leading.
  set (c := core.to_string s) in *. set (a := spec.leading str.is_space c).
  destruct (Nat.ltb_spec a (length c)) as [Hlt|Hge]; cbn [str.sv_substr].
  - apply to_string_append_default. rewrite length_drop. lia.
  - rewrite drop_ge by lia. reflexivity.
Qed.

Lemma trim_right_spec Cap s :
  wf Cap s ->
  core.to_string (str.trim_right Cap s)
    = reverse (spec.drop_while str.is_space (reverse (core.to_string s))).
Proof.
  intros Hs. pose proof (length_to_string Cap s Hs) as Hlen.
  pose proof Hs as (_ & Hsz & _).
  unfold str.trim_right. change (str.view s) with (core.to_string s).
  rewrite find_last_non_space_spec, drop_while_leading.
  set (c := core.to_string s) in *.
  set (b := spec.leading str.is_space (reverse c)).
  rewrite drop_reverse, reverse_involutive.
  destruct (Nat.ltb_spec 0 (length c - b)) as [Hlt|Hge]; cbn [str.sv_substr].
  - rewrite drop_0. apply to_string_append_default. rewrite length_take. lia.
  - replace (length c - b) with 0 by lia. reflexivity.
Qed.

Lemma trim_spec Cap s :
  wf Cap s ->
  core.to_string (str.trim Cap s) = spec.strip str.is_space (core.to_string s).
Proof.
  intros Hs. pose proof (length_to_string Cap s Hs) as Hlen.
  pose proof Hs as (_ & Hsz & _).
  unfold str.trim. change (str.view s) with (core.to_string s).
  rewrite find_first_non_space_spec, find_last_non_space_spec, strip_take_drop.
  cbv zeta. set (c := core.to_string s) in *.
  set (a := spec.leading str.is_space c).
  pose proof (leading_le str.is_space c) as Ha. fold a in Ha.
  destruct (Nat.eq_dec a (length c)) as [Hall|Hsome].
  - pose proof (leading_reverse_all str.is_space c Hall) as Hr. rewrite Hr.
    destruct (Nat.ltb_spec a (length c - length c)); [lia|].
    rewrite drop_ge by lia. rewrite take_nil. reflexivity.
  - pose proof (leading_reverse_drop str.is_space c) as Hr. fold a in Hr.
    rewrite Hr by lia.
    set (b := spec.leading str.is_space (reverse c)).
    destruct (Nat.ltb_spec a (length c - b)) as [Hlt|Hge]; cbn [str.sv_substr].
    + rewrite to_string_append_default
        by (rewrite length_take, length_drop; lia).
      f_equal. lia.
    + replace (length c - a - b) with 0 by lia. reflexivity.
Qed.

(** X18.  The fixed-capacity [trim_left], [trim_right] and [trim] drop the
    leading run, the trailing run and both runs of the six white-space
    units, keeping everything between them. *)
Theorem trim_family_contents Cap s :
  wf Cap s ->
  core.to_string (str.trim_left Cap s)
    = spec.drop_while str.is_space (core.to_string s) /\
  core.to_string (str.trim_right Cap s)
    = reverse (spec.drop_while str.is_space (reverse (core.to_string s))) /\
  core.to_string (str.trim Cap s)
    = spec.strip str.is_space (core.to_string s) /\
  (Forall (fun c => str.is_space c = false) (core.to_string s) ->
   core.to_string (str.trim Cap s) = core.to_string s).
Proof.
  intros Hs. repeat split.
  - apply trim_left_spec, Hs.
  - apply trim_right_spec, Hs.
  - apply trim_spec, Hs.
  - intros Hno. rewrite trim_spec by exact Hs. unfold spec.strip.
    rewrite (drop_while_fix str.is_space (core.to_string s)).
    + rewrite drop_while_fix; [apply reverse_involutive|].
      intros x Hx. rewrite head_reverse in Hx. apply last_Some in Hx.
      destruct Hx as (l' & Hx). rewrite Hx in Hno.
      apply Forall_app in Hno. destruct Hno as [_ Hno].
      inversion Hno; assumption.
    + intros x Hx. destruct (core.to_string s); [discriminate|].
      inversion Hx; subst. inversion Hno; assumption.
Qed.

Lemma trim_family_contents_witness :
  core.to_string (str.trim 8 (core.from_literal 8 (lit "  a b " ++ [0%Z])))
    = lit "a b".
Proof.
  destruct (trim_family_contents 8 (core.from_literal 8 (lit "  a b " ++ [0%Z]))
              (wf_from_literal _ _)) as (_ & _ & H & _).
  exact H.
Defined.

(** X19.  Trimming both ends is trimming the left end and then the right
    end, and trimming a trimmed string changes nothing. *)
Theorem trim_composes Cap s :
  wf Cap s ->
  core.to_string (str.trim Cap s)
    = core.to_string (str.trim_right Cap (str.trim_left Cap s)) /\
  core.to_string (str.trim Cap (str.trim Cap s))
    = core.to_string (str.trim Cap s).
Proof.
  intros Hs. split.
  - rewrite trim_spec by exact Hs.
    rewrite trim_right_spec by apply wf_trim_left.
    rewrite trim_left_spec by exact Hs. reflexivity.
  - rewrite (trim_spec Cap (str.trim Cap s)) by apply wf_trim.
    rewrite trim_spec by exact Hs. apply strip_idempotent.
Qed.

Lemma trim_composes_witness :
  core.to_string (str.trim 8 (core.from_literal 8 (lit " ab  " ++ [0%Z])))
    = core.to_string
        (str.trim_right 8
           (str.trim_left 8 (core.from_literal 8 (lit " ab  " ++ [0%Z])))).
Proof.
  destruct (trim_composes 8 (core.from_literal 8 (lit " ab  " ++ [0%Z]))
              (wf_from_literal _ _)) as [H _].
  exact H.
Defined.

End trimming.

(** ** Case conversion *)
Section case_conversion.
Import invariant.

Lemma fold_push_back_map Cap (f : Z -> Z) l :
  forall r, wf Cap r -> core.size_ r + length l <= Cap ->
    core.to_string
      (fold_left (fun result ch => core.push_back Cap result (f ch)) l r)
      = core.to_string r ++ map f l.
Proof.
  induction l as [|x l IH]; intros r Hr Hle; cbn [fold_left map length] in *.
  - rewrite app_nil_r. reflexivity.
  - destruct (to_string_push_back Cap r (f x) Hr) as [Hc Hsz]; [lia|].
    rewrite IH; [|apply wf_push_back, Hr|rewrite Hsz; lia].
    rewrite Hc, <- app_assoc. reflexivity.
Qed.

Lemma map_units Cap (f : Z -> Z) s :
  wf Cap s ->
  core.to_string
    (fold_left (fun result ch => core.push_back Cap result (f ch))
               (str.units s) (core.default_ctor Cap))
    = map f (core.to_string s).
Proof.
  intros Hs. pose proof Hs as (_ & Hsz & _).
  rewrite fold_push_back_map.
  - rewrite (units_to_string Cap s Hs). reflexivity.
  - apply wf_default_ctor.
  - rewrite (units_to_string Cap s Hs), (length_to_string Cap s Hs). simpl. lia.
Qed.

Lemma wf_fold_push_back Cap (f : Z -> Z) l :
  forall r, wf Cap r ->
    wf Cap (fold_left (fun result ch => core.push_back Cap result (f ch)) l r).
Proof.
  induction l as [|x l IH]; intros r Hr; simpl; [exact Hr|].
  apply IH, wf_push_back, Hr.
Qed.

Ltac case_ranges :=
  repeat (match goal with
          | |- context [(?a <=? ?b)%Z] =>
              lazymatch b with
              | context [if _ then _ else _] => fail
              | _ => destruct (Z.leb_spec a b)
              end
          end; cbn [andb]).

Lemma toggle_char_involutive ch : str.toggle_char (str.toggle_char ch) = ch.
Proof.
  unfold str.toggle_char, str.char_to_upper, str.char_to_lower.
  case_ranges; lia.
Qed.

Lemma char_to_lower_idempotent ch :
  str.char_to_lower (str.char_to_lower ch) = str.char_to_lower ch.
Proof.
  unfold str.char_to_lower.
  case_ranges; lia.
Qed.

Lemma char_to_lower_upper ch :
  str.char_to_lower (str.char_to_upper ch) = str.char_to_lower ch.
Proof.
  unfold str.char_to_upper, str.char_to_lower.
  case_ranges; lia.
Qed.

(** X20.  [to_lower], [to_upper] and [toggle_case] convert every unit of the
    string and keep its length; toggling twice gives the contents back and
    lowering is idempotent. *)
Theorem case_conversions_map Cap s :
  wf Cap s ->
  core.to_string (str.to_lower Cap s) = map str.char_to_lower (core.to_string s) /\
  core.to_string (str.to_upper Cap s) = map str.char_to_upper (core.to_string s) /\
  core.to_string (str.toggle_case Cap s) = map str.toggle_char (core.to_string s) /\
  core.to_string (str.toggle_case Cap (str.toggle_case Cap s)) = core.to_string s /\
  core.to_string (str.to_lower Cap (str.to_lower Cap s))
    = core.to_string (str.to_lower Cap s).
Proof.
  intros Hs. unfold str.to_lower, str.to_upper, str.toggle_case.
  repeat split; try (apply map_units, Hs).
  - rewrite map_units by (apply wf_fold_push_back, wf_default_ctor).
    rewrite map_units by exact Hs. rewrite map_map.
    rewrite <- (map_id (core.to_string s)) at 2.
    apply map_ext. intros a. apply toggle_char_involutive.
  - rewrite map_units by (apply wf_fold_push_back, wf_default_ctor).
    rewrite map_units by exact Hs. rewrite map_map.
    apply map_ext. intros a. apply char_to_lower_idempotent.
Qed.

Lemma case_conversions_map_witness :
  core.to_string (str.toggle_case 8 (core.from_literal 8 (lit "aB-1z" ++ [0%Z])))
    = lit "Ab-1Z".
Proof.
  destruct (case_conversions_map 8 (core.from_literal 8 (lit "aB-1z" ++ [0%Z]))
              (wf_from_literal _ _)) as (_ & _ & H & _).
  exact H.
Defined.

Lemma equals_ignore_case_loop_spec lhs rhs n :
  forall i,
    str.equals_ignore_case_loop lhs rhs i n = true <->
    map (fun k => str.char_to_lower (core.index lhs k)) (seq i n)
      = map (fun k => str.char_to_lower (core.index rhs k)) (seq i n).
Proof.
  induction n as [|n IH]; intros i; cbn [str.equals_ignore_case_loop seq map].
  - split; reflexivity.
  - destruct (Z.eqb_spec (str.char_to_lower (core.index lhs i))
                (str.char_to_lower (core.index rhs i))) as [E|E]; cbn [negb].
    + rewrite IH. split; intros H; [rewrite E, H; reflexivity|].
      inversion H; reflexivity.
    + split; [discriminate|]. intros H. inversion H. contradiction.
Qed.

(** X21.  [equals_ignore_case] holds exactly when the two strings have the
    same units after lowering, whatever their capacities; so it holds between
    a string and its upper-case conversion. *)
Theorem equals_ignore_case_spec Cap1 Cap2 lhs rhs :
  wf Cap1 lhs -> wf Cap2 rhs ->
  (str.equals_ignore_case lhs rhs = true <->
   map str.char_to_lower (core.to_string lhs)
     = map str.char_to_lower (core.to_string rhs)) /\
  str.equals_ignore_case lhs (str.to_upper Cap1 lhs) = true.
Proof.
  assert (Hiff : forall C1 C2 a b, wf C1 a -> wf C2 b ->
            (str.equals_ignore_case a b = true <->
             map str.char_to_lower (core.to_string a)
               = map str.char_to_lower (core.to_string b))).
  { intros C1 C2 a b Ha Hb. unfold str.equals_ignore_case, core.size.
    rewrite <- (units_to_string C1 a Ha), <- (units_to_string C2 b Hb).
    unfold str.units. rewrite !map_map.
    destruct (Nat.eqb_spec (core.size_ a) (core.size_ b)) as [E|E]; cbn [negb].
    - rewrite equals_ignore_case_loop_spec, E. reflexivity.
    - split; [discriminate|]. intros H. apply (f_equal length) in H.
      rewrite !length_map, !length_seq in H. contradiction. }
  intros Hl Hr. split; [apply (Hiff Cap1 Cap2); assumption|].
  apply (Hiff Cap1 Cap1); [exact Hl|apply wf_fold_push_back, wf_default_ctor|].
  unfold str.to_upper. rewrite map_units by exact Hl. rewrite map_map.
  apply map_ext. intros a. symmetry. apply char_to_lower_upper.
Qed.

Lemma equals_ignore_case_spec_witness :
  str.equals_ignore_case (core.from_literal 8 (lit "Hello" ++ [0%Z]))
                         (core.from_literal 16 (lit "hELLo" ++ [0%Z])) = true.
Proof.
  destruct (equals_ignore_case_spec 8 16
              (core.from_literal 8 (lit "Hello" ++ [0%Z]))
              (core.from_literal 16 (lit "hELLo" ++ [0%Z]))
              (wf_from_literal _ _) (wf_from_literal _ _)) as [[_ H] _].
  apply H. reflexivity.
Defined.

End case_conversion.

(** ** Joining and partitioning *)
Section join_partition.
Import invariant.

Lemma join_snoc d fs f :
  fs <> [] -> spec.join d (fs ++ [f]) = spec.join d fs ++ d :: f.
Proof.
  induction fs as [|g fs IH]; intros Hne; [contradiction|].
  destruct fs as [|h fs]; [reflexivity|].
  change (spec.join d ((g :: h :: fs) ++ [f]))
    with (g ++ d :: spec.join d ((h :: fs) ++ [f])).
  rewrite IH by discriminate.
  change (spec.join d (g :: h :: fs)) with (g ++ d :: spec.join d (h :: fs)).
  rewrite <- app_assoc. reflexivity.
Qed.

Lemma to_string_append_whole RCap Cap joined p :
  wf RCap joined -> wf Cap p -> core.size_ joined + core.size_ p <= RCap ->
  core.to_string (core.append RCap joined (Some (core.data_ p)) (core.size p))
    = core.to_string joined ++ core.to_string p /\
  core.size_ (core.append RCap joined (Some (core.data_ p)) (core.size p))
    = core.size_ joined + core.size_ p.
Proof.
  intros Hj (Hd & Hsz & Ht) Hle. unfold core.size.
  destruct (to_string_append RCap joined (core.data_ p) (core.size_ p) Hj)
    as [Hc Hs]; [lia|].
  rewrite Hc, Hs. replace (Nat.min (core.size_ p) (RCap - core.size_ joined))
    with (core.size_ p) by lia.
  split; reflexivity.
Qed.

Lemma join_loop_spec RCap Cap ps d n :
  forall i joined,
    Forall (wf Cap) ps -> i + n <= length ps ->
    length ps * (Cap + 1) <= RCap ->
    wf RCap joined ->
    core.to_string joined = spec.join d (map core.to_string (take i ps)) ->
    (0 < i -> core.size_ joined + 1 <= i * (Cap + 1)) ->
    (i = 0 -> core.size_ joined = 0) ->
    core.to_string (str.join_loop RCap Cap ps d joined i n)
      = spec.join d (map core.to_string (take (i + n) ps)).
Proof.
  induction n as [|n IH]; intros i joined Hps Hin Hcap Hj Hc Hpos Hzero.
  - rewrite Nat.add_0_r. exact Hc.
  - cbn [str.join_loop].
    destruct (lookup_lt_is_Some_2 ps i) as [p Hp]; [lia|].
    assert (Hwp : wf Cap p).
    { rewrite Forall_lookup in Hps. exact (Hps i p Hp). }
    assert (Hpa : str.part_at Cap ps i = p).
    { unfold str.part_at. rewrite Hp. reflexivity. }
    rewrite Hpa. pose proof Hwp as (_ & Hpsz & _).
    assert (Hroom : S i * (Cap + 1) <= RCap).
    { etransitivity; [|exact Hcap]. apply Nat.mul_le_mono_r. lia. }
    assert (Htake : take (S i) ps = take i ps ++ [p]).
    { apply take_S_r, Hp. }
    replace (i + S n) with (S i + n) by lia.
    destruct (Nat.eq_dec i 0) as [->|Hi].
    + specialize (Hzero eq_refl). cbn [Nat.ltb Nat.leb andb].
      unfold core.full at 1.
      destruct (Nat.eqb_spec (core.size_ joined) RCap) as [E|E]; [simpl in *; lia|].
      cbn [negb].
      destruct (to_string_append_whole RCap Cap joined p Hj Hwp) as [Ha Hs];
        [simpl in *; lia|].
      apply IH; auto using wf_append; try lia.
      rewrite Ha, Hc, Htake. reflexivity.
    + assert (Hi0 : 0 < i) by lia. specialize (Hpos Hi0).
      destruct (Nat.ltb_spec 0 i); [|lia]. cbn [andb].
      assert (Hmul : S i * (Cap + 1) = i * (Cap + 1) + (Cap + 1)) by lia.
      unfold core.full.
      destruct (Nat.eqb_spec (core.size_ joined) RCap) as [E|E]; [lia|].
      cbn [negb].
      destruct (to_string_push_back RCap joined d Hj) as [Hpc Hpz]; [lia|].
      destruct (Nat.eqb_spec (core.size_ (core.push_back RCap joined d)) RCap)
        as [E'|E']; [lia|].
      cbn [negb].
      destruct (to_string_append_whole RCap Cap
                  (core.push_back RCap joined d) p) as [Ha Hs];
        [apply wf_push_back, Hj|exact Hwp|rewrite Hpz; lia|].
      apply IH; auto using wf_append, wf_push_back; try lia.
      rewrite Ha, Hpc, Hc, Htake, map_app. cbn [map].
      rewrite join_snoc.
      * rewrite <- app_assoc. reflexivity.
      * intros Hnil. apply (f_equal length) in Hnil.
        rewrite length_map, length_take in Hnil. simpl in Hnil. lia.
Qed.

Lemma wf_join_loop RCap Cap ps d n :
  forall i joined,
    wf RCap joined -> wf RCap (str.join_loop RCap Cap ps d joined i n).
Proof.
  induction n as [|n IH]; intros i joined Hj; cbn [str.join_loop]; [exact Hj|].
  apply IH.
  set (j1 := if (0 <? i) && negb (core.full RCap joined)
             then core.push_back RCap joined d else joined).
  assert (H1 : wf RCap j1).
  { unfold j1. destruct (_ && _); auto using wf_push_back. }
  destruct (negb (core.full RCap j1)); auto using wf_append.
Qed.

Lemma join_tokens_of Cap MaxParts r d :
  wf_parts Cap r -> within MaxParts r ->
  core.to_string (str.join Cap MaxParts r d) = spec.join d (str.tokens_of r).
Proof.
  intros Hp [Hlen Hcnt]. unfold str.join, str.tokens_of.
  rewrite (join_loop_spec (Cap * MaxParts + MaxParts) Cap (str.parts r) d
             (str.count_ r) 0 (core.default_ctor (Cap * MaxParts + MaxParts)));
    auto using wf_default_ctor; try (simpl; lia).
Qed.

(** X22.  [join(result, d)] of a split result whose parts are well formed
    writes all its parts with one delimiter between neighbours: the capacity
    [Cap * MaxParts + MaxParts] is never exhausted, so nothing is cut off. *)
Theorem join_contents Cap MaxParts r d :
  wf_parts Cap r -> within MaxParts r ->
  core.to_string (str.join Cap MaxParts r d) = spec.join d (str.tokens_of r) /\
  wf (Cap * MaxParts + MaxParts) (str.join Cap MaxParts r d).
Proof.
  intros Hp Hw. split; [apply join_tokens_of; assumption|].
  apply wf_join_loop, wf_default_ctor.
Qed.

Lemma join_contents_witness :
  core.to_string
    (str.join 8 4
       (str.split 8 4 (core.from_literal 8 (lit "a,,b,c" ++ [0%Z])) 44%Z) 45%Z)
    = lit "a-b-c".
Proof.
  destruct (join_contents 8 4
              (str.split 8 4 (core.from_literal 8 (lit "a,,b,c" ++ [0%Z])) 44%Z)
              45%Z (wf_split _ _ _ _) (within_split _ _ _ _)) as [H _].
  exact H.
Defined.

(** X23.  Joining what [split] produced with the same delimiter gives the
    string back when it has no empty field and no more than [MaxParts]
    fields; in general it gives the first [MaxParts] tokens joined. *)
Theorem join_split_roundtrip Cap MaxParts s d :
  wf Cap s ->
  core.to_string (str.join Cap MaxParts (str.split Cap MaxParts s d) d)
    = spec.join d (take MaxParts (spec.tokens d (core.to_string s))) /\
  (spec.tokens d (core.to_string s) = spec.fields d (core.to_string s) ->
   length (spec.fields d (core.to_string s)) <= MaxParts ->
   core.to_string (str.join Cap MaxParts (str.split Cap MaxParts s d) d)
     = core.to_string s).
Proof.
  intros Hs.
  assert (H : core.to_string
                (str.join Cap MaxParts (str.split Cap MaxParts s d) d)
              = spec.join d (take MaxParts (spec.tokens d (core.to_string s)))).
  { rewrite join_tokens_of by (apply wf_split || apply within_split).
    rewrite (split_spec Cap MaxParts s d Hs). reflexivity. }
  split; [exact H|]. intros Hf Hl. rewrite H, Hf, take_ge by exact Hl.
  apply join_fields.
Qed.

Lemma join_split_roundtrip_witness :
  let s := core.from_literal 8 (lit "ab,c,d" ++ [0%Z]) in
  core.to_string (str.join 8 4 (str.split 8 4 s 44%Z) 44%Z) = core.to_string s.
Proof.
  intros s.
  destruct (join_split_roundtrip 8 4 s 44%Z (wf_from_literal _ _)) as [_ H].
  apply H; [reflexivity|vm_compute; lia].
Defined.

Lemma to_string_substr_same Cap s pos count :
  wf Cap s ->
  core.to_string (core.substr Cap s pos count)
    = match count with
      | Some c => take c (drop pos (core.to_string s))
      | None => drop pos (core.to_string s)
      end.
Proof.
  intros Hs. pose proof Hs as (Hd & Hsz & Ht).
  pose proof (length_to_string Cap s Hs) as Hlen.
  unfold core.substr. destruct (Nat.leb_spec (core.size_ s) pos) as [Hge|Hlt].
  - rewrite to_string_default_ctor, drop_ge by lia.
    destruct count; [rewrite take_nil|]; reflexivity.
  - set (n := match count with
              | Some c => std_min c (core.size_ s - pos)
              | None => core.size_ s - pos
              end).
    assert (Hn : n <= core.size_ s - pos).
    { unfold n. destruct count; rewrite ?std_min_min; lia. }
    destruct (to_string_append Cap (core.default_ctor Cap)
                (drop pos (core.data_ s)) n (wf_default_ctor Cap)) as [Hc _].
    { rewrite length_drop. lia. }
    rewrite Hc, to_string_default_ctor. cbn [app core.default_ctor core.size_].
    replace (Nat.min n (Cap - 0)) with n by lia.
    assert (Hdrop : drop pos (core.to_string s)
                    = take (core.size_ s - pos) (drop pos (core.data_ s))).
    { unfold core.to_string. rewrite take_drop_commute. do 2 f_equal. lia. }
    rewrite Hdrop. unfold n. destruct count as [c|]; rewrite ?std_min_min.
    + rewrite take_take. reflexivity.
    + reflexivity.
Qed.

(** X24.  [partition(str, d)] cuts the string at the first delimiter: when
    one is found, [first], the delimiter and [second] make up the string and
    [first] holds no delimiter; when none is found, [first] is the whole
    string and [second] is empty. *)
Theorem partition_cuts_at_first Cap s d :
  wf Cap s ->
  let r := str.partition Cap s d in
  (str.found r = true ->
     core.to_string s
       = core.to_string (str.first r) ++ d :: core.to_string (str.second r) /\
     d ∉ core.to_string (str.first r)) /\
  (str.found r = false ->
     str.first r = s /\ core.to_string (str.second r) = [] /\
     d ∉ core.to_string s).
Proof.
  intros Hs. pose proof Hs as (Hd & Hsz & Ht).
  pose proof (length_to_string Cap s Hs) as Hlen.
  cbv zeta. unfold str.partition, core.find_char.
  pose proof (find_char_scan_spec (core.data_ s) d (core.size_ s - 0) 0) as H.
  destruct (core.find_char_scan (core.data_ s) d 0 (core.size_ s - 0)) as [pos|];
    cbn [str.found str.first str.second]; (split; [|try discriminate]);
    try discriminate.
  - intros _. destruct H as (Hr & Hat & Hbefore).
    assert (Hlk : core.to_string s !! pos = Some d).
    { rewrite (deref_to_string Cap s pos Hs) by lia. congruence. }
    rewrite to_string_substr_same by exact Hs. rewrite drop_0.
    assert (Hsecond :
      core.to_string (if pos + 1 <? core.size s
                      then core.substr Cap s (pos + 1) None
                      else core.default_ctor Cap)
        = drop (S pos) (core.to_string s)).
    { unfold core.size. destruct (Nat.ltb_spec (pos + 1) (core.size_ s)).
      - rewrite to_string_substr_same by exact Hs. f_equal. lia.
      - rewrite drop_ge by lia. reflexivity. }
    rewrite Hsecond. split.
    + symmetry. apply take_drop_middle, Hlk.
    + intros Hin. apply list_elem_of_lookup in Hin. destruct Hin as [k Hk].
      assert (Hkp : k < pos).
      { apply lookup_lt_Some in Hk. rewrite length_take in Hk. lia. }
      rewrite lookup_take_lt in Hk by exact Hkp.
      rewrite (deref_to_string Cap s k Hs) in Hk by lia.
      apply (Hbefore k); [lia|congruence].
  - intros _. split; [reflexivity|]. split; [reflexivity|].
    intros Hin. apply list_elem_of_lookup in Hin. destruct Hin as [k Hk].
    assert (Hkp : k < core.size_ s).
    { apply lookup_lt_Some in Hk. lia. }
    rewrite (deref_to_string Cap s k Hs) in Hk by lia.
    apply (H k); [lia|congruence].
Qed.

Lemma partition_cuts_at_first_witness :
  let s := core.from_literal 16 (lit "key=a=b" ++ [0%Z]) in
  let r := str.partition 16 s 61%Z in
  core.to_string s
    = core.to_string (str.first r) ++ 61%Z :: core.to_string (str.second r) /\
  61%Z ∉ core.to_string (str.first r).
Proof.
  intros s r.
  destruct (partition_cuts_at_first 16 s 61%Z (wf_from_literal _ _)) as [H _].
  apply H. reflexivity.
Defined.

End join_partition.

(** ** Character sets *)
Section charsets.
Import invariant.

Lemma charset_has_range cs ch n :
  forall j,
    str.charset_has cs ch j n = true <->
    exists k, j <= k < j + n /\ core.index cs k = ch.
Proof.
  induction n as [|n IH]; intros j; cbn [str.charset_has].
  - split; [discriminate|]. intros (k & Hk & _). lia.
  - destruct (Z.eqb_spec ch (core.index cs j)) as [E|E].
    + split; [|reflexivity]. intros _. exists j. split; [lia|congruence].
    + rewrite IH. split; intros (k & Hk & Hc).
      * exists k. split; [lia|exact Hc].
      * exists k. split; [|exact Hc].
        destruct (Nat.eq_dec k j) as [->|]; [congruence|lia].
Qed.

Lemma charset_has_elem Cap cs ch :
  wf Cap cs ->
  str.charset_has cs ch 0 (core.size cs) = true <-> ch ∈ core.to_string cs.
Proof.
  intros Hc. rewrite charset_has_range, list_elem_of_lookup. unfold core.size.
  split.
  - intros (k & Hk & Hx). exists k.
    rewrite (deref_to_string Cap cs k Hc) by lia. f_equal. exact Hx.
  - intros (k & Hk).
    assert (Hlt : k < core.size_ cs).
    { apply lookup_lt_Some in Hk. rewrite (length_to_string Cap cs Hc) in Hk.
      exact Hk. }
    exists k. split; [lia|].
    rewrite (deref_to_string Cap cs k Hc) in Hk by lia.
    unfold core.index. congruence.
Qed.

Lemma find_first_of_scan_spec s cs n :
  forall i,
    match str.find_first_of_scan s cs i n with
    | Some j => i <= j < i + n /\
                str.charset_has cs (core.index s j) 0 (core.size cs) = true /\
                forall k, i <= k < j ->
                  str.charset_has cs (core.index s k) 0 (core.size cs) = false
    | None => forall k, i <= k < i + n ->
                str.charset_has cs (core.index s k) 0 (core.size cs) = false
    end.
Proof.
  induction n as [|n IH]; intros i; cbn [str.find_first_of_scan];
    [intros; lia|].
  destruct (str.charset_has cs (core.index s i) 0 (core.size cs)) eqn:E.
  - repeat split; auto; try lia; intros; lia.
  - specialize (IH (S i)).
    destruct (str.find_first_of_scan s cs (S i) n) as [j|].
    + destruct IH as (H1 & H2 & H3). repeat split; auto; try lia.
      intros k Hk. destruct (Nat.eq_dec k i) as [->|]; [exact E|].
      apply H3. lia.
    + intros k Hk. destruct (Nat.eq_dec k i) as [->|]; [exact E|].
      apply IH. lia.
Qed.

Lemma find_last_of_scan_spec s cs i :
  match str.find_last_of_scan s cs i with
  | Some j => j < i /\
              str.charset_has cs (core.index s j) 0 (core.size cs) = true /\
              forall k, j < k < i ->
                str.charset_has cs (core.index s k) 0 (core.size cs) = false
  | None => forall k, k < i ->
              str.charset_has cs (core.index s k) 0 (core.size cs) = false
  end.
Proof.
  induction i as [|i IH]; cbn [str.find_last_of_scan]; [intros; lia|].
  destruct (str.charset_has cs (core.index s i) 0 (core.size cs)) eqn:E.
  - repeat split; auto; try lia; intros; lia.
  - destruct (str.find_last_of_scan s cs i) as [j|].
    + destruct IH as (H1 & H2 & H3). repeat split; auto; try lia.
      intros k Hk. destruct (Nat.eq_dec k i) as [->|]; [exact E|].
      apply H3. lia.
    + intros k Hk. destruct (Nat.eq_dec k i) as [->|]; [exact E|].
      apply IH. lia.
Qed.

Lemma find_first_not_of_scan_spec s cs n :
  forall i,
    match str.find_first_not_of_scan s cs i n with
    | Some j => i <= j < i + n /\
                str.charset_has cs (core.index s j) 0 (core.size cs) = false /\
                forall k, i <= k < j ->
                  str.charset_has cs (core.index s k) 0 (core.size cs) = true
    | None => forall k, i <= k < i + n ->
                str.charset_has cs (core.index s k) 0 (core.size cs) = true
    end.
Proof.
  induction n as [|n IH]; intros i; cbn [str.find_first_not_of_scan];
    [intros; lia|].
  destruct (str.charset_has cs (core.index s i) 0 (core.size cs)) eqn:E;
    cbn [negb].
  - specialize (IH (S i)).
    destruct (str.find_first_not_of_scan s cs (S i) n) as [j|].
    + destruct IH as (H1 & H2 & H3). repeat split; auto; try lia.
      intros k Hk. destruct (Nat.eq_dec k i) as [->|]; [exact E|].
      apply H3. lia.
    + intros k Hk. destruct (Nat.eq_dec k i) as [->|]; [exact E|].
      apply IH. lia.
  - repeat split; auto; try lia; intros; lia.
Qed.

(** The unit at an index of the contents, in terms of [operator[]]. *)
Lemma lookup_index Cap s k c :
  wf Cap s -> core.to_string s !! k = Some c ->
  k < core.size_ s /\ core.index s k = c.
Proof.
  intros Hs Hk.
  assert (Hlt : k < core.size_ s).
  { apply lookup_lt_Some in Hk. rewrite (length_to_string Cap s Hs) in Hk.
    exact Hk. }
  split; [exact Hlt|].
  rewrite (deref_to_string Cap s k Hs) in Hk by lia.
  unfold core.index. congruence.
Qed.

Lemma not_elem_charset Cap cs ch :
  wf Cap cs ->
  str.charset_has cs ch 0 (core.size cs) = false -> ch ∉ core.to_string cs.
Proof.
  intros Hc Hf Hin. apply (charset_has_elem Cap cs ch Hc) in Hin. congruence.
Qed.

(** X25.  [find_first_of] and [find_last_of] return the first and the last
    index whose unit belongs to the set, [npos] exactly when no unit of the
    string does; [contains_any] tells whether some unit does. *)
Theorem find_first_last_of_spec Cap1 Cap2 s cs :
  wf Cap1 s -> wf Cap2 cs ->
  match str.find_first_of s cs with
  | Some j => (exists c, core.to_string s !! j = Some c /\ c ∈ core.to_string cs) /\
              forall k c, k < j -> core.to_string s !! k = Some c ->
                          c ∉ core.to_string cs
  | None => forall c, c ∈ core.to_string s -> c ∉ core.to_string cs
  end /\
  match str.find_last_of s cs with
  | Some j => (exists c, core.to_string s !! j = Some c /\ c ∈ core.to_string cs) /\
              forall k c, j < k -> core.to_string s !! k = Some c ->
                          c ∉ core.to_string cs
  | None => forall c, c ∈ core.to_string s -> c ∉ core.to_string cs
  end /\
  (str.contains_any s cs = true <->
   exists c, c ∈ core.to_string s /\ c ∈ core.to_string cs).
Proof.
  intros Hs Hc.
  pose proof (find_first_of_scan_spec s cs (core.size s) 0) as Hf.
  pose proof (find_last_of_scan_spec s cs (core.size s)) as Hl.
  unfold str.contains_any, str.find_first_of, str.find_last_of.
  change (core.size s) with (core.size_ s) in *.
  repeat split.
  - destruct (str.find_first_of_scan s cs 0 (core.size_ s)) as [j|].
    + destruct Hf as (H1 & H2 & H3). split.
      * exists (core.index s j). split.
        -- apply (deref_to_string Cap1 s j Hs). lia.
        -- apply (charset_has_elem Cap2 cs _ Hc), H2.
      * intros k c Hk Hlk.
        destruct (lookup_index Cap1 s k c Hs Hlk) as [_ <-].
        apply (not_elem_charset Cap2 cs _ Hc), H3. lia.
    + intros c Hin. apply list_elem_of_lookup in Hin. destruct Hin as [k Hlk].
      destruct (lookup_index Cap1 s k c Hs Hlk) as [Hlt <-].
      apply (not_elem_charset Cap2 cs _ Hc), Hf. lia.
  - destruct (str.find_last_of_scan s cs (core.size_ s)) as [j|].
    + destruct Hl as (H1 & H2 & H3). split.
      * exists (core.index s j). split.
        -- apply (deref_to_string Cap1 s j Hs). lia.
        -- apply (charset_has_elem Cap2 cs _ Hc), H2.
      * intros k c Hk Hlk.
        destruct (lookup_index Cap1 s k c Hs Hlk) as [Hlt <-].
        apply (not_elem_charset Cap2 cs _ Hc), H3. lia.
    + intros c Hin. apply list_elem_of_lookup in Hin. destruct Hin as [k Hlk].
      destruct (lookup_index Cap1 s k c Hs Hlk) as [Hlt <-].
      apply (not_elem_charset Cap2 cs _ Hc), Hl. lia.
  - destruct (str.find_first_of_scan s cs 0 (core.size_ s)) as [j|];
      [|discriminate].
    intros _. destruct Hf as (H1 & H2 & H3).
    exists (core.index s j). split.
    + apply list_elem_of_lookup. exists j.
      apply (deref_to_string Cap1 s j Hs). lia.
    + apply (charset_has_elem Cap2 cs _ Hc), H2.
  - intros (c & Hin & Hcs).
    destruct (str.find_first_of_scan s cs 0 (core.size_ s)) as [j|];
      [reflexivity|].
    exfalso. apply list_elem_of_lookup in Hin. destruct Hin as [k Hlk].
    destruct (lookup_index Cap1 s k c Hs Hlk) as [Hlt <-].
    apply (not_elem_charset Cap2 cs _ Hc (Hf k ltac:(lia))), Hcs.
Qed.

Lemma find_first_last_of_spec_witness :
  str.contains_any (core.from_literal 16 (lit "path/to/file" ++ [0%Z]))
                   (core.from_literal 4 (lit "\/" ++ [0%Z])) = true.
Proof.
  destruct (find_first_last_of_spec 16 4
              (core.from_literal 16 (lit "path/to/file" ++ [0%Z]))
              (core.from_literal 4 (lit "\/" ++ [0%Z]))
              (wf_from_literal _ _) (wf_from_literal _ _)) as (_ & _ & [_ H]).
  apply H. exists 47%Z. split; vm_compute; repeat constructor.
Defined.

(** X26.  [find_first_not_of] returns the first index whose unit is outside
    the set; every unit before it belongs to the set, and [npos] means that
    all units of the string do. *)
Theorem find_first_not_of_spec Cap1 Cap2 s cs :
  wf Cap1 s -> wf Cap2 cs ->
  match str.find_first_not_of s cs with
  | Some j => (exists c, core.to_string s !! j = Some c /\ c ∉ core.to_string cs) /\
              forall k c, k < j -> core.to_string s !! k = Some c ->
                          c ∈ core.to_string cs
  | None => forall c, c ∈ core.to_string s -> c ∈ core.to_string cs
  end.
Proof.
  intros Hs Hc.
  pose proof (find_first_not_of_scan_spec s cs (core.size s) 0) as Hf.
  unfold str.find_first_not_of. change (core.size s) with (core.size_ s) in *.
  destruct (str.find_first_not_of_scan s cs 0 (core.size_ s)) as [j|].
  - destruct Hf as (H1 & H2 & H3). split.
    + exists (core.index s j). split.
      * apply (deref_to_string Cap1 s j Hs). lia.
      * apply (not_elem_charset Cap2 cs _ Hc), H2.
    + intros k c Hk Hlk.
      destruct (lookup_index Cap1 s k c Hs Hlk) as [_ <-].
      apply (charset_has_elem Cap2 cs _ Hc), H3. lia.
  - intros c Hin. apply list_elem_of_lookup in Hin. destruct Hin as [k Hlk].
    destruct (lookup_index Cap1 s k c Hs Hlk) as [Hlt <-].
    apply (charset_has_elem Cap2 cs _ Hc), Hf. lia.
Qed.

Lemma find_first_not_of_spec_witness :
  exists c, lit "   x " !! 3 = Some c /\ c ∉ lit " ".
Proof.
  pose proof (find_first_not_of_spec 16 4
                (core.from_literal 16 (lit "   x " ++ [0%Z]))
                (core.from_literal 4 (lit " " ++ [0%Z]))
                (wf_from_literal _ _) (wf_from_literal _ _)) as H.
  change (str.find_first_not_of _ _) with (Some 3) in H.
  destruct H as [H _]. exact H.
Defined.

End charsets.

(** ** Parsing and the formatting proxies *)
Section parsing.
Import invariant.
Local Open Scope Z_scope.

(** A unit that [parse_int] does not accept as a digit of [base]. *)
Lemma parse_loop_stop T base l1 c l2 :
  fmt.digit_of c < 0 \/ base <= fmt.digit_of c ->
  forall r,
    fmt.parse_loop T base (l1 ++ c :: l2) r = fmt.parse_loop T base l1 r.
Proof.
  intros Hc. induction l1 as [|x l1 IH]; intros r; cbn [app fmt.parse_loop].
  - destruct (Z.ltb_spec (fmt.digit_of c) 0); [reflexivity|].
    destruct (Z.leb_spec base (fmt.digit_of c)); [reflexivity|lia].
  - destruct (_ || _); [reflexivity|].
    destruct (fmt.arith T (r * base)) as [product|]; [|reflexivity].
    destruct (fmt.arith T (product + fmt.digit_of x)) as [sum|];
      [apply IH|reflexivity].
Qed.

(** [parse_int] on a text whose first unit is not a sign. *)
Lemma parse_int_unsigned_text T Cap s base x l :
  wf Cap s -> core.to_string s = x :: l -> x <> 45 -> x <> 43 ->
  fmt.parse_int T s base = fmt.parse_loop T base (x :: l) 0.
Proof.
  intros Hs Hstr H45 H43.
  pose proof (length_to_string Cap s Hs) as Hlen. rewrite Hstr in Hlen.
  unfold fmt.parse_int, core.empty. rewrite <- Hlen. cbn [length Nat.eqb].
  rewrite (index_first Cap s x l Hs Hstr).
  destruct (Z.eqb_spec x 45); [contradiction|].
  destruct (Z.eqb_spec x 43); [contradiction|].
  assert (Hu : map (core.index s) (seq 0 (core.size s - 0)) = x :: l).
  { rewrite (units_from Cap s 0 Hs), drop_0. exact Hstr. }
  destruct (fmt.is_signed T); rewrite Hu;
    destruct (fmt.parse_loop T base (x :: l) 0); reflexivity.
Qed.

(** X27.  [parse_int] reads the longest prefix of digits of the base after
    an optional sign and ignores what follows the first other unit: the
    text and its prefix before that unit give the same result.  The empty
    string and a text that starts with neither a sign nor a digit of the
    base give 0. *)
Theorem parse_int_stops_at_invalid T Cap s base :
  wf Cap s ->
  (forall Cap' s' c rest,
     wf Cap' s' -> core.to_string s' <> [] ->
     core.to_string s = core.to_string s' ++ c :: rest ->
     fmt.digit_of c < 0 \/ base <= fmt.digit_of c ->
     fmt.parse_int T s base = fmt.parse_int T s' base) /\
  (core.to_string s = [] -> fmt.parse_int T s base = Some 0) /\
  (forall c rest,
     core.to_string s = c :: rest -> c <> 45 -> c <> 43 ->
     fmt.digit_of c < 0 \/ base <= fmt.digit_of c ->
     fmt.parse_int T s base = Some 0).
Proof.
  intros Hs. pose proof (length_to_string Cap s Hs) as Hlen. repeat split.
  - intros Cap' s' c rest Hs' Hne Hstr Hc.
    pose proof (length_to_string Cap' s' Hs') as Hlen'.
    destruct (core.to_string s') as [|x l] eqn:Ex; [contradiction|].
    cbn [app] in Hstr. rewrite Hstr in Hlen. cbn [length] in Hlen, Hlen'.
    unfold fmt.parse_int, core.empty. rewrite <- Hlen, <- Hlen'.
    cbn [Nat.eqb].
    rewrite (index_first Cap s x _ Hs Hstr), (index_first Cap' s' x l Hs' Ex).
    assert (H0 : map (core.index s) (seq 0 (core.size s - 0))
                 = map (core.index s') (seq 0 (core.size s' - 0)) ++ c :: rest).
    { rewrite (units_from Cap s 0 Hs), (units_from Cap' s' 0 Hs'), !drop_0.
      rewrite Hstr, Ex. reflexivity. }
    assert (H1 : map (core.index s) (seq 1 (core.size s - 1))
                 = map (core.index s') (seq 1 (core.size s' - 1)) ++ c :: rest).
    { rewrite (units_from Cap s 1 Hs), (units_from Cap' s' 1 Hs').
      rewrite Hstr, Ex. reflexivity. }
    destruct (fmt.is_signed T); [destruct (x =? 45); [|destruct (x =? 43)]|];
      rewrite ?H0, ?H1, (parse_loop_stop T base _ c rest Hc); reflexivity.
  - intros Hnil. rewrite Hnil in Hlen. unfold fmt.parse_int, core.empty.
    rewrite <- Hlen. reflexivity.
  - intros c rest Hstr H45 H43 Hc.
    rewrite (parse_int_unsigned_text T Cap s base c rest Hs Hstr H45 H43).
    apply (parse_loop_stop T base [] c rest Hc).
Qed.

Lemma parse_int_stops_at_invalid_witness :
  fmt.parse_int fmt.int32_t (core.from_literal 8 (lit "-12px" ++ [0])) 10
    = fmt.parse_int fmt.int32_t (core.from_literal 4 (lit "-12" ++ [0])) 10.
Proof.
  destruct (parse_int_stops_at_invalid fmt.int32_t 8
              (core.from_literal 8 (lit "-12px" ++ [0])) 10
              (wf_from_literal _ _)) as [H _].
  apply (H 4%nat (core.from_literal 4 (lit "-12" ++ [0])) 112 (lit "x")).
  - apply wf_from_literal.
  - discriminate.
  - reflexivity.
  - right. vm_compute. discriminate.
Defined.

End parsing.

Section padding.
Import invariant.

Lemma max_digits_standard T : fmt.standard T -> fmt.max_digits T <= 22.
Proof.
  intros HT.
  assert (H : (fmt.max_digits T <=? 22) = true).
  { destruct T as [b sg]. unfold fmt.standard in HT. cbn [fmt.bits] in HT.
    destruct HT as [ -> | [ -> | [ -> | -> ] ] ]; destruct sg;
      vm_compute; reflexivity. }
  apply Nat.leb_le, H.
Qed.

(** The decimal text of a value in the range of a standard type. *)
Lemma format_text T v :
  fmt.standard T -> fmt.in_range T v ->
  wf (fmt.max_digits T) (fmt.format T v) /\
  exists x l, Forall spec.is_digit_char (x :: l) /\
    core.to_string (fmt.format T v)
      = (if (v <? 0)%Z then 45%Z :: x :: l else x :: l).
Proof.
  intros HT Hr. destruct (standard_bounds T HT) as (Hb & Hd & Hmag).
  destruct (Z.eq_dec v 0%Z) as [->|Hv].
  - destruct (format_zero T Hd) as [Hw Hstr]. split; [exact Hw|].
    exists 48%Z, []. split; [|exact Hstr].
    repeat constructor; unfold spec.is_digit_char; lia.
  - destruct (format_spec T v Hb Hd Hr Hv (Hmag v Hr)) as [Hw Hstr].
    split; [exact Hw|].
    set (ds := spec.digits_lsb (fmt.max_digits T) (Z.abs v)) in *.
    assert (Hds : ds <> []).
    { apply digits_lsb_nonempty; [lia|].
      unfold fmt.max_digits. lia. }
    assert (Hchars : Forall spec.is_digit_char (reverse ds)).
    { apply Forall_reverse, digits_lsb_chars. }
    destruct (reverse ds) as [|x l] eqn:E.
    { apply (f_equal reverse) in E. rewrite reverse_involutive in E.
      contradiction. }
    exists x, l. split; [exact Hchars|]. rewrite Hstr. unfold spec.sign_of.
    destruct (Z.ltb_spec v 0) as [Hneg|Hpos].
    + unfold fmt.in_range, fmt.min_value in Hr.
      destruct (fmt.is_signed T); [reflexivity|lia].
    + rewrite andb_false_r. reflexivity.
Qed.

Lemma to_string_append_fill_default Cap k fill :
  core.to_string (core.append_fill Cap (core.default_ctor Cap) k fill)
    = replicate (Nat.min k Cap) fill /\
  core.size_ (core.append_fill Cap (core.default_ctor Cap) k fill)
    = Nat.min k Cap.
Proof.
  unfold core.append_fill, core.available.
  cbn [core.default_ctor core.size_ core.data_].
  rewrite Nat.sub_0_r, std_min_min.
  split; [|reflexivity].
  rewrite to_string_set_null_terminator.
  rewrite fill_n_spec by (rewrite length_replicate; lia).
  cbn [Nat.add]. rewrite take_0. cbn [app].
  apply take_app_length'. symmetry. apply length_replicate.
Qed.

Lemma parse_loop_zeros T (k : nat) l :
  (0 < fmt.bits T)%Z ->
  fmt.parse_loop T 10 (replicate k 48%Z ++ l) 0 = fmt.parse_loop T 10 l 0.
Proof.
  intros Hb. induction k as [|k IH]; [reflexivity|].
  cbn [replicate app fmt.parse_loop].
  change (fmt.digit_of 48) with 0%Z. cbn [Z.ltb Z.leb Z.compare orb].
  change (0 * 10)%Z with 0%Z.
  assert (H0 : fmt.arith T 0 = Some 0%Z).
  { apply arith_fits; [exact Hb|]. apply in_range_nonneg; [exact Hb|].
    unfold fmt.max_value. pose proof (half_pos T Hb).
    pose proof (modulus_pos T Hb). destruct (fmt.is_signed T); lia. }
  rewrite H0. change (0 + 0)%Z with 0%Z. rewrite H0, (wrap_zero T Hb).
  exact IH.
Qed.

(** X28.  [pad_left(value, width, fill)] writes the fill units before the
    decimal text up to [width] units, cut at the capacity 64.  With '0' as
    fill a non-negative value parses back; a negative value gets the fill
    before its sign, and the padded text parses as 0. *)
Theorem format_pad_left_contents T v width fill :
  fmt.standard T -> fmt.in_range T v ->
  let text := core.to_string (fmt.format T v) in
  core.to_string (fmt.format_pad_left T v width fill)
    = take 64 (replicate (width - length text) fill ++ text) /\
  (width <= 64 -> (0 <= v)%Z ->
   fmt.parse_int T (fmt.format_pad_left T v width 48) 10 = Some v) /\
  (width <= 64 -> (v < 0)%Z -> length text < width ->
   fmt.parse_int T (fmt.format_pad_left T v width 48) 10 = Some 0%Z).
Proof.
  intros HT Hr text.
  destruct (standard_bounds T HT) as (Hb & Hd & Hmag).
  destruct (format_text T v HT Hr) as (Hw & x & l & Hchars & Hstr).
  pose proof (max_digits_standard T HT) as Hmax.
  pose proof (length_to_string _ _ Hw) as Hlen. fold text in Hlen, Hstr.
  pose proof Hw as (Hdata & Hsz & _).
  assert (Hgen : forall f,
            wf 64 (fmt.format_pad_left T v width f) /\
            core.to_string (fmt.format_pad_left T v width f)
              = take 64 (replicate (width - length text) f ++ text)).
  { intros f. unfold fmt.format_pad_left, core.size.
    set (k := width - core.size_ (fmt.format T v)).
    set (r1 := if core.size_ (fmt.format T v) <? width
               then core.append_fill 64 (core.default_ctor 64) k f
               else core.default_ctor 64).
    assert (H1 : wf 64 r1 /\
                 core.to_string r1 = replicate (Nat.min k 64) f /\
                 core.size_ r1 = Nat.min k 64).
    { unfold r1. destruct (Nat.ltb_spec (core.size_ (fmt.format T v)) width).
      - destruct (to_string_append_fill_default 64 k f) as [Ha Hb'].
        split; [apply wf_append_fill, wf_default_ctor|]. split; assumption.
      - replace k with 0 by (unfold k; lia).
        split; [apply wf_default_ctor|]. split; reflexivity. }
    destruct H1 as (Hw1 & Hs1 & Hz1).
    split; [apply wf_append, Hw1|].
    destruct (to_string_append 64 r1 (core.data_ (fmt.format T v))
                (core.size_ (fmt.format T v)) Hw1) as [Hc _]; [lia|].
    rewrite Hc, Hs1, Hz1, Hlen. fold k.
    rewrite take_app, length_replicate, take_replicate.
    rewrite (Nat.min_comm 64 k). f_equal.
    unfold text, core.to_string. rewrite take_take. f_equal. lia. }
  split; [apply Hgen|].
  destruct (Hgen 48%Z) as [Hwp Hpad].
  assert (Hfit : width <= 64 ->
            core.to_string (fmt.format_pad_left T v width 48)
              = replicate (width - length text) 48%Z ++ text).
  { intros Hwd. rewrite Hpad. apply take_ge.
    rewrite length_app, length_replicate. lia. }
  split.
  - intros Hwd Hv. specialize (Hfit Hwd).
    destruct (Z.ltb_spec v 0) as [|_]; [lia|].
    assert (Hx : x <> 45%Z /\ x <> 43%Z).
    { apply Forall_cons in Hchars as [Hx _]. unfold spec.is_digit_char in Hx.
      lia. }
    destruct Hx as [H45 H43].
    assert (Hparse : fmt.parse_loop T 10 text 0 = Some v).
    { rewrite Hstr.
      rewrite <- (parse_int_unsigned_text T _ (fmt.format T v) 10 x l Hw Hstr
                    H45 H43).
      apply parse_int_format; auto.
      unfold fmt.in_range in Hr. lia. }
    destruct (width - length text) as [|k] eqn:Ek.
    + cbn [replicate app] in Hfit. rewrite Hstr in Hfit.
      rewrite (parse_int_unsigned_text T 64 _ 10 x l Hwp Hfit H45 H43).
      rewrite <- Hstr. exact Hparse.
    + cbn [replicate app] in Hfit.
      rewrite (parse_int_unsigned_text T 64 _ 10 48%Z _ Hwp Hfit)
        by discriminate.
      change (48%Z :: replicate k 48%Z ++ text)
        with (replicate (S k) 48%Z ++ text).
      rewrite parse_loop_zeros by exact Hb. exact Hparse.
  - intros Hwd Hv Hlt. specialize (Hfit Hwd).
    destruct (Z.ltb_spec v 0) as [_|]; [|lia].
    destruct (width - length text) as [|k] eqn:Ek; [lia|].
    cbn [replicate app] in Hfit.
    rewrite (parse_int_unsigned_text T 64 _ 10 48%Z _ Hwp Hfit)
      by discriminate.
    change (48%Z :: replicate k 48%Z ++ text)
      with (replicate (S k) 48%Z ++ text).
    rewrite Hstr, (parse_loop_stop T 10 (replicate (S k) 48%Z) 45%Z (x :: l))
      by (left; reflexivity).
    rewrite <- (app_nil_r (replicate (S k) 48%Z)).
    apply parse_loop_zeros, Hb.
Qed.

Lemma format_pad_left_contents_witness :
  core.to_string (fmt.format_pad_left fmt.int32_t 42 5 48) = lit "00042" /\
  fmt.parse_int fmt.int32_t (fmt.format_pad_left fmt.int32_t (-7) 4 48) 10
    = Some 0%Z.
Proof.
  assert (Hs : fmt.standard fmt.int32_t) by (right; right; left; reflexivity).
  split.
  - destruct (format_pad_left_contents fmt.int32_t 42 5 48 Hs) as [H _].
    + vm_compute. split; discriminate.
    + exact H.
  - destruct (format_pad_left_contents fmt.int32_t (-7) 4 48 Hs) as (_ & _ & H).
    + vm_compute. split; discriminate.
    + apply H; [lia|lia|vm_compute; lia].
Defined.

End padding.

Section radix.
Import invariant.
Local Open Scope Z_scope.

Lemma radix_lsb_range b fuel :
  0 < b -> forall u, Forall (fun d => 0 <= d < b) (spec.radix_lsb b fuel u).
Proof.
  intros Hb. induction fuel as [|fuel IH]; intros u; cbn [spec.radix_lsb];
    [constructor|].
  constructor; [apply Z.mod_pos_bound, Hb|].
  destruct (0 <? u / b); [apply IH|constructor].
Qed.

(** A number below [b ^ k] has at most [k] digits. *)
Lemma length_radix_lsb b fuel :
  1 < b -> forall u (k : nat),
    0 <= u < b ^ Z.of_nat k -> (1 <= k)%nat ->
    (length (spec.radix_lsb b fuel u) <= k)%nat.
Proof.
  intros Hb. induction fuel as [|fuel IH]; intros u k Hu Hk;
    cbn [spec.radix_lsb length]; [lia|].
  destruct (Z.ltb_spec 0 (u / b)) as [Hq|Hq]; [|simpl; lia].
  destruct k as [|k]; [lia|].
  rewrite Nat2Z.inj_succ, Z.pow_succ_r in Hu by lia.
  assert (Hlt : u / b < b ^ Z.of_nat k).
  { apply Z.div_lt_upper_bound; lia. }
  apply le_n_S, IH; [lia|].
  destruct k as [|k]; [|lia]. simpl in Hlt. lia.
Qed.

Lemma eval_radix_app b l1 l2 a :
  spec.eval_radix b (l1 ++ l2) a = spec.eval_radix b l2 (spec.eval_radix b l1 a).
Proof. apply fold_left_app. Qed.

(** With enough fuel the digits, read most significant first, write [u]. *)
Lemma eval_radix_lsb b (fuel : nat) :
  1 < b -> forall u,
    0 <= u < b ^ Z.of_nat fuel ->
    spec.eval_radix b (reverse (spec.radix_lsb b fuel u)) 0 = u.
Proof.
  intros Hb. induction fuel as [|fuel IH]; intros u Hu.
  - simpl in Hu. simpl. lia.
  - cbn [spec.radix_lsb]. rewrite reverse_cons, eval_radix_app.
    change (spec.eval_radix b [u mod b] ?a) with (a * b + u mod b).
    rewrite Nat2Z.inj_succ, Z.pow_succ_r in Hu by lia.
    pose proof (Z.div_mod u b ltac:(lia)) as Hdm.
    destruct (Z.ltb_spec 0 (u / b)) as [Hq|Hq].
    + rewrite IH; [lia|]. split; [lia|]. apply Z.div_lt_upper_bound; lia.
    + assert (0 <= u / b) by (apply Z.div_pos; lia).
      change (reverse []) with (@nil Z). cbn [spec.eval_radix fold_left]. lia.
Qed.

Lemma wrap_step_radix T a b d :
  0 < fmt.bits T ->
  fmt.wrap T (fmt.wrap T a * b + d) = fmt.wrap T (a * b + d).
Proof.
  intros Hb. apply wrap_congruent; [exact Hb|]. pose proof (modulus_pos T Hb).
  rewrite Z.add_mod, Z.mul_mod, (wrap_mod T Hb), <- Z.mul_mod, <- Z.add_mod
    by lia.
  reflexivity.
Qed.

(** One step of [parse_int] into an unsigned type of a standard width, for
    a base up to 36: no overflow, and the accumulator is the sum reduced
    modulo [2 ^ bits]. *)
Lemma arith_unsigned_step U a b d :
  fmt.is_signed U = false -> fmt.standard U ->
  1 < b <= 36 -> 0 <= d < b ->
  exists product sum,
    fmt.arith U (fmt.wrap U a * b) = Some product /\
    fmt.arith U (product + d) = Some sum /\
    fmt.wrap U sum = fmt.wrap U (a * b + d).
Proof.
  intros Hun HU Hb Hd.
  assert (Hbits : 0 < fmt.bits U).
  { unfold fmt.standard in HU. lia. }
  pose proof (modulus_pos U Hbits) as Hm.
  assert (Hr : 0 <= fmt.wrap U a < 2 ^ fmt.bits U).
  { unfold fmt.wrap. rewrite Hun. apply Z.mod_pos_bound. lia. }
  unfold fmt.arith, fmt.arith_signed, fmt.arith_bits. rewrite Hun. cbn [orb].
  destruct (Z.ltb_spec (fmt.bits U) 32) as [Hn|Hw].
  - replace (Z.max (fmt.bits U) 32) with 32 by lia.
    set (M := 2 ^ (32 - 1)).
    assert (HM : M = 2147483648) by reflexivity.
    assert (H16 : 2 ^ fmt.bits U <= 2 ^ 16).
    { apply Z.pow_le_mono_r; [lia|]. unfold fmt.standard in HU. lia. }
    change (2 ^ 16) with 65536 in H16.
    assert (Hp : 0 <= fmt.wrap U a * b <= 65536 * 36) by nia.
    exists (fmt.wrap U a * b), (fmt.wrap U a * b + d).
    destruct (Z.leb_spec (- M) (fmt.wrap U a * b)); [|lia].
    destruct (Z.leb_spec (fmt.wrap U a * b) (M - 1)); [|lia].
    destruct (Z.leb_spec (- M) (fmt.wrap U a * b + d)); [|lia].
    destruct (Z.leb_spec (fmt.wrap U a * b + d) (M - 1)); [|lia].
    cbn [andb]. repeat split. apply wrap_step_radix, Hbits.
  - replace (Z.max (fmt.bits U) 32) with (fmt.bits U) by lia.
    exists ((fmt.wrap U a * b) mod 2 ^ fmt.bits U),
           (((fmt.wrap U a * b) mod 2 ^ fmt.bits U + d) mod 2 ^ fmt.bits U).
    repeat split.
    rewrite <- (wrap_step_radix U a b d Hbits).
    apply wrap_congruent; [exact Hbits|].
    rewrite Z.mod_mod by lia. apply Zplus_mod_idemp_l.
Qed.

(** On the characters of digit values below the base, [parse_loop] into an
    unsigned type computes the written number modulo [2 ^ bits]. *)
Lemma parse_loop_radix U b (char : Z -> Z) ds :
  fmt.is_signed U = false -> fmt.standard U -> 1 < b <= 36 ->
  (forall d, 0 <= d < b -> fmt.digit_of (char d) = d) ->
  Forall (fun d => 0 <= d < b) ds ->
  forall a,
    fmt.parse_loop U b (map char ds) (fmt.wrap U a)
      = Some (fmt.wrap U (spec.eval_radix b ds a)).
Proof.
  intros Hun HU Hb Hchar Hds. induction Hds as [|d ds Hd Hds IH]; intros a.
  - reflexivity.
  - cbn [map fmt.parse_loop]. rewrite (Hchar d Hd).
    destruct (Z.ltb_spec d 0); [lia|]. destruct (Z.leb_spec b d); [lia|].
    cbn [orb].
    destruct (arith_unsigned_step U a b d Hun HU Hb Hd)
      as (product & sum & Hp & Hsum & Hw).
    rewrite Hp, Hsum, Hw. apply IH.
Qed.

Lemma digit_of_hex_char up d :
  0 <= d < 16 -> fmt.digit_of (spec.hex_char up d) = d.
Proof.
  intros Hd. unfold spec.hex_char, fmt.digit_of.
  destruct (Z.ltb_spec d 10); [|destruct up];
    repeat match goal with
           | |- context [(?a <=? ?b)] => destruct (Z.leb_spec a b)
           end; cbn [andb]; lia.
Qed.

Lemma digit_of_bin_char d :
  0 <= d < 2 -> fmt.digit_of (spec.bin_char d) = d.
Proof.
  intros Hd. unfold spec.bin_char, fmt.digit_of.
  repeat match goal with
         | |- context [(?a <=? ?b)] => destruct (Z.leb_spec a b)
         end; cbn [andb]; lia.
Qed.

(** The scratch loops store the digit characters, least significant
    first, from [pos] on. *)
Lemma emit_hex_spec fuel up u buffer pos :
  (pos + fuel <= length buffer)%nat ->
  let ds := map (spec.hex_char up) (spec.radix_lsb 16 fuel u) in
  snd (fmt.emit_hex fuel up u buffer pos) = (pos + length ds)%nat /\
  length (fst (fmt.emit_hex fuel up u buffer pos)) = length buffer /\
  take (pos + length ds) (fst (fmt.emit_hex fuel up u buffer pos))
    = take pos buffer ++ ds.
Proof.
  revert u buffer pos.
  induction fuel as [|fuel IH]; intros u buffer pos Hlen;
    cbn [fmt.emit_hex spec.radix_lsb map length].
  - cbn [fst snd]. rewrite Nat.add_0_r, app_nil_r. auto.
  - fold (spec.hex_char up (u mod 16)).
    set (ch := spec.hex_char up (u mod 16)).
    assert (Hone : take (S pos) (<[pos := ch]> buffer) = take pos buffer ++ [ch]).
    { rewrite (take_S_r _ pos ch) by (apply list_lookup_insert_eq; lia).
      rewrite take_insert_ge by lia. reflexivity. }
    destruct (0 <? u / 16).
    + destruct (IH (u / 16) (<[pos := ch]> buffer) (S pos))
        as (H1 & H2 & H3); [rewrite length_insert; lia|].
      rewrite length_insert in H2.
      replace (pos + S (length (map (spec.hex_char up)
                                    (spec.radix_lsb 16 fuel (u / 16)))))%nat
        with (S pos + length (map (spec.hex_char up)
                                  (spec.radix_lsb 16 fuel (u / 16))))%nat by lia.
      repeat split; auto. rewrite H3, Hone, <- app_assoc. reflexivity.
    + cbn [fst snd map length].
      replace (pos + 1)%nat with (S pos) by lia.
      rewrite length_insert. repeat split; auto.
Qed.

Lemma emit_bin_spec fuel u buffer pos :
  (pos + fuel <= length buffer)%nat ->
  let ds := map spec.bin_char (spec.radix_lsb 2 fuel u) in
  snd (fmt.emit_bin fuel u buffer pos) = (pos + length ds)%nat /\
  length (fst (fmt.emit_bin fuel u buffer pos)) = length buffer /\
  take (pos + length ds) (fst (fmt.emit_bin fuel u buffer pos))
    = take pos buffer ++ ds.
Proof.
  revert u buffer pos.
  induction fuel as [|fuel IH]; intros u buffer pos Hlen;
    cbn [fmt.emit_bin spec.radix_lsb map length].
  - cbn [fst snd]. rewrite Nat.add_0_r, app_nil_r. auto.
  - fold (spec.bin_char (u mod 2)).
    set (ch := spec.bin_char (u mod 2)).
    assert (Hone : take (S pos) (<[pos := ch]> buffer) = take pos buffer ++ [ch]).
    { rewrite (take_S_r _ pos ch) by (apply list_lookup_insert_eq; lia).
      rewrite take_insert_ge by lia. reflexivity. }
    destruct (0 <? u / 2).
    + destruct (IH (u / 2) (<[pos := ch]> buffer) (S pos))
        as (H1 & H2 & H3); [rewrite length_insert; lia|].
      rewrite length_insert in H2.
      replace (pos + S (length (map spec.bin_char
                                    (spec.radix_lsb 2 fuel (u / 2)))))%nat
        with (S pos + length (map spec.bin_char
                                  (spec.radix_lsb 2 fuel (u / 2))))%nat by lia.
      repeat split; auto. rewrite H3, Hone, <- app_assoc. reflexivity.
    + cbn [fst snd map length].
      replace (pos + 1)%nat with (S pos) by lia.
      rewrite length_insert. repeat split; auto.
Qed.

End radix.

Section proxies.
Import invariant.

(** [parse_int] into an unsigned type reads the whole text as digits. *)
Lemma parse_int_unsigned_type T Cap s base :
  fmt.is_signed T = false -> wf Cap s ->
  fmt.parse_int T s base = fmt.parse_loop T base (core.to_string s) 0.
Proof.
  intros Hu Hs. unfold fmt.parse_int, core.empty. rewrite Hu.
  destruct (Nat.eqb_spec (core.size_ s) 0) as [E|E].
  - unfold core.to_string. rewrite E, take_0. reflexivity.
  - rewrite (units_from Cap s 0 Hs), drop_0.
    destruct (fmt.parse_loop T base (core.to_string s) 0); reflexivity.
Qed.

Lemma to_string_prefix Cap (a b : Z) :
  2 <= Cap ->
  wf Cap (core.append Cap (core.default_ctor Cap) (Some [a; b]) 2) /\
  core.to_string (core.append Cap (core.default_ctor Cap) (Some [a; b]) 2)
    = [a; b] /\
  core.size_ (core.append Cap (core.default_ctor Cap) (Some [a; b]) 2) = 2.
Proof.
  intros HCap.
  destruct (to_string_append Cap (core.default_ctor Cap) [a; b] 2
              (wf_default_ctor Cap)) as [Hc Hz]; [simpl; lia|].
  split; [apply wf_append, wf_default_ctor|].
  rewrite Hc, Hz, to_string_default_ctor.
  cbn [app core.default_ctor core.size_]. rewrite Nat.sub_0_r.
  replace (Nat.min 2 Cap) with 2 by lia. split; reflexivity.
Qed.

(** The sizes the proxies reserve hold the prefix and every digit. *)
Lemma proxy_sizes T :
  fmt.standard T ->
  let hex_size := Z.to_nat (fmt.bits T / 8 * 2 + 3) in
  let bin_size := Z.to_nat (fmt.bits T / 8 * 8 + 3) in
  (0 < fmt.bits T)%Z /\ 3 < hex_size /\ 3 < bin_size /\
  (2 ^ fmt.bits T <= 16 ^ Z.of_nat (hex_size - 3))%Z /\
  (2 ^ fmt.bits T <= 2 ^ Z.of_nat (bin_size - 3))%Z.
Proof.
  intros HT hex_size bin_size.
  assert (H : (0 <? fmt.bits T)%Z = true /\ (3 <? hex_size) = true /\
              (3 <? bin_size) = true /\
              (2 ^ fmt.bits T <=? 16 ^ Z.of_nat (hex_size - 3))%Z = true /\
              (2 ^ fmt.bits T <=? 2 ^ Z.of_nat (bin_size - 3))%Z = true).
  { unfold hex_size, bin_size. destruct T as [b sg].
    unfold fmt.standard in HT. cbn [fmt.bits] in *.
    destruct HT as [ -> | [ -> | [ -> | -> ] ] ];
      repeat split; vm_compute; reflexivity. }
  destruct H as (H1 & H2 & H3 & H4 & H5).
  apply Z.ltb_lt in H1. apply Nat.ltb_lt in H2. apply Nat.ltb_lt in H3.
  apply Z.leb_le in H4. apply Z.leb_le in H5. auto.
Qed.

Lemma format_hex_text T v up :
  fmt.standard T ->
  let Cap := Z.to_nat (fmt.bits T / 8 * 2 + 3) in
  wf Cap (fmt.format_hex T v up) /\
  core.to_string (fmt.format_hex T v up)
    = [48; 120]%Z ++
      map (spec.hex_char up)
          (reverse (spec.radix_lsb 16 Cap (fmt.to_unsigned T v))).
Proof.
  intros HT Cap.
  destruct (proxy_sizes T HT) as (Hb & Hhex & _ & Hpow & _). fold Cap in Hhex, Hpow.
  assert (Hu : (0 <= fmt.to_unsigned T v < 2 ^ fmt.bits T)%Z).
  { apply Z.mod_pos_bound, (modulus_pos T Hb). }
  unfold fmt.format_hex. fold Cap.
  destruct (to_string_prefix Cap 48 120) as (Hw0 & Hs0 & Hz0); [lia|].
  pose proof (emit_hex_spec Cap up (fmt.to_unsigned T v) (replicate Cap 0%Z) 0)
    as He.
  rewrite length_replicate in He. specialize (He ltac:(lia)). cbv zeta in He.
  pose proof (length_radix_lsb 16 Cap ltac:(lia) (fmt.to_unsigned T v)
                (Cap - 3) ltac:(lia) ltac:(lia)) as Hlen.
  destruct (fmt.emit_hex Cap up (fmt.to_unsigned T v) (replicate Cap 0%Z) 0)
    as [buffer pos].
  cbn [fst snd Nat.add] in He. destruct He as (-> & Hbuf & Htake).
  rewrite length_map in *.
  destruct (copy_out_spec Cap _ buffer
              (length (spec.radix_lsb 16 Cap (fmt.to_unsigned T v))) Hw0)
    as [H1 H2]; [lia|lia|].
  split; [exact H1|]. rewrite H2, Hs0, Htake, take_0. cbn [app].
  rewrite map_reverse. reflexivity.
Qed.

Lemma format_bin_text T v :
  fmt.standard T ->
  let Cap := Z.to_nat (fmt.bits T / 8 * 8 + 3) in
  wf Cap (fmt.format_bin T v) /\
  core.to_string (fmt.format_bin T v)
    = [48; 98]%Z ++
      map spec.bin_char
          (reverse (spec.radix_lsb 2 Cap (fmt.to_unsigned T v))).
Proof.
  intros HT Cap.
  destruct (proxy_sizes T HT) as (Hb & _ & Hbin & _ & Hpow). fold Cap in Hbin, Hpow.
  assert (Hu : (0 <= fmt.to_unsigned T v < 2 ^ fmt.bits T)%Z).
  { apply Z.mod_pos_bound, (modulus_pos T Hb). }
  unfold fmt.format_bin. fold Cap.
  destruct (to_string_prefix Cap 48 98) as (Hw0 & Hs0 & Hz0); [lia|].
  pose proof (emit_bin_spec Cap (fmt.to_unsigned T v) (replicate Cap 0%Z) 0)
    as He.
  rewrite length_replicate in He. specialize (He ltac:(lia)). cbv zeta in He.
  pose proof (length_radix_lsb 2 Cap ltac:(lia) (fmt.to_unsigned T v)
                (Cap - 3) ltac:(lia) ltac:(lia)) as Hlen.
  destruct (fmt.emit_bin Cap (fmt.to_unsigned T v) (replicate Cap 0%Z) 0)
    as [buffer pos].
  cbn [fst snd Nat.add] in He. destruct He as (-> & Hbuf & Htake).
  rewrite length_map in *.
  destruct (copy_out_spec Cap _ buffer
              (length (spec.radix_lsb 2 Cap (fmt.to_unsigned T v))) Hw0)
    as [H1 H2]; [lia|lia|].
  split; [exact H1|]. rewrite H2, Hs0, Htake, take_0. cbn [app].
  rewrite map_reverse. reflexivity.
Qed.

(** The digits written after a two-unit prefix parse back to the value. *)
Lemma parse_radix_text U Cap s b (char : Z -> Z) a c (fuel : nat) u :
  fmt.is_signed U = false -> fmt.standard U -> (1 < b <= 36)%Z ->
  (forall d, (0 <= d < b)%Z -> fmt.digit_of (char d) = d) ->
  (0 <= u < 2 ^ fmt.bits U)%Z -> (u < b ^ Z.of_nat fuel)%Z ->
  wf Cap s ->
  core.to_string s = [a; c] ++ map char (reverse (spec.radix_lsb b fuel u)) ->
  fmt.parse_int U (core.substr Cap s 2 None) b = Some u.
Proof.
  intros Hun HU Hb1 Hchar Hu Hfuel Hs Hstr.
  assert (Hb : (0 < fmt.bits U)%Z) by (unfold fmt.standard in HU; lia).
  rewrite (parse_int_unsigned_type U Cap _ b Hun) by apply wf_substr.
  rewrite (to_string_substr_same Cap s 2 None Hs), Hstr. cbn [app drop].
  rewrite drop_0. rewrite <- (wrap_zero U Hb) at 1.
  rewrite (parse_loop_radix U b char) by
    (try assumption; apply Forall_reverse, radix_lsb_range; lia).
  rewrite eval_radix_lsb by lia.
  unfold fmt.wrap. rewrite Hun. f_equal. apply Z.mod_small, Hu.
Qed.

(** A text that starts with '0' and a unit that is no digit of the base
    parses as 0. *)
Lemma parse_prefixed_zero U b c rest :
  fmt.is_signed U = false -> fmt.standard U -> (1 < b <= 36)%Z ->
  (fmt.digit_of c < 0 \/ b <= fmt.digit_of c)%Z ->
  fmt.parse_loop U b (48%Z :: c :: rest) 0 = Some 0%Z.
Proof.
  intros Hun HU Hb Hc.
  assert (Hbits : (0 < fmt.bits U)%Z) by (unfold fmt.standard in HU; lia).
  change (48%Z :: c :: rest) with ([48%Z] ++ c :: rest).
  rewrite (parse_loop_stop U b [48%Z] c rest Hc).
  cbn [fmt.parse_loop]. change (fmt.digit_of 48) with 0%Z.
  destruct (Z.ltb_spec 0 0); [lia|]. destruct (Z.leb_spec b 0); [lia|].
  cbn [orb].
  destruct (arith_unsigned_step U 0 b 0 Hun HU Hb ltac:(lia))
    as (product & sum & Hp & Hsum & Hw).
  rewrite (wrap_zero U Hbits) in Hp. rewrite Hp, Hsum, Hw.
  change (0 * b + 0)%Z with 0%Z. rewrite (wrap_zero U Hbits). reflexivity.
Qed.

(** X29.  The hexadecimal and the binary text of a value are the prefix
    "0x" or "0b" and the digits of the value converted to the unsigned type
    of its width: the digits after the prefix parse back to that value, and
    the text with its prefix parses as 0. *)
Theorem format_hex_bin_roundtrip T v up :
  fmt.standard T ->
  let U := fmt.mk_int_type (fmt.bits T) false in
  let hex := fmt.format_hex T v up in
  let bin := fmt.format_bin T v in
  take 2 (core.to_string hex) = [48; 120]%Z /\
  take 2 (core.to_string bin) = [48; 98]%Z /\
  fmt.parse_int U
    (core.substr (Z.to_nat (fmt.bits T / 8 * 2 + 3)) hex 2 None) 16
    = Some (fmt.to_unsigned T v) /\
  fmt.parse_int U
    (core.substr (Z.to_nat (fmt.bits T / 8 * 8 + 3)) bin 2 None) 2
    = Some (fmt.to_unsigned T v) /\
  fmt.parse_int U hex 16 = Some 0%Z /\
  fmt.parse_int U bin 2 = Some 0%Z.
Proof.
  intros HT U hex bin.
  destruct (proxy_sizes T HT) as (Hb & Hhex & Hbin & Hp16 & Hp2).
  destruct (format_hex_text T v up HT) as [Hwh Hsh].
  destruct (format_bin_text T v HT) as [Hwb Hsb].
  fold hex in Hwh, Hsh. fold bin in Hwb, Hsb.
  assert (Hu : (0 <= fmt.to_unsigned T v < 2 ^ fmt.bits T)%Z).
  { apply Z.mod_pos_bound, (modulus_pos T Hb). }
  assert (HU : fmt.standard U) by exact HT.
  assert (Hmono16 : (16 ^ Z.of_nat (Z.to_nat (fmt.bits T / 8 * 2 + 3) - 3)
                     <= 16 ^ Z.of_nat (Z.to_nat (fmt.bits T / 8 * 2 + 3)))%Z).
  { apply Z.pow_le_mono_r; lia. }
  assert (Hmono2 : (2 ^ Z.of_nat (Z.to_nat (fmt.bits T / 8 * 8 + 3) - 3)
                    <= 2 ^ Z.of_nat (Z.to_nat (fmt.bits T / 8 * 8 + 3)))%Z).
  { apply Z.pow_le_mono_r; lia. }
  repeat split.
  - rewrite Hsh. reflexivity.
  - rewrite Hsb. reflexivity.
  - apply (parse_radix_text U _ hex 16 (spec.hex_char up) 48 120
             (Z.to_nat (fmt.bits T / 8 * 2 + 3)));
      auto using digit_of_hex_char; lia.
  - apply (parse_radix_text U _ bin 2 spec.bin_char 48 98
             (Z.to_nat (fmt.bits T / 8 * 8 + 3)));
      auto using digit_of_bin_char; lia.
  - rewrite (parse_int_unsigned_type U _ hex 16 eq_refl Hwh), Hsh.
    cbn [app]. apply parse_prefixed_zero; auto; [lia|].
    right. vm_compute. discriminate.
  - rewrite (parse_int_unsigned_type U _ bin 2 eq_refl Hwb), Hsb.
    cbn [app]. apply parse_prefixed_zero; auto; [lia|].
    right. vm_compute. discriminate.
Qed.

Lemma format_hex_bin_roundtrip_witness :
  core.to_string (fmt.format_hex fmt.int8_t (-1) false) = lit "0xff" /\
  fmt.parse_int fmt.uint8_t
    (core.substr 5 (fmt.format_hex fmt.int8_t (-1) false) 2 None) 16
    = Some 255%Z.
Proof.
  split; [reflexivity|].
  destruct (format_hex_bin_roundtrip fmt.int8_t (-1) false)
    as (_ & _ & H & _).
  - left. reflexivity.
  - exact H.
Defined.

End proxies.

(** ** Copying within one array *)
Section memory.

Lemma forward_loop_lookup dst src n :
  dst <= src ->
  forall i d,
    src + i + n <= length d ->
    length (detail.forward_loop d dst src i n) = length d /\
    forall k,
      detail.forward_loop d dst src i n !! k
        = if (dst + i <=? k) && (k <? dst + i + n)
          then d !! (k - dst + src) else d !! k.
Proof.
  intros Hle. induction n as [|n IH]; intros i d Hb; cbn [detail.forward_loop].
  - split; [reflexivity|]. intros k.
    destruct (Nat.leb_spec (dst + i) k), (Nat.ltb_spec k (dst + i + 0));
      reflexivity || lia.
  - destruct (IH (S i) (<[dst + i := deref d (src + i)]> d)) as [Hl Hk];
      [rewrite length_insert; lia|].
    rewrite length_insert in Hl. split; [exact Hl|]. intros k. rewrite Hk.
    destruct (Nat.eq_dec k (dst + i)) as [->|Hne].
    + destruct (Nat.leb_spec (dst + S i) (dst + i)),
        (Nat.leb_spec (dst + i) (dst + i)),
        (Nat.ltb_spec (dst + i) (dst + i + S n)); cbn [andb]; try lia.
      rewrite list_lookup_insert_eq by lia.
      replace (dst + i - dst + src) with (src + i) by lia.
      symmetry. apply lookup_deref. lia.
    + destruct (Nat.leb_spec (dst + S i) k), (Nat.ltb_spec k (dst + S i + n)),
        (Nat.leb_spec (dst + i) k), (Nat.ltb_spec k (dst + i + S n));
        cbn [andb]; try lia; apply list_lookup_insert_ne; lia.
Qed.

Lemma backward_loop_lookup dst src i :
  src <= dst ->
  forall d,
    dst + i <= length d ->
    length (detail.backward_loop d dst src i) = length d /\
    forall k,
      detail.backward_loop d dst src i !! k
        = if (dst <=? k) && (k <? dst + i)
          then d !! (k - dst + src) else d !! k.
Proof.
  intros Hle. induction i as [|i IH]; intros d Hb; cbn [detail.backward_loop].
  - split; [reflexivity|]. intros k.
    destruct (Nat.leb_spec dst k), (Nat.ltb_spec k (dst + 0));
      reflexivity || lia.
  - destruct (IH (<[dst + i := deref d (src + i)]> d)) as [Hl Hk];
      [rewrite length_insert; lia|].
    rewrite length_insert in Hl. split; [exact Hl|]. intros k. rewrite Hk.
    destruct (Nat.eq_dec k (dst + i)) as [->|Hne].
    + destruct (Nat.leb_spec dst (dst + i)),
        (Nat.ltb_spec (dst + i) (dst + i)),
        (Nat.ltb_spec (dst + i) (dst + S i)); cbn [andb]; try lia.
      rewrite list_lookup_insert_eq by lia.
      replace (dst + i - dst + src) with (src + i) by lia.
      symmetry. apply lookup_deref. lia.
    + destruct (Nat.leb_spec dst k), (Nat.ltb_spec k (dst + i)),
        (Nat.ltb_spec k (dst + S i));
        cbn [andb]; try lia; apply list_lookup_insert_ne; lia.
Qed.

(** X30.  [detail::move] is safe on overlapping ranges of one array: every
    slot of the destination range receives the unit that the source range
    held before the call, and no other slot changes.  [detail::copy] does
    the same when the destination does not start after the source. *)
Theorem move_overlap_safe d dst src count :
  dst + count <= length d -> src + count <= length d ->
  length (detail.move d dst src count) = length d /\
  (forall k,
     detail.move d dst src count !! k
       = if (dst <=? k) && (k <? dst + count)
         then d !! (k - dst + src) else d !! k) /\
  (dst <= src -> detail.copy d dst src count = detail.move d dst src count).
Proof.
  intros Hd Hs.
  assert (Hmove : length (detail.move d dst src count) = length d /\
    forall k,
      detail.move d dst src count !! k
        = if (dst <=? k) && (k <? dst + count)
          then d !! (k - dst + src) else d !! k).
  { unfold detail.move. destruct (Nat.eqb_spec count 0) as [->|Hc].
    - split; [reflexivity|]. intros k.
      destruct (Nat.leb_spec dst k), (Nat.ltb_spec k (dst + 0));
        reflexivity || lia.
    - destruct (Nat.ltb_spec dst src) as [Hlt|Hge].
      + destruct (forward_loop_lookup dst src count ltac:(lia) 0 d) as [Hl Hk];
          [lia|].
        split; [exact Hl|]. intros k. rewrite Hk, !Nat.add_0_r. reflexivity.
      + destruct (Nat.ltb_spec src dst) as [Hlt|Hge'].
        * apply backward_loop_lookup; lia.
        * split; [reflexivity|]. intros k. assert (dst = src) as -> by lia.
          destruct (Nat.leb_spec src k), (Nat.ltb_spec k (src + count));
            cbn [andb]; try reflexivity.
          f_equal. lia. }
  destruct Hmove as [Hl Hk]. repeat split; [exact Hl|exact Hk|].
  intros Hle. apply list_eq. intros k. rewrite Hk.
  unfold detail.copy. destruct (Nat.eqb_spec count 0) as [->|Hc].
  - destruct (Nat.leb_spec dst k), (Nat.ltb_spec k (dst + 0));
      reflexivity || lia.
  - destruct (forward_loop_lookup dst src count Hle 0 d) as [_ Hf]; [lia|].
    rewrite Hf, !Nat.add_0_r. reflexivity.
Qed.

Lemma move_overlap_safe_witness :
  detail.move (lit "abcdef") 2 0 4 = lit "ababcd" /\
  detail.move (lit "abcdef") 0 2 4 = lit "cdefef".
Proof.
  split; apply list_eq; intros k.
  - destruct (move_overlap_safe (lit "abcdef") 2 0 4) as (_ & H & _);
      [simpl; lia|simpl; lia|].
    rewrite H. do 7 (destruct k as [|k]; [reflexivity|]). reflexivity.
  - destruct (move_overlap_safe (lit "abcdef") 0 2 4) as (_ & H & _);
      [simpl; lia|simpl; lia|].
    rewrite H. do 7 (destruct k as [|k]; [reflexivity|]). reflexivity.
Defined.

End memory.
